(** * Tile search: a shallow embedding of [process.py]

    The development follows the matching engine of [process.py]: the scorer
    [Tileset.__compute_score], the grid search [Tileset.search] and the
    aggregation loop of [BaseLoader.search].

    Modelling conventions.
    - Python integers are [Z].
    - A Python float is idealised as the exact rational it denotes, kept in
      lowest terms ([Qred]), so that two equal floats are equal terms.  The
      properties stated below about scores (the values 0 and 1, the interval
      from 0 to 1, the strict comparison with the threshold) only use that
      division and subtraction are monotone and exact at those points.
    - A raised exception is an explicit [Raise] result.
    - A decoded image (a numpy array of shape (h, w, 4)) is its list of rows,
      each row a list of four-channel pixels. *)

From stdpp Require Import gmap strings list pretty.
From Stdlib Require Import ZArith QArith Qreduction Lqa Lia Permutation.
From Stdlib Require Import Ascii.

Open Scope Z_scope.

(** ** Python results: a value or a raised exception *)

Inductive PyErr : Type :=
| ValueError
| ZeroDivisionError
| KeyError.

Inductive result (A : Type) : Type :=
| Ok (a : A)
| Raise (e : PyErr).

Arguments Ok {A} a.
Arguments Raise {A} e.

#[global] Instance result_ret : MRet result := fun A a => Ok a.

#[global] Instance result_bind : MBind result := fun A B k m =>
  match m with
  | Ok a => k a
  | Raise e => Raise e
  end.

(** A [for] loop whose body yields items: the items of every iteration in
    order, or the first exception raised. *)
Fixpoint for_yield {A B : Type} (xs : list A) (body : A -> result (list B))
  : result (list B) :=
  match xs with
  | [] => Ok []
  | x :: xs' =>
      ys ← body x;
      zs ← for_yield xs' body;
      mret (ys ++ zs)
  end.

(** ** Python built-ins used by the search *)

(** Number of items of [range(start, stop, step)] for a non-zero step. *)
Definition range_len (start stop step : Z) : Z :=
  if 0 <? step then
    (if start <? stop then (stop - start + step - 1) / step else 0)
  else
    (if stop <? start then (start - stop - step - 1) / (- step) else 0).

Definition range_items (start stop step : Z) : list Z :=
  map (fun k : nat => start + Z.of_nat k * step)
      (seq 0 (Z.to_nat (range_len start stop step))).

(** [range(start, stop, step)]; a zero step raises [ValueError]. *)
Definition py_range (start stop step : Z) : result (list Z) :=
  if step =? 0 then Raise ValueError
  else Ok (range_items start stop step).

(** Bound of a slice, as Python normalises it: a negative bound counts from
    the end, and every bound is clamped to the sequence. *)
Definition slice_bound (len i : Z) : Z :=
  if i <? 0 then Z.max (i + len) 0 else Z.min i len.

(** [l[lo:hi]] *)
Definition py_slice {A : Type} (lo hi : Z) (l : list A) : list A :=
  let len := Z.of_nat (length l) in
  let lo' := slice_bound len lo in
  let hi' := slice_bound len hi in
  take (Z.to_nat (hi' - lo')) (drop (Z.to_nat lo') l).

(** Float arithmetic on idealised floats. *)
Definition int_truediv (a b : Z) : result Q :=
  if b =? 0 then Raise ZeroDivisionError
  else Ok (Qred (inject_Z a / inject_Z b)).

Definition float_sub (x y : Q) : Q := Qred (x - y).

Definition float_div (x y : Q) : result Q :=
  if Qeq_bool y 0 then Raise ZeroDivisionError
  else Ok (Qred (x / y)).

(** [x > y] on floats. *)
Definition float_gt (x y : Q) : bool := negb (Qle_bool x y).

(** ** Images *)

(** One pixel of an image read with [cv2.IMREAD_UNCHANGED]: the channels in
    the order of OpenCV, blue, green, red, alpha; channel 3 is alpha. *)
Record Pixel : Type := mkPixel {
  px_b : Z;
  px_g : Z;
  px_r : Z;
  px_a : Z
}.

(** [self.cv2]: the rows of the array, top to bottom. *)
Definition Img : Type := list (list Pixel).

(** [img.shape[0]] and [img.shape[1]]. The width is read off the first row:
    an image that was read from a file has at least one row, and the search
    never asks the shape of a window it has cut. *)
Definition height (img : Img) : Z := Z.of_nat (length img).

Definition width (img : Img) : Z :=
  match img with
  | [] => 0
  | row :: _ => Z.of_nat (length row)
  end.

(** The rows of an array all have the array's width. *)
Definition rectangular (img : Img) : Prop :=
  Forall (fun row => Z.of_nat (length row) = width img) img.

(** [img[y0:y1, x0:x1]] *)
Definition crop (y0 y1 x0 x1 : Z) (img : Img) : Img :=
  map (py_slice x0 x1) (py_slice y0 y1 img).

(** All four channels equal: one cell of [(a == b).min(axis=2)]. *)
Definition pixel_eqb (p q : Pixel) : bool :=
  (px_b p =? px_b q) && (px_g p =? px_g q) &&
  (px_r p =? px_r q) && (px_a p =? px_a q).

(** One cell of [a[:, :, 3] == 255]. *)
Definition opaque (p : Pixel) : bool := px_a p =? 255.

(** [np.count_nonzero] of a two-dimensional boolean array. *)
Fixpoint count_true (bs : list bool) : nat :=
  match bs with
  | [] => 0%nat
  | b :: bs' => ((if b then 1 else 0) + count_true bs')%nat
  end.

Fixpoint count_rows (m : list (list bool)) : nat :=
  match m with
  | [] => 0%nat
  | bs :: m' => (count_true bs + count_rows m')%nat
  end.

Definition count_nonzero (m : list (list bool)) : Z := Z.of_nat (count_rows m).

(** [a[:, :, 3] == 255] *)
Definition alpha_mask (a : Img) : list (list bool) := map (map opaque) a.

(** [(a == b).min(axis=2)], for two arrays of one shape, which is how the
    search calls the scorer (see [windows_inside_buffers]): the cells are
    compared position by position. *)
Definition all_channels_equal (a b : Img) : list (list bool) :=
  zip_with (zip_with pixel_eqb) a b.

(** [comp & mask] *)
Definition and_mask (comp mask : list (list bool)) : list (list bool) :=
  zip_with (zip_with andb) comp mask.

(** ** Identifiers, regions and tiles *)

(** [Id = str], [Region = tuple[int, int, int, int]] as (x, y, width, height),
    [Tile = tuple[Region, Region, float]]. *)
Definition Id : Type := string.
Definition Region : Type := Z * Z * Z * Z.
Definition Tile : Type := Region * Region * Q.

Definition PATH : string := "dist".
Definition TILE_SIZE : Z := 16.
Definition SIMILARITY : Q := 9 # 10.

(** ** class Single *)

Module Single.

Record t : Type := mk {
  path : string;
  id : Id;
  cv2 : Img;
  tilesets : gset Id
}.

(** [Single.add_tileset]; the tileset is passed by its identifier, the only
    attribute the method reads. *)
Definition add_tileset (self : t) (tileset_id : Id) : t :=
  {| path := path self; id := id self; cv2 := cv2 self;
     tilesets := {[ tileset_id ]} ∪ tilesets self |}.

End Single.

(** ** class Tileset *)

Module Tileset.

Record t : Type := mk {
  path : string;
  id : Id;
  cv2 : Img;
  tiles : gmap Id (list Tile)
}.

(** [Tileset.add_tile]: [self.tiles] is a [defaultdict(list)], so a missing
    key reads as the empty list. *)
Definition add_tile (self : t) (single_id : Id) (tile : Tile) : t :=
  {| path := path self; id := id self; cv2 := cv2 self;
     tiles := <[ single_id := default [] (tiles self !! single_id) ++ [tile] ]>
                (tiles self) |}.

(** [Tileset.__compute_score(a, b, denominator)] *)
Definition __compute_score (a b : Img) (denominator : Z) : result Q :=
  if denominator =? 0 then Ok 0%Q
  else
    let comp := all_channels_equal a b in
    let mask := alpha_mask a in
    int_truediv (count_nonzero (and_mask comp mask)) denominator.

(** [Tileset._compute_score(a, b)] *)
Definition _compute_score (a b : Img) : result Q :=
  let denominator := count_nonzero (alpha_mask a) in
  __compute_score a b denominator.

(** The two regions cut for the grid origin (j, i): the clipped window in
    the tileset and the matching part of the single, each as the slice bounds
    (y0, y1, x0, x1) the loop body computes. *)
Definition t_bounds (th tw sh sw j i : Z) : Z * Z * Z * Z :=
  (Z.max 0 j, Z.min th (j + sh), Z.max 0 i, Z.min tw (i + sw)).

Definition s_bounds (th tw sh sw j i : Z) : Z * Z * Z * Z :=
  (Z.max 0 (- j), Z.min sh (th - j), Z.max 0 (- i), Z.min sw (tw - i)).

(** The region tuple [x0, y0, x1 - x0, y1 - y0] built from slice bounds. *)
Definition region_of (bounds : Z * Z * Z * Z) : Region :=
  let '(y0, y1, x0, x1) := bounds in (x0, y0, x1 - x0, y1 - y0).

Definition crop_bounds (bounds : Z * Z * Z * Z) (img : Img) : Img :=
  let '(y0, y1, x0, x1) := bounds in crop y0 y1 x0 x1 img.

(** The first half of the body of the inner loop of [Tileset.search], at
    the origin (j, i): the two windows are cut and scored. *)
Definition score_at (self_cv2 single_cv2 : Img) (opaque_pixels_count : Z)
    (j i : Z) : result Q :=
  let th := height self_cv2 in
  let tw := width self_cv2 in
  let sh := height single_cv2 in
  let sw := width single_cv2 in
  let t := crop_bounds (t_bounds th tw sh sw j i) self_cv2 in
  let s := crop_bounds (s_bounds th tw sh sw j i) single_cv2 in
  __compute_score s t opaque_pixels_count.

(** The whole body of the inner loop: the score is tested against the
    threshold and a tile is yielded. *)
Definition search_at (self_cv2 single_cv2 : Img) (threshold : Q)
    (opaque_pixels_count : Z) (j i : Z) : result (list Tile) :=
  let th := height self_cv2 in
  let tw := width self_cv2 in
  let sh := height single_cv2 in
  let sw := width single_cv2 in
  score ← score_at self_cv2 single_cv2 opaque_pixels_count j i;
  if float_gt score threshold then
    confidence ← float_div (float_sub score threshold) (float_sub 1 threshold);
    mret [(region_of (t_bounds th tw sh sw j i),
           region_of (s_bounds th tw sh sw j i), confidence)]
  else mret [].

(** The grid origins (j, i) visited by the two loops of [Tileset.search],
    in the order of the visit: the loops with the body left out. *)
Definition origins (self_cv2 single_cv2 : Img) (size : Z)
  : result (list (Z * Z)) :=
  let th := height self_cv2 in
  let tw := width self_cv2 in
  let sh := height single_cv2 in
  let sw := width single_cv2 in
  j_range ← py_range (size - sh) th size;
  for_yield j_range (fun j =>
    i_range ← py_range (size - sw) tw size;
    for_yield i_range (fun i => mret [(j, i)])).

(** The origin (j, i) is visited by the loops. *)
Definition visited (self_cv2 single_cv2 : Img) (size j i : Z) : Prop :=
  exists os, origins self_cv2 single_cv2 size = Ok os /\ (j, i) ∈ os.

(** The pair of regions the loop body builds at an origin. *)
Definition regions_at (self_cv2 single_cv2 : Img) (origin : Z * Z)
  : Region * Region :=
  let th := height self_cv2 in
  let tw := width self_cv2 in
  let sh := height single_cv2 in
  let sw := width single_cv2 in
  (region_of (t_bounds th tw sh sw origin.1 origin.2),
   region_of (s_bounds th tw sh sw origin.1 origin.2)).

(** The candidate alignments of a search: the region pair of every origin. *)
Definition candidates (self_cv2 single_cv2 : Img) (size : Z)
  : result (list (Region * Region)) :=
  os ← origins self_cv2 single_cv2 size;
  mret (map (regions_at self_cv2 single_cv2) os).

(** [Tileset.search(self, single, threshold, size)], collected into a list
    as [list(results)] does. *)
Definition search (self : t) (single : Single.t) (threshold : Q) (size : Z)
  : result (list Tile) :=
  let th := height (cv2 self) in
  let tw := width (cv2 self) in
  let sh := height (Single.cv2 single) in
  let sw := width (Single.cv2 single) in
  let opaque_pixels_count := count_nonzero (alpha_mask (Single.cv2 single)) in
  j_range ← py_range (size - sh) th size;
  for_yield j_range (fun j =>
    i_range ← py_range (size - sw) tw size;
    for_yield i_range (fun i =>
      search_at (cv2 self) (Single.cv2 single) threshold
                opaque_pixels_count j i)).

End Tileset.

(** ** class BaseLoader *)

Module BaseLoader.

(** [self.indices["tileset"]] and [self.indices["single"]], each in the
    order in which the set is iterated. *)
Record t : Type := mk {
  tilesets : list Tileset.t;
  singles : list Single.t
}.

(** One item of [results]: [(tileset.id, single.id, list(results))]. *)
Definition SearchResult : Type := Id * Id * list Tile.

(** The objects the aggregation loop mutates, reached through
    [tileset_index] and [single_index], and the counter [found]. *)
Record Indices : Type := mkIndices {
  tileset_index : gmap Id Tileset.t;
  single_index : gmap Id Single.t;
  found : Z
}.

Section Dispatcher.

(** [_get_search_pairs] is overridden by the loaders of the asset packs,
    which leave out pairs by their paths; [keep] is that test, constantly
    true for [BaseLoader] itself. *)
Variable keep : Tileset.t -> Single.t -> bool.

Definition _get_search_pairs (self : t) : list (Tileset.t * Single.t) :=
  tileset ← tilesets self;
  single ← singles self;
  if keep tileset single then [(tileset, single)] else [].

(** [BaseLoader._search]: the search with its default threshold and size. *)
Definition _search (args : Tileset.t * Single.t) : result SearchResult :=
  let '(tileset, single) := args in
  results ← Tileset.search tileset single SIMILARITY TILE_SIZE;
  mret (Tileset.id tileset, Single.id single, results).

(** [{image.id: image for image in ...}] *)
Definition index_tilesets (l : list Tileset.t) : gmap Id Tileset.t :=
  foldl (fun m image => <[ Tileset.id image := image ]> m) ∅ l.

Definition index_singles (l : list Single.t) : gmap Id Single.t :=
  foldl (fun m image => <[ Single.id image := image ]> m) ∅ l.

Definition lookup_or_raise {V : Type} (m : gmap Id V) (k : Id) : result V :=
  match m !! k with
  | Some v => Ok v
  | None => Raise KeyError
  end.

(** One iteration of the loop [for tileset_id, single_id, tiles in results]. *)
Definition aggregate_step (st : Indices) (r : SearchResult) : result Indices :=
  let '(tileset_id, single_id, tiles) := r in
  match tiles with
  | [] => Ok st
  | _ :: _ =>
      tileset ← lookup_or_raise (tileset_index st) tileset_id;
      single ← lookup_or_raise (single_index st) single_id;
      let single' := Single.add_tileset single (Tileset.id tileset) in
      let tileset' :=
        foldl (fun ts tile => Tileset.add_tile ts (Single.id single) tile)
              tileset tiles in
      Ok {| tileset_index := <[ tileset_id := tileset' ]> (tileset_index st);
            single_index := <[ single_id := single' ]> (single_index st);
            found := found st + Z.of_nat (length tiles) |}
  end.

Fixpoint aggregate (st : Indices) (results : list SearchResult)
  : result Indices :=
  match results with
  | [] => Ok st
  | r :: results' =>
      st' ← aggregate_step st r;
      aggregate st' results'
  end.

Definition initial_indices (self : t) : Indices :=
  {| tileset_index := index_tilesets (tilesets self);
     single_index := index_singles (singles self);
     found := 0 |}.

(** [BaseLoader.search]: the pool hands the results back in an arbitrary
    order ([imap_unordered]); [arrival] is that order.  The final [Indices]
    hold the loader's own objects, mutated in place. *)
Definition search (self : t) (arrival : list SearchResult) : result Indices :=
  aggregate (initial_indices self) arrival.

Definition arrival_of (self : t) (arrival : list SearchResult) : Prop :=
  exists results,
    mapM _search (_get_search_pairs self) = Ok results /\
    Permutation results arrival.

End Dispatcher.

End BaseLoader.

(** ** The scorer in the words of its description

    Counts taken position by position, to compare with the array
    expressions of the code. *)

(** Sum of [f k] for [k] below [n]. *)
Fixpoint sum_upto (n : nat) (f : nat -> nat) : nat :=
  match n with
  | O => 0%nat
  | S k => (sum_upto k f + f k)%nat
  end.

#[global] Instance Pixel_eq_dec : EqDecision Pixel.
Proof. solve_decision. Defined.

(** The pixel at row [y] and column [x], when the array has one there. *)
Definition pixel_at (img : Img) (y x : nat) : option Pixel :=
  row ← img !! y; row !! x.

Definition row_length (img : Img) (y : nat) : nat :=
  length (default [] (img !! y)).

(** Position (y, x) of the single window holds a fully opaque pixel. *)
Definition opaque_at (s : Img) (y x : nat) : bool :=
  match pixel_at s y x with
  | Some p => bool_decide (px_a p = 255)
  | None => false
  end.

(** Position (y, x) of the single window holds a fully opaque pixel, and the
    tileset window holds the same pixel there. *)
Definition agree_at (s t : Img) (y x : nat) : bool :=
  match pixel_at s y x, pixel_at t y x with
  | Some p, Some q => bool_decide (px_a p = 255) && bool_decide (p = q)
  | _, _ => false
  end.

Definition count_positions (P : nat -> nat -> bool) (img : Img) : Z :=
  Z.of_nat (sum_upto (length img) (fun y =>
              sum_upto (row_length img y) (fun x =>
                if P y x then 1%nat else 0%nat))).

Definition opaque_count (img : Img) : Z := count_positions (opaque_at img) img.

Definition agree_count (s t : Img) : Z := count_positions (agree_at s t) s.

(** ** The aggregated state, described result by result *)

(** The tiles reported for the pair ([tileset_id], [single_id]), in the
    order of the results. *)
Definition tiles_for (tileset_id single_id : Id)
    (results : list BaseLoader.SearchResult) : list Tile :=
  r ← results;
  if decide (r.1 = (tileset_id, single_id)) then r.2 else [].

(** The tilesets reported to hold [single_id]: those with a result for it
    that has at least one tile. *)
Definition tilesets_for (single_id : Id)
    (results : list BaseLoader.SearchResult) : gset Id :=
  list_to_set (r ← results;
               if decide (r.1.2 = single_id /\ r.2 <> [])
               then [r.1.1] else []).

(** The number of tiles in the results. *)
Definition found_for (results : list BaseLoader.SearchResult) : Z :=
  Z.of_nat (length (r ← results; r.2)).

(** A [defaultdict(list)] entry after [l] has been appended item by item:
    untouched when [l] is empty. *)
Definition grow (entry : option (list Tile)) (l : list Tile)
  : option (list Tile) :=
  match l with
  | [] => entry
  | _ :: _ => Some (default [] entry ++ l)
  end.

(** Every object is filed under its own identifier. *)
Definition well_keyed (st : BaseLoader.Indices) : Prop :=
  (forall k t, BaseLoader.tileset_index st !! k = Some t -> Tileset.id t = k) /\
  (forall k s, BaseLoader.single_index st !! k = Some s -> Single.id s = k).

(** The identifiers of a result with tiles are in the indices. *)
Definition known (st : BaseLoader.Indices) (r : BaseLoader.SearchResult)
  : Prop :=
  r.2 = [] \/
  (is_Some (BaseLoader.tileset_index st !! r.1.1) /\
   is_Some (BaseLoader.single_index st !! r.1.2)).

(** Results for one pair carry one list of tiles, as the results of the
    searches of a run do. *)
Definition consistent (results : list BaseLoader.SearchResult) : Prop :=
  forall r1 r2, r1 ∈ results -> r2 ∈ results -> r1.1 = r2.1 -> r1.2 = r2.2.

(** [st'] is [st] with the results merged in. *)
Definition merged (st : BaseLoader.Indices)
    (results : list BaseLoader.SearchResult) (st' : BaseLoader.Indices)
  : Prop :=
  (forall tid,
     option_Forall2
       (fun t t' =>
          Tileset.path t' = Tileset.path t /\ Tileset.id t' = Tileset.id t /\
          Tileset.cv2 t' = Tileset.cv2 t /\
          forall sid, Tileset.tiles t' !! sid =
                      grow (Tileset.tiles t !! sid) (tiles_for tid sid results))
       (BaseLoader.tileset_index st !! tid)
       (BaseLoader.tileset_index st' !! tid)) /\
  (forall sid,
     option_Forall2
       (fun s s' =>
          Single.path s' = Single.path s /\ Single.id s' = Single.id s /\
          Single.cv2 s' = Single.cv2 s /\
          Single.tilesets s' = Single.tilesets s ∪ tilesets_for sid results)
       (BaseLoader.single_index st !! sid)
       (BaseLoader.single_index st' !! sid)) /\
  BaseLoader.found st' = BaseLoader.found st + found_for results.

(** The identifiers under which the result of a pair is reported. *)
Definition pair_key (p : Tileset.t * Single.t) : Id * Id :=
  (Tileset.id p.1, Single.id p.2).

(** The loader as [load] leaves it: every object has its own identifier and
    no association yet. *)
Definition loaded (self : BaseLoader.t) : Prop :=
  NoDup (Tileset.id <$> BaseLoader.tilesets self) /\
  NoDup (Single.id <$> BaseLoader.singles self) /\
  Forall (fun t => Tileset.tiles t = ∅) (BaseLoader.tilesets self) /\
  Forall (fun s => Single.tilesets s = ∅) (BaseLoader.singles self).

(** ** Regions and buffers *)

Definition region_x (r : Region) : Z := r.1.1.1.
Definition region_y (r : Region) : Z := r.1.1.2.
Definition region_width (r : Region) : Z := r.1.2.
Definition region_height (r : Region) : Z := r.2.

(** The region lies inside the image. *)
Definition in_bounds (r : Region) (img : Img) : Prop :=
  0 <= region_x r /\ region_x r + region_width r <= width img /\
  0 <= region_y r /\ region_y r + region_height r <= height img.

(** ** Images used in the examples *)

Module Examples.

Definition red : Pixel := mkPixel 0 0 255 255.
Definition blue : Pixel := mkPixel 255 0 0 255.
Definition clear : Pixel := mkPixel 0 0 0 0.

(** An image of one colour, [h] rows by [w] columns. *)
Definition solid (h w : nat) (p : Pixel) : Img := replicate h (replicate w p).

(** Two images of one height side by side. *)
Definition beside (a b : Img) : Img := zip_with app a b.

Definition tileset_of (img : Img) : Tileset.t :=
  Tileset.mk "tileset.png" "#0" img ∅.

Definition single_of (img : Img) : Single.t :=
  Single.mk "single.png" "#1" img ∅.

(** A 16 by 16 single: red, with a blue top-left pixel. *)
Definition sprite : Img :=
  (blue :: replicate 15 red) :: replicate 15 (replicate 16 red).

(** A 32 by 16 tileset: a blue block, then a copy of [sprite] at (16, 0). *)
Definition atlas : Img := beside (solid 16 16 blue) sprite.

(** A 32 by 16 tileset holding [sprite] twice, at (0, 0) and at (16, 0). *)
Definition atlas_twice : Img := beside sprite sprite.

(** A fully transparent 16 by 16 single and a tileset holding a copy. *)
Definition ghost : Img := solid 16 16 clear.
Definition atlas_ghost : Img := beside (solid 16 16 blue) ghost.

(** An 8 by 8 tileset and a single of one pixel. *)
Definition small_atlas : Img := solid 8 8 red.
Definition dot : Img := solid 1 1 red.

(** A loader with one tileset and two singles, and the results of its run
    as they may arrive: the last pair first. *)
Definition loader : BaseLoader.t :=
  BaseLoader.mk [tileset_of atlas]
                [single_of sprite; Single.mk "ghost.png" "#2" ghost ∅].

Definition found_tile : Tile := ((16, 0, 16, 16), (0, 0, 16, 16), 1%Q).

Definition run_arrival : list BaseLoader.SearchResult :=
  [("#0", "#2", []); ("#0", "#1", [found_tile])].

Definition every_pair (tileset : Tileset.t) (single : Single.t) : bool := true.

End Examples.

(** ** class BaseCV2Img *)

Module BaseCV2Img.

(** [self.shape]: [self.cv2.shape[1], self.cv2.shape[0]], the width first. *)
Definition shape (img : Img) : Z * Z := (width img, height img).

(** One cell of [a == b]: the four channels, compared one by one. *)
Definition channels_eq (p q : Pixel) : list bool :=
  [px_b p =? px_b q; px_g p =? px_g q; px_r p =? px_r q; px_a p =? px_a q].

(** [(a == b).all()], for two arrays of one shape. *)
Definition all_equal (a b : Img) : bool :=
  forallb (forallb (forallb id)) (zip_with (zip_with channels_eq) a b).

(** [BaseCV2Img.__eq__], between two objects that hold an image: the
    shapes are compared first, and the arrays only when the shapes agree. *)
Definition __eq__ (self_cv2 other_cv2 : Img) : bool :=
  bool_decide (shape self_cv2 = shape other_cv2) &&
  all_equal self_cv2 other_cv2.



End BaseCV2Img.

(** ** class BaseImg *)

Module BaseImg.

(** The classes of images: [Single], [Tileset], [Character], [Animation]. *)
Inductive Kind : Type :=
| KSingle
| KTileset
| KCharacter
| KAnimation.

(** [self.kind = self.__class__.__name__.lower()] *)
Definition kind_name (k : Kind) : string :=
  match k with
  | KSingle => "single"
  | KTileset => "tileset"
  | KCharacter => "character"
  | KAnimation => "animation"
  end.

(** An object of a class that holds no image, [Character] or [Animation]. *)
Record t : Type := mk {
  path : string;
  id : Id
}.

(** [f"#{next(self.id_counter)}"]: the identifier of a new object and the
    class-wide counter after it. *)
Definition next_id (id_counter : nat) : Id * nat :=
  ("#" +:+ pretty id_counter, S id_counter).

(** [BaseImg.__eq__]: two objects are equal when their paths are. *)
Definition __eq__ (self other : t) : bool :=
  bool_decide (path self = path other).

End BaseImg.

(** ** Strings

    A Python [str] is a [string]; the functions below only look at characters
    of the ASCII range.  [str.lower] and the functions of [os.path] belong
    to Python's library: the definitions that use them take them as
    parameters. *)

(** [needle in hay], between strings. *)
Fixpoint contains (needle hay : string) : bool :=
  String.prefix needle hay ||
  match hay with
  | EmptyString => false
  | String _ hay' => contains needle hay'
  end.

(** A character of the class [a-z0-9]. *)
Definition is_tag_char (c : ascii) : bool :=
  let n := nat_of_ascii c in
  ((97 <=? n)%nat && (n <=? 122)%nat) || ((48 <=? n)%nat && (n <=? 57)%nat).

Definition is_digit_char (c : ascii) : bool :=
  let n := nat_of_ascii c in (48 <=? n)%nat && (n <=? 57)%nat.

(** Whitespace of the ASCII range, as [str.isspace] has it. *)
Definition is_space (c : ascii) : bool :=
  let n := nat_of_ascii c in
  ((9 <=? n)%nat && (n <=? 13)%nat) || ((28 <=? n)%nat && (n <=? 32)%nat).

(** [re.sub(r"[^a-z0-9]+", " ", s)]: every maximal run of characters outside
    the class becomes one space; [in_run] tells that the run has begun. *)
Fixpoint re_sub_run (in_run : bool) (s : string) : string :=
  match s with
  | EmptyString => EmptyString
  | String c s' =>
      if is_tag_char c then String c (re_sub_run false s')
      else if in_run then re_sub_run true s'
      else String " "%char (re_sub_run true s')
  end.

Definition re_sub (s : string) : string := re_sub_run false s.

(** [s.lstrip()], [s.rstrip()] and [s.strip()] *)
Fixpoint lstrip (s : string) : string :=
  match s with
  | EmptyString => EmptyString
  | String c s' => if is_space c then lstrip s' else s
  end.

Fixpoint rstrip (s : string) : string :=
  match s with
  | EmptyString => EmptyString
  | String c s' =>
      match rstrip s' with
      | EmptyString => if is_space c then EmptyString else String c EmptyString
      | r => String c r
      end
  end.

Definition strip (s : string) : string := lstrip (rstrip s).

(** The pieces of [s] between single whitespace characters. *)
Fixpoint split_pieces (s : string) : list string :=
  match s with
  | EmptyString => [EmptyString]
  | String c s' =>
      if is_space c then EmptyString :: split_pieces s'
      else match split_pieces s' with
           | w :: ws => String c w :: ws
           | [] => [String c EmptyString]
           end
  end.

(** [s.split()]: the words between runs of whitespace, none of them empty. *)
Definition py_split (s : string) : list string :=
  List.filter (fun w => negb (String.eqb w EmptyString)) (split_pieces s).

(** [s.split(sep)] for a separator of one character: the pieces between the
    separators, empty pieces kept, always at least one piece. *)
Fixpoint split_on (sep : ascii) (s : string) : list string :=
  match s with
  | EmptyString => [EmptyString]
  | String c s' =>
      if Ascii.eqb c sep then EmptyString :: split_on sep s'
      else match split_on sep s' with
           | w :: ws => String c w :: ws
           | [] => [String c EmptyString]
           end
  end.

(** [word.isdigit()] *)
Definition isdigit (w : string) : bool :=
  negb (String.eqb w EmptyString) &&
  forallb is_digit_char (String.list_ascii_of_string w).

Definition IMAGE_EXTENSIONS : list string :=
  [".png"; ".jpg"; ".jpeg"; ".bmp"; ".gif"].

Definition EXCLUDED_TAGS : list string :=
  ["modernexteriors"; "moderninteriors"; "modern"; "sorter"; "complete";
   "animated"; "animation"; "single"; "tileset"; "character"; "gifs";
   "16x16"; "32x32"; "48x48"; "and"; "the"; "win"].

(** ** BaseImg.__parse_tags *)

Module Tags.

Section ParseTags.

(** [str.lower] and [os.path.splitext]. *)
Variable lower : string -> string.
Variable splitext : string -> string * string.

(** The words of the path: [re.sub(...).strip()], then [split()]. *)
Definition words (path : string) : list string :=
  let string := lower (splitext path).1 in
  let string := strip (re_sub string) in
  py_split string.

(** The test of the loop, for the list [unique] built so far. *)
Definition accepted (unique : list string) (word : string) : bool :=
  (2 <? String.length word)%nat &&
  negb (isdigit word) &&
  negb (bool_decide (word ∈ unique)) &&
  negb (bool_decide (word ∈ EXCLUDED_TAGS)).

(** [BaseImg.__parse_tags(path, kind)] *)
Definition __parse_tags (path kind : string) : list string :=
  let unique := [kind +:+ "s"] in
  let unique :=
    foldl (fun unique word =>
             if accepted unique word then unique ++ [word] else unique)
          unique (words path) in
  reverse unique.

End ParseTags.

(** What holds of the list [unique] of the loop after the words [seen]. *)
Definition kept (kind : string) (seen unique : list string) : Prop :=
  head unique = Some (kind +:+ "s") /\
  NoDup unique /\
  (forall tag, tag ∈ unique ->
     tag = (kind +:+ "s") \/
     ((2 < String.length tag)%nat /\ isdigit tag = false /\
      (tag ∉ EXCLUDED_TAGS) /\ tag ∈ seen)) /\
  unique `sublist_of` ((kind +:+ "s") :: seen) /\
  (forall word, word ∈ seen ->
     (2 < String.length word)%nat -> isdigit word = false ->
     word ∉ EXCLUDED_TAGS -> word ∈ unique).

End Tags.

(** ** The loaders of the asset packs: which files they load *)

Module LoadImage.

Section LoadImage.

Variable lower : string -> string.
Variable splitext : string -> string * string.

(** [BaseLoader._load_image]: the class of the object it builds for the
    path, or [None] when it ignores the file. *)
Definition BaseLoader (path : string) : option BaseImg.Kind :=
  let lower := lower path in
  let ext := (splitext path).2 in
  if negb (bool_decide (ext ∈ IMAGE_EXTENSIONS)) then None
  else if contains "palette" lower then None
  else if contains "32x32" lower || contains "48x48" lower then None
  else if contains "animated" lower || contains "animation" lower then
    (if negb (String.eqb ext ".gif") then None
     else Some BaseImg.KAnimation)
  else if contains "character" lower then Some BaseImg.KCharacter
  else if contains "single" lower then Some BaseImg.KSingle
  else Some BaseImg.KTileset.

(** [ModernExteriorsLoader._load_image] *)
Definition ModernExteriorsLoader (path : string) : option BaseImg.Kind :=
  if contains "old_sorting" (lower path) then None
  else if contains "complete_singles" (lower path) then None
  else BaseLoader path.

(** [ModernInteriorsLoader._load_image] *)
Definition ModernInteriorsLoader (path : string) : option BaseImg.Kind :=
  if contains "old stuff" (lower path) then None
  else if contains "black_shadow" (lower path) then None
  else if contains "shadowless" (lower path) then None
  else if contains "user_interface" (lower path) then None
  else if contains "home_designs" (lower path) then None
  else if contains "room_builder_subfiles" (lower path) then None
  else BaseLoader path.

End LoadImage.

End LoadImage.

(** ** BaseLoader.load *)

Module Loading.

(** The loader while it loads: the four sets of [self.indices], each in
    some order, and the counter of identifiers, which all classes share. *)
Record State : Type := mkState {
  indices : BaseLoader.t;
  characters : list BaseImg.t;
  animations : list BaseImg.t;
  id_counter : nat
}.

(** [s.add(x)] on a set kept as a list: the set is left as it is when it
    holds an element equal to [x]. *)
Definition set_add {A : Type} (eqb : A -> A -> bool) (x : A) (l : list A)
  : list A :=
  if existsb (fun y => eqb y x) l then l else l ++ [x].

Definition single_eq (a b : Single.t) : bool :=
  BaseCV2Img.__eq__ (Single.cv2 a) (Single.cv2 b).

Definition tileset_eq (a b : Tileset.t) : bool :=
  BaseCV2Img.__eq__ (Tileset.cv2 a) (Tileset.cv2 b).

(** A loader that has loaded nothing, with the counter at [id_counter]. *)
Definition empty (id_counter : nat) : State :=
  {| indices := BaseLoader.mk [] []; characters := []; animations := [];
     id_counter := id_counter |}.

(** The identifiers of all the objects of the loader. *)
Definition all_ids (st : State) : list Id :=
  (Tileset.id <$> BaseLoader.tilesets (indices st)) ++
  (Single.id <$> BaseLoader.singles (indices st)) ++
  (BaseImg.id <$> characters st) ++
  (BaseImg.id <$> animations st).

(** No two elements of the list, at different places, compare equal. *)
Definition pairwise_distinct {A : Type} (eqb : A -> A -> bool) (l : list A)
  : Prop :=
  forall i j x y, l !! i = Some x -> l !! j = Some y -> i <> j ->
                  eqb x y = false.

Section Load.

(** [cv2.imread(path, cv2.IMREAD_UNCHANGED)]: the decoded image, or [None]
    for a file that cannot be read. *)
Variable imread : string -> option Img.

(** The class of the object [_load_image] builds for a path, or [None]
    when it ignores the file; the loaders of the asset packs override it. *)
Variable _load_image_kind : string -> option BaseImg.Kind.

(** [if image := self._load_image(path): self.indices[image.kind].add(image)].
    The constructor takes the next identifier, then reads the image; the
    result is [None] when the constructor raises, which it does on an image
    that cannot be read. *)
Definition load_image (st : State) (path : string) : option State :=
  match _load_image_kind path with
  | None => Some st
  | Some kind =>
      let '(id, id_counter') := BaseImg.next_id (id_counter st) in
      match kind with
      | BaseImg.KSingle =>
          img ← imread path;
          Some {| indices :=
                    BaseLoader.mk (BaseLoader.tilesets (indices st))
                      (set_add single_eq (Single.mk path id img ∅)
                               (BaseLoader.singles (indices st)));
                  characters := characters st;
                  animations := animations st;
                  id_counter := id_counter' |}
      | BaseImg.KTileset =>
          img ← imread path;
          Some {| indices :=
                    BaseLoader.mk
                      (set_add tileset_eq (Tileset.mk path id img ∅)
                               (BaseLoader.tilesets (indices st)))
                      (BaseLoader.singles (indices st));
                  characters := characters st;
                  animations := animations st;
                  id_counter := id_counter' |}
      | BaseImg.KCharacter =>
          Some {| indices := indices st;
                  characters := set_add BaseImg.__eq__ (BaseImg.mk path id)
                                        (characters st);
                  animations := animations st;
                  id_counter := id_counter' |}
      | BaseImg.KAnimation =>
          Some {| indices := indices st;
                  characters := characters st;
                  animations := set_add BaseImg.__eq__ (BaseImg.mk path id)
                                        (animations st);
                  id_counter := id_counter' |}
      end
  end.

(** [BaseLoader.load], over the files in the order [os.walk] lists them. *)
Fixpoint load (st : State) (files : list string) : option State :=
  match files with
  | [] => Some st
  | path :: files' =>
      st' ← load_image st path;
      load st' files'
  end.

(** What holds of a loader that started empty with the counter at [start]
    and has gone through [files]: every identifier is the one of a counter
    value handed out since, no identifier is used twice, no association is
    recorded yet, every tileset and single was built from one of the files,
    with the image read from it, and no two tilesets, and no two singles,
    hold equal images. *)
Definition well_loaded (start : nat) (files : list string) (st : State)
  : Prop :=
  (start <= id_counter st)%nat /\
  (forall id, id ∈ all_ids st ->
     exists k, (start <= k < id_counter st)%nat /\
               id = (BaseImg.next_id k).1) /\
  NoDup (all_ids st) /\
  Forall (fun t => Tileset.tiles t = ∅ /\ Tileset.path t ∈ files /\
                   _load_image_kind (Tileset.path t) = Some BaseImg.KTileset /\
                   imread (Tileset.path t) = Some (Tileset.cv2 t))
         (BaseLoader.tilesets (indices st)) /\
  Forall (fun s => Single.tilesets s = ∅ /\ Single.path s ∈ files /\
                   _load_image_kind (Single.path s) = Some BaseImg.KSingle /\
                   imread (Single.path s) = Some (Single.cv2 s))
         (BaseLoader.singles (indices st)) /\
  pairwise_distinct tileset_eq (BaseLoader.tilesets (indices st)) /\
  pairwise_distinct single_eq (BaseLoader.singles (indices st)).

End Load.

End Loading.

(** ** The loaders of the asset packs: which pairs they search *)

Module SearchPairs.

(** [_, *theme, __ = name.split("_")]: the pieces between the first and the
    last one; a name of fewer than two pieces cannot be unpacked. *)
Definition unpack_theme (name : string) : result (list string) :=
  match split_on "_" name with
  | _ :: (_ :: _) as rest => Ok (removelast rest)
  | _ => Raise ValueError
  end.

Section SearchPairs.

(** [str.lower], [os.path.dirname] and [os.path.basename]. *)
Variable lower : string -> string.
Variable dirname : string -> string.
Variable basename : string -> string.

(** [super()._get_search_pairs()]: every tileset with every single. *)
Definition base (self : BaseLoader.t) : list (Tileset.t * Single.t) :=
  BaseLoader._get_search_pairs (fun _ _ => true) self.

(** The body of the loop of [ModernExteriorsLoader._get_search_pairs]:
    [false] when it reaches [continue], [true] when it reaches [yield]. *)
Definition ModernExteriorsLoader_keeps (tileset : Tileset.t)
    (single : Single.t) : result bool :=
  if contains "theme_sorter" (lower (Tileset.path tileset)) &&
     contains "singles" (lower (Single.path single))
  then
    let single_dir := dirname (Single.path single) in
    single_theme ← unpack_theme (basename single_dir);
    tileset_theme ← unpack_theme (basename (Tileset.path tileset));
    if bool_decide (py_slice 0 (-1) single_theme <> tileset_theme)
    then mret false
    else mret true
  else mret true.

(** The body of the loop of [ModernInteriorsLoader._get_search_pairs]. *)
Definition ModernInteriorsLoader_keeps (tileset : Tileset.t)
    (single : Single.t) : result bool :=
  if contains "theme_sorter" (lower (Tileset.path tileset)) &&
     contains "theme_sorter_singles" (lower (Single.path single))
  then
    let single_dir := dirname (Single.path single) in
    single_theme ← unpack_theme (basename single_dir);
    tileset_theme ← unpack_theme (basename (Tileset.path tileset));
    if bool_decide (single_theme <> tileset_theme)
    then mret false
    else mret true
  else mret true.

(** A generator that goes through the pairs of the base class and yields
    those its body keeps, as [list(...)] consumes it. *)
Definition filtered (keeps : Tileset.t -> Single.t -> result bool)
    (self : BaseLoader.t) : result (list (Tileset.t * Single.t)) :=
  for_yield (base self)
    (fun '(tileset, single) =>
       b ← keeps tileset single;
       mret (if b : bool then [(tileset, single)] else [])).

(** [ModernExteriorsLoader._get_search_pairs] *)
Definition ModernExteriorsLoader (self : BaseLoader.t)
  : result (list (Tileset.t * Single.t)) :=
  filtered ModernExteriorsLoader_keeps self.

(** [ModernInteriorsLoader._get_search_pairs] *)
Definition ModernInteriorsLoader (self : BaseLoader.t)
  : result (list (Tileset.t * Single.t)) :=
  filtered ModernInteriorsLoader_keeps self.

(** The test a body amounts to once it is known not to raise. *)
Definition test_of (keeps : Tileset.t -> Single.t -> result bool)
    (tileset : Tileset.t) (single : Single.t) : bool :=
  match keeps tileset single with
  | Ok b => b
  | Raise _ => false
  end.

End SearchPairs.

End SearchPairs.

(** ** Paths

    [str.lower] on characters of the ASCII range and the functions of
    [posixpath] that the loaders call, for the paths of the examples. *)

Module Posix.

Definition lower_char (c : ascii) : ascii :=
  let n := nat_of_ascii c in
  if (65 <=? n)%nat && (n <=? 90)%nat then ascii_of_nat (n + 32) else c.

Fixpoint lower (s : string) : string :=
  match s with
  | EmptyString => EmptyString
  | String c s' => String (lower_char c) (lower s')
  end.

(** [p.rfind(c)]: the index of the last [c], or -1. *)
Fixpoint rfind (c : ascii) (p : list ascii) : Z :=
  match p with
  | [] => -1
  | x :: p' =>
      let r := rfind c p' in
      if 0 <=? r then r + 1 else if Ascii.eqb x c then 0 else -1
  end.

(** [posixpath.splitext]: the extension starts at the last dot of the file
    name, unless only dots come before it. *)
Definition splitext (p : string) : string * string :=
  let chars := String.list_ascii_of_string p in
  let sepIndex := rfind "/" chars in
  let dotIndex := rfind "." chars in
  if (sepIndex <? dotIndex) &&
     existsb (fun c => negb (Ascii.eqb c "."))
             (py_slice (sepIndex + 1) dotIndex chars)
  then (String.string_of_list_ascii (take (Z.to_nat dotIndex) chars),
        String.string_of_list_ascii (drop (Z.to_nat dotIndex) chars))
  else (p, EmptyString).

(** [posixpath.basename] *)
Definition basename (p : string) : string :=
  let chars := String.list_ascii_of_string p in
  let i := rfind "/" chars + 1 in
  String.string_of_list_ascii (drop (Z.to_nat i) chars).

(** [head.rstrip("/")] *)
Fixpoint rstrip_sep (p : list ascii) : list ascii :=
  match p with
  | [] => []
  | x :: p' =>
      match rstrip_sep p' with
      | [] => if Ascii.eqb x "/" then [] else [x]
      | r => x :: r
      end
  end.

(** [posixpath.dirname] *)
Definition dirname (p : string) : string :=
  let chars := String.list_ascii_of_string p in
  let i := rfind "/" chars + 1 in
  let head := take (Z.to_nat i) chars in
  String.string_of_list_ascii
    (if negb (forallb (fun x => Ascii.eqb x "/") head)
     then rstrip_sep head else head).

(** The files of a small pack and what [cv2.imread] reads from them. *)
Definition pack : list string :=
  ["Pack/Theme_Sorter/1_Generic_16x16.png";
   "Pack/Theme_Sorter_Singles/1_Generic_Singles/Single_Chair.png";
   "Pack/Theme_Sorter_Singles/1_Generic_Singles/Single_Chair_Copy.png";
   "Pack/Characters/Character_Bob.png";
   "Pack/Animated/Door.gif";
   "Pack/Readme.txt";
   "Pack/Theme_Sorter_48x48/1_Generic_48x48.png"].

Definition imread (path : string) : option Img :=
  if contains "Single" path then Some Examples.sprite
  else if contains "16x16" path then Some Examples.atlas
  else None.

End Posix.

(** * Properties *)

(** ** Counting *)

Section Counting.

Lemma sum_upto_ext (n : nat) (f g : nat -> nat) :
  (forall k, (k < n)%nat -> f k = g k) -> sum_upto n f = sum_upto n g.
Proof.
  induction n as [|n IH]; intros Hfg; simpl; [done|].
  rewrite IH by (intros k Hk; apply Hfg; lia).
  rewrite Hfg by lia. done.
Qed.

Lemma sum_upto_front (n : nat) (f : nat -> nat) :
  sum_upto (S n) f = (f 0%nat + sum_upto n (fun k => f (S k)))%nat.
Proof.
  induction n as [|n IH]; [simpl; lia|].
  change (sum_upto (S (S n)) f) with (sum_upto (S n) f + f (S n))%nat.
  rewrite IH. simpl. lia.
Qed.

Lemma sum_upto_zero (n : nat) (f : nat -> nat) :
  (forall k, (k < n)%nat -> f k = 0%nat) -> sum_upto n f = 0%nat.
Proof.
  induction n as [|n IH]; intros Hf; simpl; [done|].
  rewrite IH by (intros k Hk; apply Hf; lia).
  rewrite Hf by lia. done.
Qed.

Lemma count_true_app (xs ys : list bool) :
  count_true (xs ++ ys) = (count_true xs + count_true ys)%nat.
Proof. induction xs as [|b xs IH]; simpl; [done|]. rewrite IH. lia. Qed.

Lemma count_rows_app (m1 m2 : list (list bool)) :
  count_rows (m1 ++ m2) = (count_rows m1 + count_rows m2)%nat.
Proof. induction m1 as [|r m1 IH]; simpl; [done|]. rewrite IH. lia. Qed.

Lemma count_true_take (n : nat) (bs : list bool) :
  (count_true (take n bs) <= count_true bs)%nat.
Proof.
  rewrite <- (take_drop n bs) at 2. rewrite count_true_app. lia.
Qed.

Lemma count_true_drop (n : nat) (bs : list bool) :
  (count_true (drop n bs) <= count_true bs)%nat.
Proof.
  rewrite <- (take_drop n bs) at 2. rewrite count_true_app. lia.
Qed.

Lemma count_rows_take (n : nat) (m : list (list bool)) :
  (count_rows (take n m) <= count_rows m)%nat.
Proof.
  rewrite <- (take_drop n m) at 2. rewrite count_rows_app. lia.
Qed.

Lemma count_rows_drop (n : nat) (m : list (list bool)) :
  (count_rows (drop n m) <= count_rows m)%nat.
Proof.
  rewrite <- (take_drop n m) at 2. rewrite count_rows_app. lia.
Qed.

Lemma count_true_slice (lo hi : Z) (bs : list bool) :
  (count_true (py_slice lo hi bs) <= count_true bs)%nat.
Proof.
  unfold py_slice. etrans; [apply count_true_take|apply count_true_drop].
Qed.

Lemma count_rows_slice (lo hi : Z) (m : list (list bool)) :
  (count_rows (py_slice lo hi m) <= count_rows m)%nat.
Proof.
  unfold py_slice. etrans; [apply count_rows_take|apply count_rows_drop].
Qed.

Lemma py_slice_fmap {A B : Type} (f : A -> B) (lo hi : Z) (l : list A) :
  f <$> py_slice lo hi l = py_slice lo hi (f <$> l).
Proof.
  unfold py_slice. rewrite fmap_take, fmap_drop, length_fmap. done.
Qed.

(** Slicing every row keeps at most the true cells of each row. *)
Lemma count_rows_fmap_slice (lo hi : Z) (m : list (list bool)) :
  (count_rows (py_slice lo hi <$> m) <= count_rows m)%nat.
Proof.
  induction m as [|r m IH]; csimpl; [done|].
  pose proof (count_true_slice lo hi r). lia.
Qed.

Lemma alpha_mask_crop (y0 y1 x0 x1 : Z) (img : Img) :
  alpha_mask (crop y0 y1 x0 x1 img) =
  py_slice x0 x1 <$> py_slice y0 y1 (alpha_mask img).
Proof.
  unfold alpha_mask, crop.
  rewrite <- py_slice_fmap, <- !list_fmap_compose.
  apply list_fmap_ext. intros _ row _. simpl. apply py_slice_fmap.
Qed.

(** A window holds at most the opaque pixels of the whole image. *)
Lemma count_opaque_crop (y0 y1 x0 x1 : Z) (img : Img) :
  count_nonzero (alpha_mask (crop y0 y1 x0 x1 img)) <=
  count_nonzero (alpha_mask img).
Proof.
  unfold count_nonzero. rewrite alpha_mask_crop.
  apply Nat2Z.inj_le.
  etrans; [apply count_rows_fmap_slice|apply count_rows_slice].
Qed.

Lemma count_true_and_le (comp mask : list bool) :
  (count_true (zip_with andb comp mask) <= count_true mask)%nat.
Proof.
  revert mask. induction comp as [|c comp IH]; intros [|b mask]; simpl;
    try lia.
  specialize (IH mask). destruct c, b; simpl; lia.
Qed.

(** [comp & mask] has at most the true cells of [mask]. *)
Lemma count_and_mask_le (comp mask : list (list bool)) :
  count_nonzero (and_mask comp mask) <= count_nonzero mask.
Proof.
  unfold count_nonzero, and_mask. apply Nat2Z.inj_le.
  revert mask. induction comp as [|c comp IH]; intros [|r mask]; cbn;
    try lia.
  specialize (IH mask). pose proof (count_true_and_le c r).
  change (zip_with (zip_with andb) comp mask) with (and_mask comp mask) in *.
  lia.
Qed.

Lemma count_nonzero_nonneg (m : list (list bool)) : 0 <= count_nonzero m.
Proof. unfold count_nonzero. lia. Qed.

End Counting.

(** ** The array expressions of the scorer, position by position *)

Section Positions.

Lemma pixel_eqb_eq (p q : Pixel) : pixel_eqb p q = true <-> p = q.
Proof.
  destruct p as [b1 g1 r1 a1], q as [b2 g2 r2 a2]. unfold pixel_eqb. simpl.
  rewrite !andb_true_iff, !Z.eqb_eq. split.
  - intros [[[-> ->] ->] ->]. done.
  - intros [= -> -> -> ->]. done.
Qed.

Lemma pixel_eqb_decide (p q : Pixel) : pixel_eqb p q = bool_decide (p = q).
Proof.
  destruct (pixel_eqb p q) eqn:E.
  - apply pixel_eqb_eq in E. by rewrite bool_decide_eq_true_2.
  - rewrite bool_decide_eq_false_2; [done|].
    intros H. apply pixel_eqb_eq in H. congruence.
Qed.

Lemma pixel_eqb_refl (p : Pixel) : pixel_eqb p p = true.
Proof. by apply pixel_eqb_eq. Qed.

Lemma opaque_decide (p : Pixel) : opaque p = bool_decide (px_a p = 255).
Proof.
  unfold opaque. destruct (px_a p =? 255) eqn:E.
  - apply Z.eqb_eq in E. by rewrite bool_decide_eq_true_2.
  - apply Z.eqb_neq in E. by rewrite bool_decide_eq_false_2.
Qed.

Lemma count_true_opaque_row (r : list Pixel) :
  count_true (opaque <$> r) =
  sum_upto (length r) (fun x =>
    if match r !! x with
       | Some p => bool_decide (px_a p = 255)
       | None => false
       end then 1%nat else 0%nat).
Proof.
  induction r as [|p r IH]; [done|].
  cbn [length]. rewrite sum_upto_front. csimpl.
  rewrite IH, opaque_decide. done.
Qed.

Lemma count_true_agree_row (r1 r2 : list Pixel) :
  count_true (zip_with andb (zip_with pixel_eqb r1 r2) (opaque <$> r1)) =
  sum_upto (length r1) (fun x =>
    if match r1 !! x, r2 !! x with
       | Some p, Some q => bool_decide (px_a p = 255) && bool_decide (p = q)
       | _, _ => false
       end then 1%nat else 0%nat).
Proof.
  revert r2. induction r1 as [|p r1 IH]; intros [|q r2]; [done|done| |].
  - transitivity 0%nat; [done|]. symmetry. apply sum_upto_zero. intros k _.
    by destruct ((p :: r1) !! k).
  - cbn [length]. rewrite sum_upto_front. csimpl.
    rewrite IH, opaque_decide, pixel_eqb_decide, andb_comm. done.
Qed.

(** [np.count_nonzero(a[:, :, 3] == 255)] counts the positions of [a]
    that hold a fully opaque pixel. *)
Lemma count_alpha_mask_positions (a : Img) :
  count_nonzero (alpha_mask a) = opaque_count a.
Proof.
  unfold count_nonzero, opaque_count, count_positions. f_equal.
  induction a as [|r a IH]; [done|].
  cbn [length]. rewrite sum_upto_front. csimpl.
  rewrite count_true_opaque_row. f_equal. exact IH.
Qed.

(** [np.count_nonzero(comp & mask)] counts the positions of [a] that hold a
    fully opaque pixel equal, in all four channels, to the pixel of [b] at
    the same position. *)
Lemma count_and_mask_positions (a b : Img) :
  count_nonzero (and_mask (all_channels_equal a b) (alpha_mask a)) =
  agree_count a b.
Proof.
  unfold count_nonzero, agree_count, count_positions. f_equal.
  revert b. induction a as [|r1 a IH]; intros [|r2 b]; [done|done| |].
  - transitivity 0%nat; [done|]. symmetry. apply sum_upto_zero. intros y _.
    apply sum_upto_zero. intros x _. unfold agree_at.
    replace (pixel_at [] y x) with (@None Pixel) by done.
    by destruct (pixel_at (r1 :: a) y x).
  - cbn [length]. rewrite sum_upto_front.
    unfold all_channels_equal, and_mask, alpha_mask in *. csimpl.
    rewrite count_true_agree_row. f_equal. apply IH.
Qed.

End Positions.

(** ** Float arithmetic *)

Section Floats.

Lemma float_gt_true (x y : Q) : float_gt x y = true <-> (y < x)%Q.
Proof.
  unfold float_gt. rewrite negb_true_iff, <- not_true_iff_false, Qle_bool_iff.
  split; [apply Qnot_le_lt|apply Qlt_not_le].
Qed.

Lemma float_gt_false (x y : Q) : float_gt x y = false <-> (x <= y)%Q.
Proof. unfold float_gt. by rewrite negb_false_iff, Qle_bool_iff. Qed.

Lemma int_truediv_ok (a b : Z) :
  b <> 0 -> int_truediv a b = Ok (Qred (inject_Z a / inject_Z b)).
Proof. intros Hb. unfold int_truediv. by apply Z.eqb_neq in Hb as ->. Qed.

Lemma float_div_ok (x y : Q) :
  ~ (y == 0)%Q -> float_div x y = Ok (Qred (x / y)).
Proof.
  intros Hy. unfold float_div.
  destruct (Qeq_bool y 0) eqn:E; [|done].
  by apply Qeq_bool_eq in E.
Qed.

Lemma float_sub_eq (x y : Q) : (float_sub x y == x - y)%Q.
Proof. apply Qred_correct. Qed.

(** A quotient of counts lies between 0 and 1. *)
Lemma ratio_bounds (a b : Z) :
  0 <= a <= b -> b <> 0 ->
  (0 <= inject_Z a / inject_Z b <= 1)%Q.
Proof.
  intros [Ha Hab] Hb.
  assert (Hpos : (0 < inject_Z b)%Q).
  { change 0%Q with (inject_Z 0). rewrite <- Zlt_Qlt. lia. }
  split.
  - apply Qle_shift_div_l; [done|]. rewrite Qmult_0_l.
    change 0%Q with (inject_Z 0). rewrite <- Zle_Qle. done.
  - apply Qle_shift_div_r; [done|]. rewrite Qmult_1_l.
    rewrite <- Zle_Qle. done.
Qed.

Lemma ratio_self (n : Z) : n <> 0 -> Qred (inject_Z n / inject_Z n) = 1%Q.
Proof.
  intros Hn. change 1%Q with (Qred 1). apply Qred_complete.
  apply Qmult_inv_r. change 0%Q with (inject_Z 0).
  rewrite inject_Z_injective. done.
Qed.

(** The rescaled confidence of a score above the threshold. *)
Lemma confidence_bounds (raw threshold : Q) :
  (threshold < raw)%Q -> (raw <= 1)%Q ->
  (0 < (raw - threshold) / (1 - threshold) <= 1)%Q.
Proof.
  intros Hlt Hle.
  assert (Hpos : (0 < 1 - threshold)%Q) by lra.
  split.
  - apply Qlt_shift_div_l; [done|]. lra.
  - apply Qle_shift_div_r; [done|]. lra.
Qed.

End Floats.

(** ** The scorer *)

Section Scorer.

(** With a denominator that is at least the number of opaque pixels of [a],
    the scorer returns without raising, and its value is the quotient of
    the agreeing positions by the denominator, between 0 and 1. *)
Lemma compute_score_value (a b : Img) (denominator : Z) :
  count_nonzero (alpha_mask a) <= denominator ->
  exists score,
    Tileset.__compute_score a b denominator = Ok score /\
    (denominator = 0 -> score = 0%Q) /\
    (denominator <> 0 ->
       score = Qred (inject_Z (agree_count a b) / inject_Z denominator)) /\
    (0 <= score <= 1)%Q.
Proof.
  intros Hle. unfold Tileset.__compute_score.
  destruct (denominator =? 0) eqn:E.
  - apply Z.eqb_eq in E. exists 0%Q. repeat split; try done. 
  - apply Z.eqb_neq in E. rewrite int_truediv_ok by done.
    rewrite count_and_mask_positions.
    eexists. split; [done|]. split; [done|]. split; [done|].
    rewrite Qred_correct. apply ratio_bounds; [|done].
    rewrite <- count_and_mask_positions. split.
    + apply count_nonzero_nonneg.
    + etrans; [apply count_and_mask_le|done].
Qed.

Lemma crop_bounds_opaque (bounds : Z * Z * Z * Z) (img : Img) :
  count_nonzero (alpha_mask (Tileset.crop_bounds bounds img)) <=
  count_nonzero (alpha_mask img).
Proof. destruct bounds as [[[y0 y1] x0] x1]. apply count_opaque_crop. Qed.

(** The score computed at any origin of a search. *)
Lemma score_at_value (self_cv2 single_cv2 : Img) (j i : Z) :
  let th := height self_cv2 in
  let tw := width self_cv2 in
  let sh := height single_cv2 in
  let sw := width single_cv2 in
  let t := Tileset.crop_bounds (Tileset.t_bounds th tw sh sw j i) self_cv2 in
  let s := Tileset.crop_bounds (Tileset.s_bounds th tw sh sw j i) single_cv2 in
  let denominator := count_nonzero (alpha_mask single_cv2) in
  exists score,
    Tileset.score_at self_cv2 single_cv2 denominator j i = Ok score /\
    (denominator = 0 -> score = 0%Q) /\
    (denominator <> 0 ->
       score = Qred (inject_Z (agree_count s t) / inject_Z denominator)) /\
    (0 <= score <= 1)%Q.
Proof.
  intros th tw sh sw t s denominator. unfold Tileset.score_at.
  apply compute_score_value. apply crop_bounds_opaque.
Qed.

(** C1. Every score computed during a search is the number of positions of
    the clipped single window that hold a fully opaque pixel equal in all
    four channels to the tileset pixel at the same position, divided by the
    number of fully opaque pixels of the whole single image; it lies between
    0 and 1.  (When the single has no opaque pixel the score is 0.) *)
Theorem search_score_is_agree_over_opaque
    (self : Tileset.t) (single : Single.t) (j i : Z) :
  let th := height (Tileset.cv2 self) in
  let tw := width (Tileset.cv2 self) in
  let sh := height (Single.cv2 single) in
  let sw := width (Single.cv2 single) in
  let t := Tileset.crop_bounds (Tileset.t_bounds th tw sh sw j i)
             (Tileset.cv2 self) in
  let s := Tileset.crop_bounds (Tileset.s_bounds th tw sh sw j i)
             (Single.cv2 single) in
  let denominator := opaque_count (Single.cv2 single) in
  let agree := agree_count s t in
  exists score,
    Tileset.score_at (Tileset.cv2 self) (Single.cv2 single)
      (count_nonzero (alpha_mask (Single.cv2 single))) j i = Ok score /\
    (denominator <> 0 -> (score == inject_Z agree / inject_Z denominator)%Q) /\
    (denominator = 0 -> score = 0%Q) /\
    (0 <= score <= 1)%Q.
Proof.
  intros th tw sh sw t s denominator agree.
  destruct (score_at_value (Tileset.cv2 self) (Single.cv2 single) j i)
    as (score & Hs & H0 & Hn & Hb).
  exists score. unfold denominator. rewrite <- count_alpha_mask_positions.
  split; [exact Hs|]. split; [|done].
  intros Hd. rewrite (Hn Hd). apply Qred_correct.
Qed.

Lemma agree_count_self (a : Img) : agree_count a a = opaque_count a.
Proof.
  unfold agree_count, opaque_count, count_positions. f_equal.
  apply sum_upto_ext. intros y _. apply sum_upto_ext. intros x _.
  unfold agree_at, opaque_at. destruct (pixel_at a y x) as [p|]; [|done].
  by rewrite (bool_decide_eq_true_2 (p = p)), andb_true_r.
Qed.

(** C7, as the code has it. For all equal-shaped windows where the tileset
    window is identical to the single window in all four channels at every
    pixel, and which hold at least one fully opaque pixel, the scorer
    returns exactly 1.0. *)
Theorem compute_score_identical (a b : Img) :
  a = b ->
  0 < count_nonzero (alpha_mask a) ->
  Tileset._compute_score a b = Ok 1%Q.
Proof.
  intros <- Hpos. unfold Tileset._compute_score, Tileset.__compute_score.
  destruct (count_nonzero (alpha_mask a) =? 0) eqn:E.
  { apply Z.eqb_eq in E. lia. }
  apply Z.eqb_neq in E. rewrite int_truediv_ok by done.
  rewrite count_and_mask_positions, agree_count_self.
  rewrite <- count_alpha_mask_positions. by rewrite ratio_self.
Qed.

End Scorer.

(** ** Loops and ranges *)

Section Loops.

Context {A B : Type}.

Lemma for_yield_cons (x : A) (xs : list A) (body : A -> result (list B))
    (ys zs : list B) :
  body x = Ok ys -> for_yield xs body = Ok zs ->
  for_yield (x :: xs) body = Ok (ys ++ zs).
Proof. intros Hx Hxs. simpl. rewrite Hx. simpl. rewrite Hxs. done. Qed.

Lemma for_yield_cons_inv (x : A) (xs : list A) (body : A -> result (list B))
    (out : list B) :
  for_yield (x :: xs) body = Ok out ->
  exists ys zs, body x = Ok ys /\ for_yield xs body = Ok zs /\ out = ys ++ zs.
Proof.
  simpl. destruct (body x) as [ys|]; [|done]. simpl.
  destruct (for_yield xs body) as [zs|]; [|done]. simpl.
  intros [= <-]. eauto.
Qed.

(** A loop whose body never raises does not raise. *)
Lemma for_yield_total (xs : list A) (body : A -> result (list B)) :
  (forall x, x ∈ xs -> exists ys, body x = Ok ys) ->
  exists zs, for_yield xs body = Ok zs.
Proof.
  induction xs as [|x xs IH]; intros Hbody; [by eexists|].
  destruct (Hbody x) as [ys Hys]; [left|].
  destruct IH as [zs Hzs]; [intros y Hy; apply Hbody; by right|].
  eexists. by apply for_yield_cons.
Qed.

(** The items of a loop are the items of its iterations. *)
Lemma elem_of_for_yield (xs : list A) (body : A -> result (list B))
    (out : list B) (z : B) :
  for_yield xs body = Ok out ->
  z ∈ out <-> exists x ys, x ∈ xs /\ body x = Ok ys /\ z ∈ ys.
Proof.
  revert out. induction xs as [|x xs IH]; intros out Hout.
  - injection Hout as <-. split.
    + intros H. by apply elem_of_nil in H.
    + intros (x & ys & H & _). by apply elem_of_nil in H.
  - apply for_yield_cons_inv in Hout as (ys & zs & Hx & Hxs & ->).
    rewrite elem_of_app, (IH _ Hxs). split.
    + intros [Hz|(x' & ys' & Hin & Hb & Hz)].
      * exists x, ys. split; [left|done].
      * exists x', ys'. split; [by right|done].
    + intros (x' & ys' & Hin & Hb & Hz).
      apply elem_of_cons in Hin as [->|Hin].
      * left. congruence.
      * right. eauto.
Qed.

(** A loop whose body yields nothing yields nothing. *)
Lemma for_yield_nil (xs : list A) (body : A -> result (list B)) :
  (forall x, x ∈ xs -> body x = Ok []) -> for_yield xs body = Ok [].
Proof.
  induction xs as [|x xs IH]; intros Hbody; [done|].
  rewrite (for_yield_cons x xs body [] []); [done| |].
  - apply Hbody. left.
  - apply IH. intros y Hy. apply Hbody. by right.
Qed.

End Loops.

Section Ranges.

Lemma py_range_ok (start stop step : Z) :
  step <> 0 -> py_range start stop step = Ok (range_items start stop step).
Proof. intros H. unfold py_range. by apply Z.eqb_neq in H as ->. Qed.

Lemma py_range_zero_step (start stop : Z) :
  py_range start stop 0 = Raise ValueError.
Proof. done. Qed.

(** The items of a range with a positive step lie on the grid from [start],
    below [stop]. *)
Lemma elem_of_range_items (start stop step : Z) (j : Z) :
  0 < step ->
  j ∈ range_items start stop step <->
  start <= j < stop /\ (j - start) mod step = 0.
Proof.
  intros Hstep. unfold range_items. rewrite list_elem_of_fmap.
  unfold range_len.
  destruct (0 <? step) eqn:E1; [|apply Z.ltb_ge in E1; lia].
  setoid_rewrite elem_of_seq.
  destruct (start <? stop) eqn:E2.
  - apply Z.ltb_lt in E2.
    set (n := (stop - start + step - 1) / step).
    assert (Hn1 : n * step <= stop - start + step - 1).
    { unfold n. rewrite Z.mul_comm. apply Z.mul_div_le. lia. }
    assert (Hn2 : stop - start + step - 1 < (n + 1) * step).
    { unfold n. pose proof (Z.mul_succ_div_gt (stop - start + step - 1) step).
      lia. }
    assert (Hn0 : 0 <= n) by (apply Z.div_pos; lia).
    split.
    + intros (k & -> & Hk). split; [nia|].
      replace (start + Z.of_nat k * step - start) with (Z.of_nat k * step)
        by lia.
      apply Z.mod_mul. lia.
    + intros [[Hlo Hhi] Hmod].
      apply Z.mod_divide in Hmod as [q Hq]; [|lia].
      assert (0 <= q) by nia.
      exists (Z.to_nat q). split; [lia|]. nia.
  - apply Z.ltb_ge in E2. split.
    + intros (k & _ & Hk). simpl in Hk. lia.
    + intros [[Hlo Hhi] _]. lia.
Qed.

(** A range with a negative step from below its stop is empty. *)
Lemma range_items_negative_step (start stop step : Z) :
  step < 0 -> start <= stop -> range_items start stop step = [].
Proof.
  intros Hstep Hle. unfold range_items, range_len.
  destruct (0 <? step) eqn:E1; [apply Z.ltb_lt in E1; lia|].
  destruct (stop <? start) eqn:E2; [apply Z.ltb_lt in E2; lia|].
  done.
Qed.

End Ranges.

(** ** The search loops *)

Section Search.

Lemma for_yield_pure {A B : Type} (xs : list A) (g : A -> list B) :
  for_yield xs (fun x => Ok (g x)) = Ok (xs ≫= g).
Proof.
  induction xs as [|x xs IH]; [done|].
  by rewrite (for_yield_cons x xs _ (g x) (xs ≫= g)).
Qed.

Lemma for_yield_ext {A B : Type} (xs : list A)
    (f g : A -> result (list B)) :
  (forall x, x ∈ xs -> f x = g x) -> for_yield xs f = for_yield xs g.
Proof.
  induction xs as [|x xs IH]; intros Hfg; [done|]. simpl.
  rewrite (Hfg x) by left. rewrite IH; [done|].
  intros y Hy. apply Hfg. by right.
Qed.

Lemma origins_eq (a b : Img) (size : Z) :
  size <> 0 ->
  Tileset.origins a b size =
  Ok (j ← range_items (size - height b) (height a) size;
      i ← range_items (size - width b) (width a) size;
      [(j, i)]).
Proof.
  intros Hsize. unfold Tileset.origins. rewrite !py_range_ok by done.
  simpl. etrans; [|apply for_yield_pure].
  apply for_yield_ext. intros j _. apply for_yield_pure.
Qed.

Lemma origins_zero (a b : Img) : Tileset.origins a b 0 = Raise ValueError.
Proof. done. Qed.

Lemma visited_iff (a b : Img) (size j i : Z) :
  size <> 0 ->
  Tileset.visited a b size j i <->
  j ∈ range_items (size - height b) (height a) size /\
  i ∈ range_items (size - width b) (width a) size.
Proof.
  intros Hsize. unfold Tileset.visited. rewrite origins_eq by done. split.
  - intros (os & [= <-] & Hin).
    apply list_elem_of_bind in Hin as (j' & Hin & Hj).
    apply list_elem_of_bind in Hin as (i' & Hin & Hi).
    apply list_elem_of_singleton in Hin as [= -> ->]. done.
  - intros [Hj Hi]. eexists. split; [done|].
    apply list_elem_of_bind. exists j. split; [|done].
    apply list_elem_of_bind. exists i. split; [|done].
    by apply list_elem_of_singleton.
Qed.

Lemma visited_nonzero (a b : Img) (size j i : Z) :
  Tileset.visited a b size j i -> size <> 0.
Proof. intros (os & Hos & _) ->. by rewrite origins_zero in Hos. Qed.

(** With a positive stride the visited origins are the grid points from
    [size - sh] below [th], and from [size - sw] below [tw]. *)
Lemma visited_grid (a b : Img) (size j i : Z) :
  0 < size ->
  Tileset.visited a b size j i <->
  (size - height b <= j < height a /\ (j - (size - height b)) mod size = 0) /\
  (size - width b <= i < width a /\ (i - (size - width b)) mod size = 0).
Proof.
  intros Hsize. rewrite visited_iff by lia.
  by rewrite !elem_of_range_items.
Qed.

Lemma height_nonneg (a : Img) : 0 <= height a.
Proof. unfold height. lia. Qed.

Lemma width_nonneg (a : Img) : 0 <= width a.
Proof. unfold width. destruct a; lia. Qed.

(** With a negative stride no origin is visited. *)
Lemma origins_negative (a b : Img) (size : Z) :
  size < 0 -> Tileset.origins a b size = Ok [].
Proof.
  intros Hsize. rewrite origins_eq by lia.
  pose proof (height_nonneg a). pose proof (height_nonneg b).
  by rewrite (range_items_negative_step (size - height b)) by lia.
Qed.

(** The confidence computed from a raw score above the threshold. *)
Lemma confidence_value (raw threshold : Q) :
  (threshold < raw)%Q -> (raw <= 1)%Q ->
  float_div (float_sub raw threshold) (float_sub 1 threshold) =
  Ok (Qred ((raw - threshold) / (1 - threshold))).
Proof.
  intros Hlt Hle. rewrite float_div_ok.
  - f_equal. apply Qred_complete. by rewrite !float_sub_eq.
  - rewrite float_sub_eq. lra.
Qed.

(** What the loop body yields at an origin: nothing when the raw score is
    at most the threshold, one tile when it is above. *)
Lemma search_at_cases (a b : Img) (threshold : Q) (j i : Z) :
  exists raw,
    Tileset.score_at a b (count_nonzero (alpha_mask b)) j i = Ok raw /\
    (0 <= raw <= 1)%Q /\
    Tileset.search_at a b threshold (count_nonzero (alpha_mask b)) j i =
    Ok (if float_gt raw threshold
        then [(Tileset.regions_at a b (j, i),
               Qred ((raw - threshold) / (1 - threshold)))]
        else []).
Proof.
  destruct (score_at_value a b j i) as (raw & Hraw & _ & _ & Hb).
  exists raw. split; [done|]. split; [done|].
  unfold Tileset.search_at. rewrite Hraw. simpl.
  destruct (float_gt raw threshold) eqn:E; [|done].
  apply float_gt_true in E. rewrite confidence_value by tauto. done.
Qed.

Lemma search_eq (self : Tileset.t) (single : Single.t) (threshold : Q)
    (size : Z) :
  size <> 0 ->
  Tileset.search self single threshold size =
  for_yield
    (range_items (size - height (Single.cv2 single))
                 (height (Tileset.cv2 self)) size)
    (fun j =>
       for_yield
         (range_items (size - width (Single.cv2 single))
                      (width (Tileset.cv2 self)) size)
         (fun i =>
            Tileset.search_at (Tileset.cv2 self) (Single.cv2 single) threshold
              (count_nonzero (alpha_mask (Single.cv2 single))) j i)).
Proof.
  intros Hsize. unfold Tileset.search. by rewrite !py_range_ok.
Qed.

Lemma search_zero (self : Tileset.t) (single : Single.t) (threshold : Q) :
  Tileset.search self single threshold 0 = Raise ValueError.
Proof. done. Qed.

(** A search with a non-zero stride returns: no division by zero, and no
    other exception, is raised. *)
Lemma search_total (self : Tileset.t) (single : Single.t) (threshold : Q)
    (size : Z) :
  size <> 0 -> exists tiles, Tileset.search self single threshold size = Ok tiles.
Proof.
  intros Hsize. rewrite search_eq by done.
  apply for_yield_total. intros j _. apply for_yield_total. intros i _.
  destruct (search_at_cases (Tileset.cv2 self) (Single.cv2 single)
              threshold j i) as (raw & _ & _ & ->).
  by eexists.
Qed.

(** The tiles of a search are the tiles yielded at the visited origins. *)
Lemma elem_of_search (self : Tileset.t) (single : Single.t) (threshold : Q)
    (size : Z) (tiles : list Tile) (tile : Tile) :
  Tileset.search self single threshold size = Ok tiles ->
  tile ∈ tiles <->
  exists j i ys,
    Tileset.visited (Tileset.cv2 self) (Single.cv2 single) size j i /\
    Tileset.search_at (Tileset.cv2 self) (Single.cv2 single) threshold
      (count_nonzero (alpha_mask (Single.cv2 single))) j i = Ok ys /\
    tile ∈ ys.
Proof.
  intros Hs.
  assert (Hsize : size <> 0).
  { intros ->. by rewrite search_zero in Hs. }
  rewrite search_eq in Hs by done.
  rewrite (elem_of_for_yield _ _ _ _ Hs). split.
  - intros (j & row & Hj & Hrow & Hin).
    apply (elem_of_for_yield _ _ _ _ Hrow) in Hin as (i & ys & Hi & Hys & Hin).
    exists j, i, ys. by rewrite visited_iff.
  - intros (j & i & ys & Hv & Hys & Hin).
    apply visited_iff in Hv as [Hj Hi]; [|done].
    destruct (for_yield_total
      (range_items (size - width (Single.cv2 single))
                   (width (Tileset.cv2 self)) size)
      (fun i => Tileset.search_at (Tileset.cv2 self) (Single.cv2 single)
                  threshold (count_nonzero (alpha_mask (Single.cv2 single)))
                  j i)) as [row Hrow].
    { intros i' _.
      destruct (search_at_cases (Tileset.cv2 self) (Single.cv2 single)
                  threshold j i') as (raw & _ & _ & ->). by eexists. }
    exists j, row. split; [done|]. split; [done|].
    apply (elem_of_for_yield _ _ _ _ Hrow). eauto.
Qed.

End Search.

(** ** Shapes of the windows *)

Section Shapes.

Lemma length_py_slice {A : Type} (lo hi : Z) (l : list A) :
  0 <= lo <= hi -> hi <= Z.of_nat (length l) ->
  Z.of_nat (length (py_slice lo hi l)) = hi - lo.
Proof.
  intros Hlo Hhi. unfold py_slice, slice_bound.
  destruct (lo <? 0) eqn:E1; [apply Z.ltb_lt in E1; lia|].
  destruct (hi <? 0) eqn:E2; [apply Z.ltb_lt in E2; lia|].
  rewrite length_take, length_drop. lia.
Qed.

Lemma Forall_py_slice {A : Type} (P : A -> Prop) (lo hi : Z) (l : list A) :
  Forall P l -> Forall P (py_slice lo hi l).
Proof. intros H. unfold py_slice. by apply Forall_take, Forall_drop. Qed.

(** A window cut inside a rectangular image has the shape of its bounds. *)
Lemma crop_shape (a : Img) (y0 y1 x0 x1 : Z) :
  rectangular a ->
  0 <= y0 < y1 -> y1 <= height a ->
  0 <= x0 <= x1 -> x1 <= width a ->
  height (crop y0 y1 x0 x1 a) = y1 - y0 /\
  width (crop y0 y1 x0 x1 a) = x1 - x0 /\
  rectangular (crop y0 y1 x0 x1 a).
Proof.
  intros Hrect Hy0 Hy1 Hx0 Hx1.
  assert (Hrows : Forall (fun row : list Pixel =>
                    Z.of_nat (length row) = x1 - x0)
                    (crop y0 y1 x0 x1 a)).
  { unfold crop. apply Forall_fmap. apply Forall_py_slice.
    eapply Forall_impl; [exact Hrect|]. intros row Hrow. cbn beta in *.
    apply length_py_slice; lia. }
  assert (Hh : height (crop y0 y1 x0 x1 a) = y1 - y0).
  { unfold height, crop. rewrite length_fmap.
    apply length_py_slice; [lia|done]. }
  assert (Hw : width (crop y0 y1 x0 x1 a) = x1 - x0).
  { unfold height in Hh. destruct (crop y0 y1 x0 x1 a) as [|row rows].
    - simpl in Hh. lia.
    - by apply Forall_cons in Hrows as [Hrow _]. }
  split; [done|]. split; [done|].
  unfold rectangular. by rewrite Hw.
Qed.

(** The two regions built at an origin have the same width and height. *)
Lemma regions_same_size (th tw sh sw j i : Z) :
  region_width (Tileset.region_of (Tileset.t_bounds th tw sh sw j i)) =
  region_width (Tileset.region_of (Tileset.s_bounds th tw sh sw j i)) /\
  region_height (Tileset.region_of (Tileset.t_bounds th tw sh sw j i)) =
  region_height (Tileset.region_of (Tileset.s_bounds th tw sh sw j i)).
Proof. unfold region_width, region_height. simpl. lia. Qed.

(** The candidates are the region pairs of the visited origins. *)
Lemma elem_of_candidates (a b : Img) (size : Z) (cs : list (Region * Region))
    (c : Region * Region) :
  Tileset.candidates a b size = Ok cs ->
  c ∈ cs <->
  exists j i, Tileset.visited a b size j i /\ c = Tileset.regions_at a b (j, i).
Proof.
  unfold Tileset.candidates, Tileset.visited.
  destruct (Tileset.origins a b size) as [os|e]; [|done]. simpl.
  intros [= <-]. rewrite list_elem_of_fmap. split.
  - intros ([j i] & -> & Hin). exists j, i. split; [|done]. eauto.
  - intros (j & i & (os' & [= <-] & Hin) & ->). by exists (j, i).
Qed.

End Shapes.

(** ** Match search *)

Section MatchSearch.

Import Examples.

(** C2. For a single with no fully opaque pixel the scorer returns exactly
    0.0 for any pair of windows, through the branch that does not divide;
    and a search for such a single, with a threshold that is not negative,
    returns no tile, whatever the tileset. *)
Theorem transparent_single_never_matches
    (self : Tileset.t) (single : Single.t) (threshold : Q) (size : Z) :
  opaque_count (Single.cv2 single) = 0 ->
  (0 <= threshold)%Q ->
  size <> 0 ->
  (forall s_window t_window : Img,
     Tileset.__compute_score s_window t_window
       (count_nonzero (alpha_mask (Single.cv2 single))) = Ok 0%Q) /\
  Tileset.search self single threshold size = Ok [].
Proof.
  intros Hzero Hthr Hsize. rewrite <- count_alpha_mask_positions in Hzero.
  rewrite search_eq by done. rewrite Hzero. split; [done|].
  apply for_yield_nil. intros j _. apply for_yield_nil. intros i _.
  unfold Tileset.search_at, Tileset.score_at. simpl.
  by apply float_gt_false in Hthr as ->.
Qed.

Lemma transparent_single_never_matches_witness :
  Tileset.search (tileset_of atlas_ghost) (single_of ghost)
    SIMILARITY TILE_SIZE = Ok [].
Proof.
  apply (transparent_single_never_matches
           (tileset_of atlas_ghost) (single_of ghost) SIMILARITY TILE_SIZE).
  - vm_compute. reflexivity.
  - unfold SIMILARITY, Qle. simpl. lia.
  - unfold TILE_SIZE. lia.
Defined.

(** C3. A search yields a tile for a visited window exactly when the raw
    score of the window is strictly above the threshold; the tile carries
    the two regions of the window and the confidence
    (raw - threshold) / (1 - threshold); every confidence yielded is above
    0 and at most 1 (for the default threshold 0.9 as for any other). *)
Theorem search_yields_above_threshold
    (self : Tileset.t) (single : Single.t) (threshold : Q) (size : Z)
    (tiles : list Tile) :
  Tileset.search self single threshold size = Ok tiles ->
  (forall tile : Tile,
     tile ∈ tiles <->
     exists j i raw,
       Tileset.visited (Tileset.cv2 self) (Single.cv2 single) size j i /\
       Tileset.score_at (Tileset.cv2 self) (Single.cv2 single)
         (count_nonzero (alpha_mask (Single.cv2 single))) j i = Ok raw /\
       (threshold < raw)%Q /\
       tile = (Tileset.regions_at (Tileset.cv2 self) (Single.cv2 single) (j, i),
               Qred ((raw - threshold) / (1 - threshold)))) /\
  (forall tile : Tile, tile ∈ tiles -> (0 < tile.2 <= 1)%Q).
Proof.
  intros Hs.
  assert (Hiff : forall tile : Tile,
     tile ∈ tiles <->
     exists j i raw,
       Tileset.visited (Tileset.cv2 self) (Single.cv2 single) size j i /\
       Tileset.score_at (Tileset.cv2 self) (Single.cv2 single)
         (count_nonzero (alpha_mask (Single.cv2 single))) j i = Ok raw /\
       ((0 <= raw <= 1)%Q /\ (threshold < raw)%Q) /\
       tile = (Tileset.regions_at (Tileset.cv2 self) (Single.cv2 single) (j, i),
               Qred ((raw - threshold) / (1 - threshold)))).
  { intros tile. rewrite (elem_of_search _ _ _ _ _ _ Hs). split.
    - intros (j & i & ys & Hv & Hys & Hin).
      destruct (search_at_cases (Tileset.cv2 self) (Single.cv2 single)
                  threshold j i) as (raw & Hraw & Hb & Hat).
      rewrite Hat in Hys. injection Hys as <-.
      destruct (float_gt raw threshold) eqn:E.
      + apply float_gt_true in E. apply list_elem_of_singleton in Hin.
        by exists j, i, raw.
      + by apply elem_of_nil in Hin.
    - intros (j & i & raw & Hv & Hraw & [_ Hlt] & ->).
      destruct (search_at_cases (Tileset.cv2 self) (Single.cv2 single)
                  threshold j i) as (raw' & Hraw' & _ & Hat).
      assert (raw' = raw) as -> by congruence.
      apply float_gt_true in Hlt. rewrite Hlt in Hat.
      exists j, i. eexists. split; [done|]. split; [exact Hat|].
      by apply list_elem_of_singleton. }
  split.
  - intros tile. rewrite Hiff. split.
    + intros (j & i & raw & Hv & Hraw & [_ Hlt] & ->). by exists j, i, raw.
    + intros (j & i & raw & Hv & Hraw & Hlt & ->). exists j, i, raw.
      split; [done|]. split; [done|]. split; [|done]. split; [|done].
      destruct (score_at_value (Tileset.cv2 self) (Single.cv2 single) j i)
        as (raw' & Hraw' & _ & _ & Hb).
      by assert (raw' = raw) as -> by congruence.
  - intros tile Hin. apply Hiff in Hin as (j & i & raw & _ & _ & [Hb Hlt] & ->).
    simpl. rewrite Qred_correct. apply confidence_bounds; tauto.
Qed.

Lemma search_yields_above_threshold_witness :
  Tileset.search (tileset_of atlas) (single_of sprite) SIMILARITY TILE_SIZE =
    Ok [found_tile] /\
  (forall tile : Tile, tile ∈ [found_tile] -> (0 < tile.2 <= 1)%Q).
Proof.
  assert (Hs : Tileset.search (tileset_of atlas) (single_of sprite)
                 SIMILARITY TILE_SIZE = Ok [found_tile])
    by (vm_compute; reflexivity).
  split; [exact Hs|].
  apply (search_yields_above_threshold
           (tileset_of atlas) (single_of sprite) SIMILARITY TILE_SIZE
           [found_tile] Hs).
Defined.

(** C4. For every tileset buffer, single buffer and stride, every candidate
    produced by the window enumeration (the origin may be negative, the
    window may reach past the tileset, the single may be larger than the
    tileset) has a clipped tileset region and a clipped single region of
    exactly the same width and the same height. *)
Theorem candidate_regions_same_size
    (self_cv2 single_cv2 : Img) (size : Z) (cs : list (Region * Region)) :
  Tileset.candidates self_cv2 single_cv2 size = Ok cs ->
  forall t_region s_region : Region,
    (t_region, s_region) ∈ cs ->
    region_width t_region = region_width s_region /\
    region_height t_region = region_height s_region.
Proof.
  intros Hcs t_region s_region Hin.
  apply (elem_of_candidates _ _ _ _ _ Hcs) in Hin as (j & i & _ & [= -> ->]).
  apply regions_same_size.
Qed.

Lemma candidate_regions_same_size_witness :
  Tileset.candidates (solid 16 16 red) (solid 20 20 red) TILE_SIZE =
    Ok [((0, 0, 16, 16), (4, 4, 16, 16)); ((12, 0, 4, 16), (0, 4, 4, 16));
        ((0, 12, 16, 4), (4, 0, 16, 4)); ((12, 12, 4, 4), (0, 0, 4, 4))] /\
  region_width (12, 0, 4, 16) = region_width (0, 4, 4, 16) /\
  region_height (12, 0, 4, 16) = region_height (0, 4, 4, 16).
Proof.
  assert (Hc : Tileset.candidates (solid 16 16 red) (solid 20 20 red)
                 TILE_SIZE =
               Ok [((0, 0, 16, 16), (4, 4, 16, 16));
                   ((12, 0, 4, 16), (0, 4, 4, 16));
                   ((0, 12, 16, 4), (4, 0, 16, 4));
                   ((12, 12, 4, 4), (0, 0, 4, 4))])
    by (vm_compute; reflexivity).
  split; [exact Hc|].
  apply (candidate_regions_same_size _ _ _ _ Hc).
  apply elem_of_cons. right. apply elem_of_cons. by left.
Defined.

End MatchSearch.

(** ** The window enumeration *)

Section Enumeration.

Import Examples.

Lemma range_len_nonneg (start stop step : Z) :
  0 < step -> 0 <= range_len start stop step.
Proof.
  intros Hstep. unfold range_len.
  destruct (0 <? step) eqn:E; [|apply Z.ltb_ge in E; lia].
  destruct (start <? stop) eqn:E2; [|lia].
  apply Z.ltb_lt in E2. apply Z.div_pos; lia.
Qed.

Lemma range_len_pos (start stop step : Z) :
  0 < step -> 0 < range_len start stop step <-> start < stop.
Proof.
  intros Hstep. unfold range_len.
  destruct (0 <? step) eqn:E; [|apply Z.ltb_ge in E; lia].
  destruct (start <? stop) eqn:E2.
  - apply Z.ltb_lt in E2. split; [done|]. intros _.
    apply Z.div_str_pos. lia.
  - apply Z.ltb_ge in E2. lia.
Qed.

Lemma length_range_items (start stop step : Z) :
  0 < step ->
  Z.of_nat (length (range_items start stop step)) = range_len start stop step.
Proof.
  intros Hstep. unfold range_items. rewrite length_map, length_seq.
  pose proof (range_len_nonneg start stop step Hstep). lia.
Qed.

Lemma length_bind_const {A B : Type} (f : A -> list B) (n : nat)
    (l : list A) :
  (forall x, length (f x) = n) -> length (l ≫= f) = (length l * n)%nat.
Proof.
  intros Hf. induction l as [|x l IH]; [done|].
  rewrite bind_cons, length_app, Hf, IH. simpl. lia.
Qed.

(** The number of origins visited with a positive stride. *)
Lemma length_origins (a b : Img) (size : Z) :
  0 < size ->
  exists os,
    Tileset.origins a b size = Ok os /\
    Z.of_nat (length os) =
    range_len (size - height b) (height a) size *
    range_len (size - width b) (width a) size.
Proof.
  intros Hsize. rewrite origins_eq by lia. eexists. split; [done|].
  rewrite (length_bind_const _
             (length (range_items (size - width b) (width a) size))).
  - rewrite Nat2Z.inj_mul, !length_range_items by done. done.
  - intros j. by rewrite (length_bind_const _ 1%nat), Nat.mul_1_r.
Qed.

(** C8, as the code has it. For every tileset and single and every positive
    stride the window enumeration is finite: it returns a list, whose
    length is the product of the lengths of the two ranges. It produces at
    least one candidate exactly when the stride is smaller than the sum of
    the two heights and smaller than the sum of the two widths; so it does
    whenever the tileset is at least one stride high and wide and the
    single is not empty. *)
Theorem candidates_finite_and_nonempty
    (self_cv2 single_cv2 : Img) (size : Z) :
  0 < size ->
  exists cs,
    Tileset.candidates self_cv2 single_cv2 size = Ok cs /\
    Z.of_nat (length cs) =
      range_len (size - height single_cv2) (height self_cv2) size *
      range_len (size - width single_cv2) (width self_cv2) size /\
    (cs <> [] <->
     size < height self_cv2 + height single_cv2 /\
     size < width self_cv2 + width single_cv2) /\
    (size <= height self_cv2 -> size <= width self_cv2 ->
     0 < height single_cv2 -> 0 < width single_cv2 -> cs <> []).
Proof.
  intros Hsize.
  destruct (length_origins self_cv2 single_cv2 size Hsize) as (os & Hos & Hlen).
  unfold Tileset.candidates. rewrite Hos. simpl. eexists. split; [done|].
  rewrite length_map.
  pose proof (range_len_nonneg (size - height single_cv2) (height self_cv2)
                size Hsize) as Hj.
  pose proof (range_len_nonneg (size - width single_cv2) (width self_cv2)
                size Hsize) as Hi.
  pose proof (range_len_pos (size - height single_cv2) (height self_cv2)
                size Hsize) as Hj'.
  pose proof (range_len_pos (size - width single_cv2) (width self_cv2)
                size Hsize) as Hi'.
  assert (Hne : map (Tileset.regions_at self_cv2 single_cv2) os <> [] <->
                size < height self_cv2 + height single_cv2 /\
                size < width self_cv2 + width single_cv2).
  { split.
    - intros Hne. destruct os as [|o os]; [done|]. simpl in Hlen.
      assert (0 < range_len (size - height single_cv2) (height self_cv2) size
              /\ 0 < range_len (size - width single_cv2) (width self_cv2) size)
        by nia.
      lia.
    - intros [H1 H2]. destruct os as [|o os]; [|done]. simpl in Hlen.
      assert (0 < range_len (size - height single_cv2) (height self_cv2) size)
        by (apply Hj'; lia).
      assert (0 < range_len (size - width single_cv2) (width self_cv2) size)
        by (apply Hi'; lia).
      nia. }
  split; [done|]. split; [done|].
  intros H1 H2 H3 H4. apply Hne. lia.
Qed.

Lemma candidates_finite_and_nonempty_witness :
  exists cs,
    Tileset.candidates atlas sprite TILE_SIZE = Ok cs /\
    Z.of_nat (length cs) =
      range_len (TILE_SIZE - height sprite) (height atlas) TILE_SIZE *
      range_len (TILE_SIZE - width sprite) (width atlas) TILE_SIZE /\
    (cs <> [] <->
     TILE_SIZE < height atlas + height sprite /\
     TILE_SIZE < width atlas + width sprite) /\
    (TILE_SIZE <= height atlas -> TILE_SIZE <= width atlas ->
     0 < height sprite -> 0 < width sprite -> cs <> []).
Proof.
  apply (candidates_finite_and_nonempty atlas sprite TILE_SIZE).
  unfold TILE_SIZE. lia.
Defined.

(** C8, as stated, fails: an 8 by 8 tileset and a single of one pixel have
    positive dimensions, the single is smaller than the tileset, and the
    enumeration with the default stride 16 is empty. *)
Lemma candidates_empty_for_small_images :
  0 < height small_atlas /\ 0 < width small_atlas /\
  0 < height dot /\ 0 < width dot /\
  height dot < height small_atlas /\ width dot < width small_atlas /\
  Tileset.candidates small_atlas dot TILE_SIZE = Ok [].
Proof. vm_compute. repeat split. Qed.

(** C10. With images of positive dimensions, every window visited by the
    enumeration lies inside its buffer and is not empty: the clipped
    tileset region lies within the tileset, the clipped single region within
    the single, both have positive width and height, and the two windows
    cut for scoring have exactly the shape of their regions. *)
Theorem windows_inside_buffers
    (self_cv2 single_cv2 : Img) (size j i : Z) :
  rectangular self_cv2 -> rectangular single_cv2 ->
  0 < height self_cv2 -> 0 < width self_cv2 ->
  0 < height single_cv2 -> 0 < width single_cv2 ->
  Tileset.visited self_cv2 single_cv2 size j i ->
  let th := height self_cv2 in
  let tw := width self_cv2 in
  let sh := height single_cv2 in
  let sw := width single_cv2 in
  let t_region := Tileset.region_of (Tileset.t_bounds th tw sh sw j i) in
  let s_region := Tileset.region_of (Tileset.s_bounds th tw sh sw j i) in
  let t := Tileset.crop_bounds (Tileset.t_bounds th tw sh sw j i) self_cv2 in
  let s := Tileset.crop_bounds (Tileset.s_bounds th tw sh sw j i) single_cv2 in
  in_bounds t_region self_cv2 /\ in_bounds s_region single_cv2 /\
  0 < region_width t_region /\ 0 < region_height t_region /\
  0 < region_width s_region /\ 0 < region_height s_region /\
  (height t = region_height t_region /\ width t = region_width t_region /\
   rectangular t) /\
  (height s = region_height s_region /\ width s = region_width s_region /\
   rectangular s).
Proof.
  intros Hrt Hrs Hth Htw Hsh Hsw Hv th tw sh sw t_region s_region t s.
  assert (Hsize : 0 < size).
  { pose proof (visited_nonzero _ _ _ _ _ Hv) as Hnz.
    destruct (Z.lt_trichotomy size 0) as [Hneg|[->|Hpos]]; [|done|done].
    destruct Hv as (os & Hos & Hin).
    rewrite origins_negative in Hos by done. injection Hos as <-.
    by apply elem_of_nil in Hin. }
  apply visited_grid in Hv as [[Hj _] [Hi _]]; [|done].
  fold th sh in Hj. fold tw sw in Hi.
  subst t_region s_region t s.
  unfold in_bounds, region_x, region_y, region_width, region_height,
    Tileset.region_of, Tileset.t_bounds, Tileset.s_bounds,
    Tileset.crop_bounds. cbn [fst snd].
  repeat match goal with |- _ /\ _ => split end; try lia.
  - apply crop_shape; try done; lia.
  - apply crop_shape; try done; lia.
  - apply crop_shape; try done; lia.
  - apply crop_shape; try done; lia.
  - apply crop_shape; try done; lia.
  - apply crop_shape; try done; lia.
Qed.

End Enumeration.

(** ** Worked scenarios *)

Section Scenarios.

Import Examples.

Lemma windows_inside_buffers_witness :
  in_bounds (Tileset.region_of (Tileset.t_bounds 16 32 16 16 0 16)) atlas /\
  in_bounds (Tileset.region_of (Tileset.s_bounds 16 32 16 16 0 16)) sprite.
Proof.
  assert (Hra : rectangular atlas) by (vm_compute; repeat constructor).
  assert (Hrs : rectangular sprite) by (vm_compute; repeat constructor).
  assert (Hv : Tileset.visited atlas sprite TILE_SIZE 0 16).
  { eexists. split; [vm_compute; reflexivity|]. repeat constructor. }
  pose proof (windows_inside_buffers atlas sprite TILE_SIZE 0 16 Hra Hrs
                eq_refl eq_refl eq_refl eq_refl Hv) as H.
  split; apply H.
Defined.

Lemma compute_score_identical_witness :
  Tileset._compute_score sprite sprite = Ok 1%Q.
Proof.
  apply (compute_score_identical sprite sprite); [reflexivity|].
  vm_compute. reflexivity.
Defined.

(** C7, as stated, fails: two identical windows without an opaque pixel
    score 0.0, by the guard on a zero denominator. *)
Lemma compute_score_identical_transparent :
  Tileset._compute_score ghost ghost = Ok 0%Q /\
  Tileset._compute_score ghost ghost <> Ok 1%Q.
Proof. split; [vm_compute; reflexivity|]. vm_compute. discriminate. Qed.

Lemma py_slice_full {A : Type} (l : list A) (n : Z) :
  Z.of_nat (length l) = n -> py_slice 0 n l = l.
Proof.
  intros <-. unfold py_slice, slice_bound.
  destruct (Z.of_nat (length l) <? 0) eqn:E; [apply Z.ltb_lt in E; lia|].
  simpl. rewrite Z.min_id, Z.min_l by lia.
  rewrite Z.sub_0_r, Nat2Z.id. apply firstn_all.
Qed.

Lemma fmap_py_slice_full {A : Type} (rows : list (list A)) (w : Z) :
  Forall (fun row => Z.of_nat (length row) = w) rows ->
  py_slice 0 w <$> rows = rows.
Proof.
  induction 1 as [|row rows Hrow _ IH]; [done|].
  csimpl. by rewrite IH, py_slice_full.
Qed.

(** Cutting the whole of a rectangular image gives the image. *)
Lemma crop_full (a : Img) :
  rectangular a -> crop 0 (height a) 0 (width a) a = a.
Proof.
  intros Hrect. unfold crop. rewrite py_slice_full by done.
  by apply fmap_py_slice_full.
Qed.

(** What the loop body yields when some pixel of the single is opaque. *)
Lemma search_at_eq (a b : Img) (threshold : Q) (j i : Z) :
  let th := height a in
  let tw := width a in
  let sh := height b in
  let sw := width b in
  let t := Tileset.crop_bounds (Tileset.t_bounds th tw sh sw j i) a in
  let s := Tileset.crop_bounds (Tileset.s_bounds th tw sh sw j i) b in
  let raw := Qred (inject_Z (agree_count s t) / inject_Z (opaque_count b)) in
  opaque_count b <> 0 ->
  Tileset.search_at a b threshold (count_nonzero (alpha_mask b)) j i =
  Ok (if float_gt raw threshold
      then [(Tileset.regions_at a b (j, i),
             Qred ((raw - threshold) / (1 - threshold)))]
      else []).
Proof.
  intros th tw sh sw t s raw Hnz.
  destruct (search_at_cases a b threshold j i) as (raw' & Hraw' & _ & ->).
  destruct (score_at_value a b j i) as (raw'' & Hraw'' & _ & Hval & _).
  rewrite count_alpha_mask_positions in Hval. specialize (Hval Hnz).
  assert (raw' = raw) as ->; [|done].
  subst raw s t th tw sh sw. rewrite <- Hval. congruence.
Qed.

(** C9, as the code has it. A 32 by 16 tileset holds an exact copy of a 16
    by 16 single at the pixel offset (16, 0); the single has at least one
    fully opaque pixel, and the other block of the tileset, at (0, 0),
    agrees with the single on at most nine tenths of the single's opaque
    pixels. Then the search with threshold 0.9 and stride 16 returns exactly
    one tile, with tileset region (16, 0, 16, 16), single region
    (0, 0, 16, 16) and confidence 1.0. *)
Theorem exact_copy_found (self : Tileset.t) (single : Single.t) :
  rectangular (Single.cv2 single) ->
  height (Tileset.cv2 self) = 16 -> width (Tileset.cv2 self) = 32 ->
  height (Single.cv2 single) = 16 -> width (Single.cv2 single) = 16 ->
  crop 0 16 16 32 (Tileset.cv2 self) = Single.cv2 single ->
  0 < opaque_count (Single.cv2 single) ->
  10 * agree_count (Single.cv2 single) (crop 0 16 0 16 (Tileset.cv2 self))
    <= 9 * opaque_count (Single.cv2 single) ->
  Tileset.search self single SIMILARITY TILE_SIZE =
  Ok [((16, 0, 16, 16), (0, 0, 16, 16), 1%Q)].
Proof.
  destruct self as [tpath tid a ttiles], single as [spath sid b stilesets].
  cbn [Tileset.cv2 Single.cv2].
  intros Hrect Hth Htw Hsh Hsw Hcopy Hopaque Hother.
  assert (Hfull : crop 0 16 0 16 b = b).
  { rewrite <- Hsh at 1. rewrite <- Hsw at 1. by apply crop_full. }
  rewrite search_eq by done. cbn [Tileset.cv2 Single.cv2].
  assert (Hat0 : Tileset.search_at a b SIMILARITY
                   (count_nonzero (alpha_mask b)) 0 0 = Ok []).
  { rewrite search_at_eq by lia. unfold Tileset.regions_at.
    rewrite Hth, Htw, Hsh, Hsw.
    change (Tileset.crop_bounds (Tileset.s_bounds 16 32 16 16 0 0) b)
      with (crop 0 16 0 16 b).
    change (Tileset.crop_bounds (Tileset.t_bounds 16 32 16 16 0 0) a)
      with (crop 0 16 0 16 a).
    rewrite Hfull.
    set (raw := Qred _).
    assert (Hle : (raw <= SIMILARITY)%Q).
    { unfold raw. rewrite Qred_correct.
      apply Qle_shift_div_r.
      - change 0%Q with (inject_Z 0). by rewrite <- Zlt_Qlt.
      - unfold SIMILARITY, Qle, Qmult, inject_Z. simpl. lia. }
    by apply float_gt_false in Hle as ->. }
  assert (Hat16 : Tileset.search_at a b SIMILARITY
                    (count_nonzero (alpha_mask b)) 0 16 =
                  Ok [((16, 0, 16, 16), (0, 0, 16, 16), 1%Q)]).
  { rewrite search_at_eq by lia. unfold Tileset.regions_at.
    rewrite Hth, Htw, Hsh, Hsw.
    change (Tileset.crop_bounds (Tileset.s_bounds 16 32 16 16 0 16) b)
      with (crop 0 16 0 16 b).
    change (Tileset.crop_bounds (Tileset.t_bounds 16 32 16 16 0 16) a)
      with (crop 0 16 16 32 a).
    rewrite Hfull, Hcopy, agree_count_self, ratio_self by lia.
    done. }
  rewrite Hth, Htw, Hsh, Hsw.
  change (range_items (TILE_SIZE - 16) 16 TILE_SIZE) with [0].
  change (range_items (TILE_SIZE - 16) 32 TILE_SIZE) with [0; 16].
  cbn [for_yield]. rewrite Hat0, Hat16. done.
Qed.

Lemma exact_copy_found_witness :
  Tileset.search (tileset_of atlas) (single_of sprite) SIMILARITY TILE_SIZE =
  Ok [((16, 0, 16, 16), (0, 0, 16, 16), 1%Q)].
Proof.
  apply (exact_copy_found (tileset_of atlas) (single_of sprite)).
  - vm_compute. repeat constructor.
  - reflexivity.
  - reflexivity.
  - reflexivity.
  - reflexivity.
  - vm_compute. reflexivity.
  - vm_compute. reflexivity.
  - vm_compute. discriminate.
Defined.

(** C9, as stated, fails: a tileset that holds the single at (16, 0) and
    also at (0, 0) yields two tiles, and a tileset that holds a copy of a
    fully transparent single yields none. *)
Lemma exact_copy_not_one_tile :
  (height atlas_twice = 16 /\ width atlas_twice = 32 /\
   height sprite = 16 /\ width sprite = 16 /\
   crop 0 16 16 32 atlas_twice = sprite /\
   Tileset.search (tileset_of atlas_twice) (single_of sprite)
     SIMILARITY TILE_SIZE =
   Ok [((0, 0, 16, 16), (0, 0, 16, 16), 1%Q);
       ((16, 0, 16, 16), (0, 0, 16, 16), 1%Q)]) /\
  (height atlas_ghost = 16 /\ width atlas_ghost = 32 /\
   height ghost = 16 /\ width ghost = 16 /\
   crop 0 16 16 32 atlas_ghost = ghost /\
   Tileset.search (tileset_of atlas_ghost) (single_of ghost)
     SIMILARITY TILE_SIZE = Ok []).
Proof. vm_compute. repeat split. Qed.

End Scenarios.

(** ** Aggregation *)

Section Aggregation.

Lemma grow_nil (entry : option (list Tile)) : grow entry [] = entry.
Proof. done. Qed.

Lemma grow_app (entry : option (list Tile)) (l1 l2 : list Tile) :
  grow (grow entry l1) l2 = grow entry (l1 ++ l2).
Proof.
  destruct l1 as [|x l1]; [done|]. destruct l2 as [|y l2].
  - by rewrite app_nil_r.
  - simpl. by rewrite <- app_assoc.
Qed.

Lemma tiles_for_app (tid sid : Id) (l1 l2 : list BaseLoader.SearchResult) :
  tiles_for tid sid (l1 ++ l2) = tiles_for tid sid l1 ++ tiles_for tid sid l2.
Proof. apply bind_app. Qed.

Lemma tilesets_for_app (sid : Id) (l1 l2 : list BaseLoader.SearchResult) :
  tilesets_for sid (l1 ++ l2) = tilesets_for sid l1 ∪ tilesets_for sid l2.
Proof. unfold tilesets_for. by rewrite bind_app, list_to_set_app_L. Qed.

Lemma found_for_app (l1 l2 : list BaseLoader.SearchResult) :
  found_for (l1 ++ l2) = found_for l1 + found_for l2.
Proof. unfold found_for. rewrite bind_app, length_app. lia. Qed.

(** [add_tile] repeated over a list of tiles grows one entry. *)
Lemma foldl_add_tile (ts : Tileset.t) (sid : Id) (l : list Tile) :
  let ts' := foldl (fun ts tile => Tileset.add_tile ts sid tile) ts l in
  Tileset.path ts' = Tileset.path ts /\ Tileset.id ts' = Tileset.id ts /\
  Tileset.cv2 ts' = Tileset.cv2 ts /\
  forall k, Tileset.tiles ts' !! k =
            if decide (k = sid) then grow (Tileset.tiles ts !! sid) l
            else Tileset.tiles ts !! k.
Proof.
  revert ts. induction l as [|tile l IH]; intros ts; simpl.
  - repeat split. intros k. by case_decide; subst.
  - destruct (IH (Tileset.add_tile ts sid tile)) as (Hp & Hi & Hc & Ht).
    rewrite Hp, Hi, Hc. repeat split. intros k. rewrite Ht.
    case_decide as Hk.
    + simpl. rewrite lookup_insert_eq.
      destruct l; simpl; by rewrite <- ?app_assoc.
    + simpl. by rewrite lookup_insert_ne.
Qed.

Lemma merged_nil (st : BaseLoader.Indices) : merged st [] st.
Proof.
  split; [|split].
  - intros tid. destruct (BaseLoader.tileset_index st !! tid); by constructor.
  - intros sid. destruct (BaseLoader.single_index st !! sid);
      constructor. repeat split. unfold tilesets_for. simpl.
    by rewrite (right_id_L ∅ (∪)).
  - unfold found_for. simpl. lia.
Qed.

Lemma merged_app (st st1 st2 : BaseLoader.Indices)
    (l1 l2 : list BaseLoader.SearchResult) :
  merged st l1 st1 -> merged st1 l2 st2 -> merged st (l1 ++ l2) st2.
Proof.
  intros (Ht1 & Hs1 & Hf1) (Ht2 & Hs2 & Hf2). split; [|split].
  - intros tid. specialize (Ht1 tid). specialize (Ht2 tid).
    destruct Ht1 as [t t1 (Hp1 & Hi1 & Hc1 & Hl1)|];
      inversion Ht2 as [t1' t2 (Hp2 & Hi2 & Hc2 & Hl2)|]; subst;
      constructor.
    repeat split; try congruence.
    intros sid. by rewrite Hl2, Hl1, tiles_for_app, grow_app.
  - intros sid. specialize (Hs1 sid). specialize (Hs2 sid).
    destruct Hs1 as [s s1 (Hp1 & Hi1 & Hc1 & Hl1)|];
      inversion Hs2 as [s1' s2 (Hp2 & Hi2 & Hc2 & Hl2)|]; subst;
      constructor.
    repeat split; try congruence.
    by rewrite Hl2, Hl1, tilesets_for_app, (assoc_L (∪)).
  - rewrite Hf2, Hf1, found_for_app. lia.
Qed.

Lemma well_keyed_merged (st st' : BaseLoader.Indices)
    (results : list BaseLoader.SearchResult) :
  well_keyed st -> merged st results st' -> well_keyed st'.
Proof.
  intros [Hkt Hks] (Ht & Hs & _). split.
  - intros k t' Hk. specialize (Ht k). rewrite Hk in Ht.
    inversion Ht as [t t'' (_ & Hi & _) Heq|]; subst.
    rewrite Hi. apply Hkt. done.
  - intros k s' Hk. specialize (Hs k). rewrite Hk in Hs.
    inversion Hs as [s s'' (_ & Hi & _) Heq|]; subst.
    rewrite Hi. apply Hks. done.
Qed.

(** One iteration of the aggregation loop merges one result. *)
Lemma aggregate_step_merged (st st' : BaseLoader.Indices)
    (r : BaseLoader.SearchResult) :
  well_keyed st ->
  BaseLoader.aggregate_step st r = Ok st' ->
  merged st [r] st'.
Proof.
  intros [Hkt Hks]. destruct r as [[tid0 sid0] tiles].
  unfold BaseLoader.aggregate_step, BaseLoader.lookup_or_raise.
  destruct tiles as [|tile tiles].
  { intros [= <-]. split; [|split].
    - intros tid. destruct (BaseLoader.tileset_index st !! tid);
        constructor. repeat split. intros sid. unfold tiles_for.
      rewrite bind_singleton. simpl. by case_decide.
    - intros sid. destruct (BaseLoader.single_index st !! sid);
        constructor. repeat split. unfold tilesets_for.
      rewrite bind_singleton. simpl.
      rewrite decide_False by tauto. simpl.
      by rewrite (right_id_L ∅ (∪)).
    - unfold found_for. simpl. lia. }
  destruct (BaseLoader.tileset_index st !! tid0) as [t|] eqn:Et; [|done].
  destruct (BaseLoader.single_index st !! sid0) as [s|] eqn:Es; [|done].
  simpl. intros [= <-].
  pose proof (Hkt _ _ Et) as Hidt. pose proof (Hks _ _ Es) as Hids.
  destruct (foldl_add_tile (Tileset.add_tile t (Single.id s) tile)
              (Single.id s) tiles) as (Hp & Hi & Hc & Hl).
  split; [|split]; cbn [BaseLoader.tileset_index BaseLoader.single_index
                        BaseLoader.found].
  - intros tid. destruct (decide (tid = tid0)) as [->|Hne].
    + rewrite lookup_insert_eq, Et. constructor.
      split; [done|]. split; [done|]. split; [done|].
      intros sid. rewrite Hl. unfold tiles_for. rewrite bind_singleton.
      cbn [fst snd]. rewrite Hids.
      destruct (decide (sid = sid0)) as [->|Hs].
      * rewrite decide_True by done. simpl. rewrite lookup_insert_eq.
        destruct tiles; simpl; by rewrite <- ?app_assoc.
      * rewrite decide_False by congruence. simpl.
        by rewrite lookup_insert_ne.
    + rewrite lookup_insert_ne by done.
      destruct (BaseLoader.tileset_index st !! tid); constructor.
      repeat split. intros sid. unfold tiles_for. rewrite bind_singleton.
      cbn [fst snd]. by rewrite decide_False by congruence.
  - intros sid. unfold tilesets_for. rewrite bind_singleton. cbn [fst snd].
    destruct (decide (sid = sid0)) as [->|Hne].
    + rewrite lookup_insert_eq, Es. constructor. repeat split.
      rewrite decide_True by done. simpl. rewrite Hidt.
      rewrite (right_id_L ∅ (∪)). apply (comm_L (∪)).
    + rewrite lookup_insert_ne by done.
      destruct (BaseLoader.single_index st !! sid); constructor.
      repeat split. rewrite decide_False by (intros [? _]; congruence).
      simpl. by rewrite (right_id_L ∅ (∪)).
  - unfold found_for. rewrite bind_singleton. cbn [snd length]. lia.
Qed.

(** The aggregation loop merges its results, when it returns. *)
Lemma aggregate_merged (st st' : BaseLoader.Indices)
    (results : list BaseLoader.SearchResult) :
  well_keyed st ->
  BaseLoader.aggregate st results = Ok st' ->
  merged st results st'.
Proof.
  revert st. induction results as [|r results IH]; intros st Hk.
  - intros [= <-]. apply merged_nil.
  - simpl. destruct (BaseLoader.aggregate_step st r) as [st1|] eqn:E1; [|done].
    simpl. intros Hrest.
    pose proof (aggregate_step_merged _ _ _ Hk E1) as Hm1.
    change (r :: results) with ([r] ++ results).
    eapply merged_app; [exact Hm1|]. apply IH; [|done].
    by eapply well_keyed_merged.
Qed.

(** Merging keeps the identifiers filed in the indices. *)
Lemma known_merged (st st' : BaseLoader.Indices)
    (results : list BaseLoader.SearchResult) (r : BaseLoader.SearchResult) :
  merged st results st' -> known st r <-> known st' r.
Proof.
  intros (Ht & Hs & _). unfold known.
  specialize (Ht r.1.1). specialize (Hs r.1.2).
  destruct Ht, Hs; split; intros [?|[[? ?] [? ?]]]; eauto; done.
Qed.

Lemma aggregate_step_ok (st : BaseLoader.Indices)
    (r : BaseLoader.SearchResult) :
  (exists st', BaseLoader.aggregate_step st r = Ok st') <-> known st r.
Proof.
  destruct r as [[tid sid] tiles].
  unfold known, BaseLoader.aggregate_step, BaseLoader.lookup_or_raise.
  cbn [fst snd]. destruct tiles as [|tile tiles].
  { split; [by left|]. intros _. by eexists. }
  destruct (BaseLoader.tileset_index st !! tid) as [t|];
    destruct (BaseLoader.single_index st !! sid) as [s|]; simpl; split;
    try (intros [st' [=]]; fail);
    try (intros [[=]|[[? ?] [? ?]]]; done).
  - intros _. right. by split; eexists.
  - intros _. by eexists.
Qed.

(** The loop returns exactly when every result with tiles names objects of
    the indices. *)
Lemma aggregate_ok (st : BaseLoader.Indices)
    (results : list BaseLoader.SearchResult) :
  well_keyed st ->
  (exists st', BaseLoader.aggregate st results = Ok st') <->
  Forall (known st) results.
Proof.
  revert st. induction results as [|r results IH]; intros st Hk.
  - split; [constructor|]. intros _. by eexists.
  - simpl. rewrite Forall_cons, <- aggregate_step_ok.
    destruct (BaseLoader.aggregate_step st r) as [st1|] eqn:E1; simpl.
    + pose proof (aggregate_step_merged _ _ _ Hk E1) as Hm.
      rewrite (IH st1) by (by eapply well_keyed_merged).
      split.
      * intros H. split; [by eexists|].
        eapply Forall_impl; [exact H|]. intros r'.
        by rewrite (known_merged _ _ _ r' Hm).
      * intros [_ H]. eapply Forall_impl; [exact H|]. intros r'.
        by rewrite (known_merged _ _ _ r' Hm).
    + split; [by intros [? [=]]|]. by intros [[? [=]] _].
Qed.

(** The only exception of the loop is the [KeyError] of a lookup. *)
Lemma aggregate_raises (st : BaseLoader.Indices)
    (results : list BaseLoader.SearchResult) (e : PyErr) :
  BaseLoader.aggregate st results = Raise e -> e = KeyError.
Proof.
  revert st. induction results as [|r results IH]; intros st; [done|].
  simpl. destruct (BaseLoader.aggregate_step st r) as [st1|e1] eqn:E1; simpl.
  - apply IH.
  - intros [= <-]. destruct r as [[tid sid] [|tile tiles]]; [done|].
    unfold BaseLoader.aggregate_step, BaseLoader.lookup_or_raise in E1.
    destruct (BaseLoader.tileset_index st !! tid);
      destruct (BaseLoader.single_index st !! sid); simpl in E1; congruence.
Qed.

(** Two merges of results that report the same tiles, tilesets and count
    give the same state. *)
Lemma merged_unique (st st1 st2 : BaseLoader.Indices)
    (rs1 rs2 : list BaseLoader.SearchResult) :
  merged st rs1 st1 -> merged st rs2 st2 ->
  (forall tid sid, tiles_for tid sid rs1 = tiles_for tid sid rs2) ->
  (forall sid, tilesets_for sid rs1 = tilesets_for sid rs2) ->
  found_for rs1 = found_for rs2 ->
  st1 = st2.
Proof.
  intros (Ht1 & Hs1 & Hf1) (Ht2 & Hs2 & Hf2) Htiles Hsets Hfound.
  destruct st1 as [ti1 si1 f1], st2 as [ti2 si2 f2]. simpl in *.
  f_equal; [| |lia].
  - apply map_eq. intros tid. specialize (Ht1 tid). specialize (Ht2 tid).
    destruct Ht1 as [t t1 (Hp1 & Hi1 & Hc1 & Hl1)|];
      inversion Ht2 as [t' t2 (Hp2 & Hi2 & Hc2 & Hl2)|]; subst; [|done].
    f_equal. destruct t1, t2. simpl in *. f_equal; try congruence.
    apply map_eq. intros sid. by rewrite Hl1, Hl2, Htiles.
  - apply map_eq. intros sid. specialize (Hs1 sid). specialize (Hs2 sid).
    destruct Hs1 as [s s1 (Hp1 & Hi1 & Hc1 & Hl1)|];
      inversion Hs2 as [s' s2 (Hp2 & Hi2 & Hc2 & Hl2)|]; subst; [|done].
    f_equal. destruct s1, s2. simpl in *. f_equal; congruence.
Qed.

Lemma consistent_cons (r : BaseLoader.SearchResult)
    (results : list BaseLoader.SearchResult) :
  consistent (r :: results) -> consistent results.
Proof.
  intros H r1 r2 H1 H2. apply H; by apply elem_of_cons; right.
Qed.

Lemma consistent_perm (results results' : list BaseLoader.SearchResult) :
  results ≡ₚ results' -> consistent results -> consistent results'.
Proof.
  intros Hp H r1 r2 H1 H2. apply H; by rewrite Hp.
Qed.

(** The tiles reported for a pair do not depend on the order of the
    results. *)
Lemma tiles_for_perm (tid sid : Id)
    (results results' : list BaseLoader.SearchResult) :
  results ≡ₚ results' -> consistent results ->
  tiles_for tid sid results = tiles_for tid sid results'.
Proof.
  induction 1 as [|r l l' Hp IH|r1 r2 l|l l' l'' Hp1 IH1 Hp2 IH2];
    intros Hc.
  - done.
  - unfold tiles_for in *. rewrite !bind_cons. f_equal.
    apply IH. by eapply consistent_cons.
  - unfold tiles_for. rewrite !bind_cons, !app_assoc. f_equal.
    case_decide as H1; case_decide as H2; rewrite ?app_nil_r; try done.
    assert (r1.2 = r2.2) as ->; [|done].
    apply Hc; [| |congruence].
    + apply elem_of_cons. right. apply elem_of_cons. by left.
    + apply elem_of_cons. by left.
  - rewrite IH1 by done. apply IH2. by eapply consistent_perm.
Qed.

Lemma tilesets_for_perm (sid : Id)
    (results results' : list BaseLoader.SearchResult) :
  results ≡ₚ results' -> tilesets_for sid results = tilesets_for sid results'.
Proof. intros Hp. unfold tilesets_for. by rewrite Hp. Qed.

Lemma found_for_perm (results results' : list BaseLoader.SearchResult) :
  results ≡ₚ results' -> found_for results = found_for results'.
Proof. intros Hp. unfold found_for. by rewrite Hp. Qed.

(** The loop gives one outcome for every order of consistent results. *)
Lemma aggregate_perm (st : BaseLoader.Indices)
    (results results' : list BaseLoader.SearchResult) :
  well_keyed st -> consistent results -> results ≡ₚ results' ->
  BaseLoader.aggregate st results = BaseLoader.aggregate st results'.
Proof.
  intros Hk Hc Hp.
  destruct (BaseLoader.aggregate st results) as [st1|e1] eqn:E1;
    destruct (BaseLoader.aggregate st results') as [st2|e2] eqn:E2.
  - f_equal.
    apply (merged_unique st st1 st2 results results').
    + by apply aggregate_merged.
    + by apply aggregate_merged.
    + intros tid sid. by apply tiles_for_perm.
    + intros sid. by apply tilesets_for_perm.
    + by apply found_for_perm.
  - assert (Hok : exists st', BaseLoader.aggregate st results' = Ok st').
    { apply aggregate_ok; [done|]. rewrite <- Hp.
      apply aggregate_ok; [done|]. by eexists. }
    destruct Hok as [st' Hst']. congruence.
  - assert (Hok : exists st', BaseLoader.aggregate st results = Ok st').
    { apply aggregate_ok; [done|]. rewrite Hp.
      apply aggregate_ok; [done|]. by eexists. }
    destruct Hok as [st' Hst']. congruence.
  - apply aggregate_raises in E1, E2. congruence.
Qed.

End Aggregation.

(** ** The dispatcher *)

Section Indexing.

Context {V : Type} (key : V -> Id).

Lemma index_other (m0 : gmap Id V) (l : list V) (k : Id) :
  k ∉ key <$> l ->
  foldl (fun m image => <[ key image := image ]> m) m0 l !! k = m0 !! k.
Proof.
  revert m0. induction l as [|x l IH]; intros m0 Hk; [done|].
  csimpl in Hk. apply not_elem_of_cons in Hk as [Hne Hk].
  simpl. rewrite IH by done. by rewrite lookup_insert_ne.
Qed.

Lemma index_lookup (m0 : gmap Id V) (l : list V) (v : V) :
  NoDup (key <$> l) -> v ∈ l ->
  foldl (fun m image => <[ key image := image ]> m) m0 l !! key v = Some v.
Proof.
  revert m0. induction l as [|x l IH]; intros m0 Hnd Hin.
  - by apply elem_of_nil in Hin.
  - csimpl in Hnd. apply NoDup_cons in Hnd as [Hx Hnd].
    simpl. apply elem_of_cons in Hin as [->|Hin].
    + rewrite index_other by done.
      apply lookup_insert_eq.
    + by apply IH.
Qed.

Lemma index_lookup_inv (m0 : gmap Id V) (l : list V) (k : Id) (v : V) :
  foldl (fun m image => <[ key image := image ]> m) m0 l !! k = Some v ->
  (v ∈ l /\ key v = k) \/ m0 !! k = Some v.
Proof.
  revert m0. induction l as [|x l IH]; intros m0 Hl; [by right|].
  simpl in Hl. apply IH in Hl as [[Hin Hk]|Hl].
  - left. split; [by right|done].
  - destruct (decide (key x = k)) as [<-|Hne].
    + rewrite lookup_insert_eq in Hl. injection Hl as <-. left.
      split; [by left|done].
    + rewrite lookup_insert_ne in Hl by done. by right.
Qed.

Lemma NoDup_fmap_eq (l : list V) (x y : V) :
  NoDup (key <$> l) -> x ∈ l -> y ∈ l -> key x = key y -> x = y.
Proof.
  induction l as [|z l IH]; intros Hnd Hx Hy Hxy.
  - by apply elem_of_nil in Hx.
  - csimpl in Hnd. apply NoDup_cons in Hnd as [Hz Hnd].
    apply elem_of_cons in Hx as [->|Hx]; apply elem_of_cons in Hy as [->|Hy].
    + done.
    + exfalso. apply Hz. rewrite Hxy. by apply list_elem_of_fmap_2.
    + exfalso. apply Hz. rewrite <- Hxy. by apply list_elem_of_fmap_2.
    + by apply IH.
Qed.

End Indexing.

Section Dispatcher.

Variable keep : Tileset.t -> Single.t -> bool.

Lemma initial_indices_well_keyed (self : BaseLoader.t) :
  well_keyed (BaseLoader.initial_indices self).
Proof.
  split; intros k v Hl; simpl in Hl.
  - apply (index_lookup_inv Tileset.id) in Hl as [[_ H]|H]; [done|].
    by rewrite lookup_empty in H.
  - apply (index_lookup_inv Single.id) in Hl as [[_ H]|H]; [done|].
    by rewrite lookup_empty in H.
Qed.

Lemma elem_of_search_pairs (self : BaseLoader.t) (tileset : Tileset.t)
    (single : Single.t) :
  (tileset, single) ∈ BaseLoader._get_search_pairs keep self <->
  tileset ∈ BaseLoader.tilesets self /\ single ∈ BaseLoader.singles self /\
  keep tileset single = true.
Proof.
  unfold BaseLoader._get_search_pairs. rewrite list_elem_of_bind. split.
  - intros (t & Hin & Ht). apply list_elem_of_bind in Hin as (s & Hin & Hs).
    destruct (keep t s) eqn:E; [|by apply elem_of_nil in Hin].
    apply list_elem_of_singleton in Hin as [= -> ->]. done.
  - intros (Ht & Hs & Hk). exists tileset. split; [|done].
    apply list_elem_of_bind. exists single. split; [|done].
    rewrite Hk. by apply list_elem_of_singleton.
Qed.

Lemma NoDup_search_pairs (self : BaseLoader.t) :
  loaded self -> NoDup (BaseLoader._get_search_pairs keep self).
Proof.
  intros (Hnt & Hns & _). unfold BaseLoader._get_search_pairs.
  apply NoDup_bind.
  - intros t1 t2 [t s] _ _ H1 H2.
    apply list_elem_of_bind in H1 as (s1 & H1 & _).
    apply list_elem_of_bind in H2 as (s2 & H2 & _).
    destruct (keep t1 s1); [|by apply elem_of_nil in H1].
    destruct (keep t2 s2); [|by apply elem_of_nil in H2].
    apply list_elem_of_singleton in H1, H2. congruence.
  - intros t _. apply NoDup_bind.
    + intros s1 s2 [t' s] _ _ H1 H2.
      destruct (keep t s1); [|by apply elem_of_nil in H1].
      destruct (keep t s2); [|by apply elem_of_nil in H2].
      apply list_elem_of_singleton in H1, H2. congruence.
    + intros s _. destruct (keep t s); [apply NoDup_singleton|apply NoDup_nil_2].
    + by eapply NoDup_fmap_1.
  - by eapply NoDup_fmap_1.
Qed.

(** The worker searches with the default parameters and does not raise. *)
Lemma _search_ok (tileset : Tileset.t) (single : Single.t) :
  exists tiles,
    Tileset.search tileset single SIMILARITY TILE_SIZE = Ok tiles /\
    BaseLoader._search (tileset, single) =
    Ok (Tileset.id tileset, Single.id single, tiles).
Proof.
  destruct (search_total tileset single SIMILARITY TILE_SIZE) as [tiles Ht];
    [done|].
  exists tiles. split; [done|]. unfold BaseLoader._search. by rewrite Ht.
Qed.

Lemma mapM_ok {A B : Type} (f : A -> result B) (l : list A) (rs : list B) :
  mapM f l = Ok rs <-> Forall2 (fun x r => f x = Ok r) l rs.
Proof.
  revert rs. induction l as [|x l IH]; intros rs; simpl.
  - split.
    + intros [= <-]. constructor.
    + intros H. by inversion H.
  - destruct (f x) as [y|e] eqn:Ex; simpl.
    + destruct (mapM f l) as [k|e] eqn:El; simpl.
      * split.
        -- intros [= <-]. constructor; [done|]. by apply IH.
        -- intros H. inversion H as [|? r ? rs' Hr Hrs]; subst.
           apply IH in Hrs. rewrite Ex in Hr. by simplify_eq.
      * split; [done|]. intros H. inversion H as [|? r ? rs' Hr Hrs]; subst.
        by apply IH in Hrs.
    + split; [done|]. intros H. inversion H; congruence.
Qed.


Lemma results_keys (pairs : list (Tileset.t * Single.t))
    (rs : list BaseLoader.SearchResult) :
  mapM BaseLoader._search pairs = Ok rs -> fst <$> rs = pair_key <$> pairs.
Proof.
  rewrite mapM_ok. induction 1 as [|[t s] r pairs rs Hr _ IH]; [done|].
  csimpl. rewrite IH. f_equal.
  destruct (_search_ok t s) as (tiles & _ & Hs). rewrite Hs in Hr.
  by simplify_eq.
Qed.

Lemma elem_of_results (pairs : list (Tileset.t * Single.t))
    (rs : list BaseLoader.SearchResult) (r : BaseLoader.SearchResult) :
  mapM BaseLoader._search pairs = Ok rs ->
  r ∈ rs <-> exists p, p ∈ pairs /\ BaseLoader._search p = Ok r.
Proof.
  rewrite mapM_ok. induction 1 as [|p r' pairs rs Hr _ IH].
  - split; [by intros H%elem_of_nil|]. by intros (p & H%elem_of_nil & _).
  - rewrite elem_of_cons, IH. split.
    + intros [->|(p' & Hin & Hp')].
      * exists p. split; [by left|done].
      * exists p'. split; [by right|done].
    + intros (p' & Hin & Hp'). apply elem_of_cons in Hin as [->|Hin].
      * left. congruence.
      * right. eauto.
Qed.

Lemma NoDup_pair_keys (self : BaseLoader.t) :
  loaded self ->
  NoDup (pair_key <$> BaseLoader._get_search_pairs keep self).
Proof.
  intros Hl. apply NoDup_fmap_2_strong; [|by apply NoDup_search_pairs].
  destruct Hl as (Hnt & Hns & _).
  intros [t1 s1] [t2 s2] H1 H2 [= Ht Hs].
  apply elem_of_search_pairs in H1 as (Ht1 & Hs1 & _).
  apply elem_of_search_pairs in H2 as (Ht2 & Hs2 & _).
  f_equal.
  - by apply (NoDup_fmap_eq Tileset.id (BaseLoader.tilesets self)).
  - by apply (NoDup_fmap_eq Single.id (BaseLoader.singles self)).
Qed.

(** With one result per pair, the tiles reported for the pair of a result
    are the tiles of that result. *)
Lemma tiles_for_NoDup (rs : list BaseLoader.SearchResult) (tid sid : Id)
    (tiles : list Tile) :
  NoDup (fst <$> rs) -> (tid, sid, tiles) ∈ rs ->
  tiles_for tid sid rs = tiles.
Proof.
  induction rs as [|r rs IH]; intros Hnd Hin.
  - by apply elem_of_nil in Hin.
  - csimpl in Hnd. apply NoDup_cons in Hnd as [Hr Hnd].
    unfold tiles_for in *. rewrite bind_cons.
    apply elem_of_cons in Hin as [<-|Hin].
    + cbn [fst snd]. rewrite decide_True by done.
      replace (rs ≫= _) with (@nil Tile); [by rewrite app_nil_r|].
      symmetry. clear IH Hnd. induction rs as [|r' rs IH']; [done|].
      rewrite bind_cons. csimpl in Hr.
      apply not_elem_of_cons in Hr as [Hne Hr].
      rewrite decide_False by done. by apply IH'.
    + rewrite decide_False.
      * by apply IH.
      * intros Heq. apply Hr. rewrite Heq.
        by apply (list_elem_of_fmap_2 fst) in Hin.
Qed.

Lemma tiles_for_absent (rs : list BaseLoader.SearchResult) (tid sid : Id) :
  (tid, sid) ∉ fst <$> rs -> tiles_for tid sid rs = [].
Proof.
  induction rs as [|r rs IH]; intros Hk; [done|].
  csimpl in Hk. apply not_elem_of_cons in Hk as [Hne Hk].
  unfold tiles_for in *. rewrite bind_cons.
  rewrite decide_False by done. by apply IH.
Qed.

Lemma elem_of_tilesets_for (rs : list BaseLoader.SearchResult)
    (tid sid : Id) :
  tid ∈ tilesets_for sid rs <->
  exists tiles, (tid, sid, tiles) ∈ rs /\ tiles <> [].
Proof.
  unfold tilesets_for. rewrite elem_of_list_to_set, list_elem_of_bind. split.
  - intros ([[tid' sid'] tiles] & Hin & Hr). cbn [fst snd] in Hin.
    case_decide as Hd; [|by apply elem_of_nil in Hin].
    destruct Hd as [-> Hne]. apply list_elem_of_singleton in Hin as ->.
    by exists tiles.
  - intros (tiles & Hin & Hne). exists (tid, sid, tiles). split; [|done].
    cbn [fst snd]. rewrite decide_True by done.
    by apply list_elem_of_singleton.
Qed.

(** The results of a run arrive with one result per pair, each naming
    objects of the loader. *)
Lemma arrival_facts (self : BaseLoader.t) (arrival : list BaseLoader.SearchResult) :
  loaded self -> BaseLoader.arrival_of keep self arrival ->
  NoDup (fst <$> arrival) /\
  (forall r, r ∈ arrival <->
     exists tileset single,
       (tileset, single) ∈ BaseLoader._get_search_pairs keep self /\
       BaseLoader._search (tileset, single) = Ok r).
Proof.
  intros Hl (rs & Hrs & Hp). split.
  - rewrite <- Hp, (results_keys _ _ Hrs). by apply NoDup_pair_keys.
  - intros r. rewrite <- Hp, (elem_of_results _ _ _ Hrs). split.
    + intros ([t s] & Hin & Hr). by exists t, s.
    + intros (t & s & Hin & Hr). by exists (t, s).
Qed.

Lemma NoDup_consistent (rs : list BaseLoader.SearchResult) :
  NoDup (fst <$> rs) -> consistent rs.
Proof.
  intros Hnd [[tid1 sid1] tiles1] [[tid2 sid2] tiles2] H1 H2 [= <- <-].
  cbn [snd].
  rewrite <- (tiles_for_NoDup rs tid1 sid1 tiles1) by done.
  by rewrite (tiles_for_NoDup rs tid1 sid1 tiles2).
Qed.

Lemma _search_inv (tileset : Tileset.t) (single : Single.t)
    (r : BaseLoader.SearchResult) :
  BaseLoader._search (tileset, single) = Ok r ->
  r.1 = (Tileset.id tileset, Single.id single) /\
  Tileset.search tileset single SIMILARITY TILE_SIZE = Ok r.2.
Proof.
  destruct (_search_ok tileset single) as (tiles & Hs & Hr).
  rewrite Hr. by intros [= <-].
Qed.

Lemma loaded_tileset_index (self : BaseLoader.t) (tileset : Tileset.t) :
  loaded self -> tileset ∈ BaseLoader.tilesets self ->
  BaseLoader.tileset_index (BaseLoader.initial_indices self)
    !! Tileset.id tileset = Some tileset.
Proof.
  intros (Hnt & _) Hin. by apply (index_lookup Tileset.id).
Qed.

Lemma loaded_single_index (self : BaseLoader.t) (single : Single.t) :
  loaded self -> single ∈ BaseLoader.singles self ->
  BaseLoader.single_index (BaseLoader.initial_indices self)
    !! Single.id single = Some single.
Proof.
  intros (_ & Hns & _) Hin. by apply (index_lookup Single.id).
Qed.

Lemma tileset_index_inv (self : BaseLoader.t) (tid : Id) (t : Tileset.t) :
  BaseLoader.tileset_index (BaseLoader.initial_indices self) !! tid = Some t ->
  t ∈ BaseLoader.tilesets self /\ Tileset.id t = tid.
Proof.
  intros H. apply (index_lookup_inv Tileset.id) in H as [H|H]; [done|].
  by rewrite lookup_empty in H.
Qed.

Lemma single_index_inv (self : BaseLoader.t) (sid : Id) (s : Single.t) :
  BaseLoader.single_index (BaseLoader.initial_indices self) !! sid = Some s ->
  s ∈ BaseLoader.singles self /\ Single.id s = sid.
Proof.
  intros H. apply (index_lookup_inv Single.id) in H as [H|H]; [done|].
  by rewrite lookup_empty in H.
Qed.

(** The aggregation of a run does not raise. *)
Lemma run_aggregates (self : BaseLoader.t)
    (arrival : list BaseLoader.SearchResult) :
  loaded self -> BaseLoader.arrival_of keep self arrival ->
  exists final, BaseLoader.search self arrival = Ok final.
Proof.
  intros Hl Ha. destruct (arrival_facts self arrival Hl Ha) as [_ Hmem].
  apply aggregate_ok; [apply initial_indices_well_keyed|].
  apply Forall_forall. intros r Hr.
  apply Hmem in Hr as (t & s & Hin & Hr).
  apply _search_inv in Hr as [Hkey _].
  apply elem_of_search_pairs in Hin as (Ht & Hs & _).
  right. rewrite Hkey. cbn [fst snd].
  rewrite loaded_tileset_index, loaded_single_index by done. by split.
Qed.

(** C5. After a full run of the dispatcher on a freshly loaded collection,
    for every pair that was searched: when the search returned tiles, the
    identifier of the tileset is in the set of the single and the list the
    tileset keeps for the single is exactly the list returned; when it
    returned none, neither is changed for that pair. Nothing else is
    recorded: every list and every identifier found in the final state
    comes from the search of that very pair. *)
Theorem aggregation_records_exactly (self : BaseLoader.t)
    (arrival : list BaseLoader.SearchResult) :
  loaded self ->
  BaseLoader.arrival_of keep self arrival ->
  exists final,
    BaseLoader.search self arrival = Ok final /\
    (forall tileset single,
       (tileset, single) ∈ BaseLoader._get_search_pairs keep self ->
       exists tiles tileset' single',
         Tileset.search tileset single SIMILARITY TILE_SIZE = Ok tiles /\
         BaseLoader.tileset_index final !! Tileset.id tileset = Some tileset' /\
         BaseLoader.single_index final !! Single.id single = Some single' /\
         (tiles <> [] ->
          Tileset.id tileset ∈ Single.tilesets single' /\
          Tileset.tiles tileset' !! Single.id single = Some tiles) /\
         (tiles = [] ->
          (Tileset.id tileset ∈ Single.tilesets single' <->
           Tileset.id tileset ∈ Single.tilesets single) /\
          Tileset.tiles tileset' !! Single.id single =
          Tileset.tiles tileset !! Single.id single)) /\
    (forall tid sid tileset' tiles,
       BaseLoader.tileset_index final !! tid = Some tileset' ->
       Tileset.tiles tileset' !! sid = Some tiles ->
       exists tileset single,
         (tileset, single) ∈ BaseLoader._get_search_pairs keep self /\
         Tileset.id tileset = tid /\ Single.id single = sid /\
         tiles <> [] /\
         Tileset.search tileset single SIMILARITY TILE_SIZE = Ok tiles) /\
    (forall tid sid single',
       BaseLoader.single_index final !! sid = Some single' ->
       tid ∈ Single.tilesets single' ->
       exists tileset single tiles,
         (tileset, single) ∈ BaseLoader._get_search_pairs keep self /\
         Tileset.id tileset = tid /\ Single.id single = sid /\
         tiles <> [] /\
         Tileset.search tileset single SIMILARITY TILE_SIZE = Ok tiles).
Proof.
  intros Hl Ha.
  destruct (run_aggregates self arrival Hl Ha) as [final Hfinal].
  exists final. split; [done|].
  destruct (arrival_facts self arrival Hl Ha) as [Hnd Hmem].
  pose proof (aggregate_merged _ _ _ (initial_indices_well_keyed self) Hfinal)
    as (Ht & Hs & _).
  pose proof Hl as (_ & _ & Hfresh_t & Hfresh_s).
  rewrite Forall_forall in Hfresh_t. rewrite Forall_forall in Hfresh_s.
  split; [|split].
  - intros tileset single Hin.
    destruct (_search_ok tileset single) as (tiles & Hsearch & Hr).
    assert (Harr : (Tileset.id tileset, Single.id single, tiles) ∈ arrival).
    { apply Hmem. by exists tileset, single. }
    apply elem_of_search_pairs in Hin as (Hint & Hins & _).
    specialize (Ht (Tileset.id tileset)).
    rewrite loaded_tileset_index in Ht by done.
    inversion Ht as [t0 tileset' (_ & _ & _ & Htiles) Heq1 Heq2|]; subst.
    specialize (Hs (Single.id single)).
    rewrite loaded_single_index in Hs by done.
    inversion Hs as [s0 single' (_ & _ & _ & Hsets) Heq1' Heq2'|]; subst.
    exists tiles, tileset', single'.
    split; [done|]. split; [done|]. split; [done|].
    specialize (Htiles (Single.id single)).
    rewrite (tiles_for_NoDup _ _ _ tiles Hnd Harr) in Htiles.
    split.
    + intros Hne. split.
      * rewrite Hsets. apply elem_of_union_r, elem_of_tilesets_for. eauto.
      * rewrite Htiles, (Hfresh_t tileset Hint), lookup_empty.
        by destruct tiles.
    + intros ->. split; [|done].
      rewrite Hsets, elem_of_union, elem_of_tilesets_for. split; [|tauto].
      intros [H|(tiles' & Hin' & Hne)]; [done|].
      rewrite <- (tiles_for_NoDup _ _ _ tiles' Hnd Hin') in Hne.
      by rewrite (tiles_for_NoDup _ _ _ [] Hnd Harr) in Hne.
  - intros tid sid tileset' tiles Hlook Htl.
    specialize (Ht tid). rewrite Hlook in Ht.
    inversion Ht as [t0 t1 (_ & _ & _ & Htiles) Heq1 Heq2|]; subst.
    symmetry in Heq1. apply tileset_index_inv in Heq1 as [Hint <-].
    specialize (Htiles sid).
    rewrite Htl, (Hfresh_t t0 Hint), lookup_empty in Htiles.
    destruct (decide ((Tileset.id t0, sid) ∈ fst <$> arrival)) as [Hk|Hk].
    + apply list_elem_of_fmap in Hk as ([[tid' sid'] tiles'] & [= <- <-] & Hr).
      rewrite (tiles_for_NoDup _ _ _ tiles' Hnd Hr) in Htiles.
      destruct tiles' as [|tile tiles']; [done|].
      simpl in Htiles. injection Htiles as ->.
      apply Hmem in Hr as (tileset & single & Hin & Hr).
      apply _search_inv in Hr as [[= Hid1 Hid2] Hsearch].
      exists tileset, single. by repeat split.
    + by rewrite (tiles_for_absent _ _ _ Hk) in Htiles.
  - intros tid sid single' Hlook Hin.
    specialize (Hs sid). rewrite Hlook in Hs.
    inversion Hs as [s0 s1 (_ & _ & _ & Hsets) Heq1 Heq2|]; subst.
    symmetry in Heq1. apply single_index_inv in Heq1 as [Hins <-].
    rewrite Hsets, (Hfresh_s s0 Hins), (left_id_L ∅ (∪)) in Hin.
    apply elem_of_tilesets_for in Hin as (tiles & Hr & Hne).
    apply Hmem in Hr as (tileset & single & Hin & Hr).
    apply _search_inv in Hr as [[= Hid1 Hid2] Hsearch].
    exists tileset, single, tiles. by repeat split.
Qed.

(** Two arrival orders of one run aggregate to the same state. *)
Lemma run_order_irrelevant (self : BaseLoader.t)
    (arrival arrival' : list BaseLoader.SearchResult) :
  loaded self ->
  BaseLoader.arrival_of keep self arrival ->
  BaseLoader.arrival_of keep self arrival' ->
  BaseLoader.search self arrival = BaseLoader.search self arrival'.
Proof.
  intros Hl Ha Ha'.
  destruct (arrival_facts self arrival Hl Ha) as [Hnd _].
  destruct Ha as (rs & Hrs & Hp), Ha' as (rs' & Hrs' & Hp').
  apply aggregate_perm.
  - apply initial_indices_well_keyed.
  - by apply NoDup_consistent.
  - rewrite <- Hp, <- Hp'. by assert (rs = rs') as -> by congruence.
Qed.

End Dispatcher.

Section Commutativity.

(** C6. Aggregation does not depend on the order of the results: for every
    sequence of per-pair search results and every permutation of it, the
    loop run over either order ends in the same state, with the same set
    of tileset identifiers for every single and the same tile list, in the
    same order, for every tileset and single. *)
Theorem aggregation_order_irrelevant (self : BaseLoader.t)
    (results results' : list BaseLoader.SearchResult) :
  consistent results ->
  results ≡ₚ results' ->
  BaseLoader.search self results = BaseLoader.search self results'.
Proof.
  intros Hc Hp. apply aggregate_perm; [|done|done].
  apply initial_indices_well_keyed.
Qed.

End Commutativity.

Section DispatcherExamples.

Import Examples.

Lemma aggregation_records_exactly_witness :
  exists final, BaseLoader.search loader run_arrival = Ok final.
Proof.
  assert (Hl : loaded loader).
  { repeat split.
    - apply NoDup_singleton.
    - apply NoDup_cons. split; [|apply NoDup_singleton].
      intros H%list_elem_of_singleton. discriminate.
    - by repeat constructor.
    - by repeat constructor. }
  assert (Ha : BaseLoader.arrival_of every_pair loader run_arrival).
  { exists [("#0", "#1", [found_tile]); ("#0", "#2", [])]. split.
    - vm_compute. reflexivity.
    - apply perm_swap. }
  destruct (aggregation_records_exactly every_pair loader run_arrival Hl Ha)
    as (final & Hfinal & _).
  by exists final.
Defined.

Lemma aggregation_order_irrelevant_witness :
  BaseLoader.search loader run_arrival =
  BaseLoader.search loader [("#0", "#1", [found_tile]); ("#0", "#2", [])].
Proof.
  apply (aggregation_order_irrelevant loader).
  - apply NoDup_consistent. apply NoDup_cons. split; [|apply NoDup_singleton].
    intros H%list_elem_of_singleton. discriminate.
  - apply perm_swap.
Defined.

End DispatcherExamples.

(** * Further properties of the search *)

Section SearchBehaviour.

Import Examples.


(** X2. With a threshold of 1.0 or more a search yields no tile, even for a
    tileset that holds an exact copy of the single: the test
    [score > threshold] is strict and no score is above 1. *)
Theorem search_threshold_one_yields_nothing
    (self : Tileset.t) (single : Single.t) (threshold : Q) (size : Z) :
  (1 <= threshold)%Q -> size <> 0 ->
  Tileset.search self single threshold size = Ok [].
Proof.
  intros Hthr Hsize. rewrite search_eq by done.
  apply for_yield_nil. intros j _. apply for_yield_nil. intros i _.
  destruct (search_at_cases (Tileset.cv2 self) (Single.cv2 single)
              threshold j i) as (raw & _ & [_ Hle] & ->).
  assert (Hf : float_gt raw threshold = false).
  { apply float_gt_false. lra. }
  by rewrite Hf.
Qed.

Lemma search_threshold_one_yields_nothing_witness :
  Tileset.search (tileset_of atlas) (single_of sprite) 1 TILE_SIZE = Ok [].
Proof.
  apply (search_threshold_one_yields_nothing
           (tileset_of atlas) (single_of sprite) 1 TILE_SIZE).
  - unfold Qle. simpl. lia.
  - unfold TILE_SIZE. lia.
Defined.

(** Two loops over the same items whose iterations yield, item by item, a
    sublist (seen through [h] and [h']) yield a sublist. *)
Lemma for_yield_sublist {A B C D : Type} (h : B -> D) (h' : C -> D)
    (xs : list A) (f : A -> result (list B)) (g : A -> result (list C))
    (a : list B) (b : list C) :
  (forall x ys zs, x ∈ xs -> f x = Ok ys -> g x = Ok zs ->
                   h <$> ys `sublist_of` h' <$> zs) ->
  for_yield xs f = Ok a -> for_yield xs g = Ok b ->
  h <$> a `sublist_of` h' <$> b.
Proof.
  revert a b. induction xs as [|x xs IH]; intros a b Hfg Ha Hb.
  - injection Ha as <-. injection Hb as <-. constructor.
  - apply for_yield_cons_inv in Ha as (ys & a' & Hfx & Ha' & ->).
    apply for_yield_cons_inv in Hb as (zs & b' & Hgx & Hb' & ->).
    rewrite !fmap_app. apply sublist_app.
    + apply (Hfg x); [left|done|done].
    + apply IH; [|done|done]. intros x' ys' zs' Hin. apply Hfg. by right.
Qed.

(** X3. Raising the threshold only removes matches: the region pairs found
    with a higher threshold are, in the same order, among those found with
    a lower one. *)
Theorem search_threshold_monotone
    (self : Tileset.t) (single : Single.t) (low high : Q) (size : Z)
    (tiles_low tiles_high : list Tile) :
  (low <= high)%Q ->
  Tileset.search self single low size = Ok tiles_low ->
  Tileset.search self single high size = Ok tiles_high ->
  fst <$> tiles_high `sublist_of` fst <$> tiles_low.
Proof.
  intros Hle Hlow Hhigh.
  assert (Hsize : size <> 0).
  { intros ->. by rewrite search_zero in Hlow. }
  rewrite search_eq in Hlow, Hhigh by done.
  eapply (for_yield_sublist fst fst); [|exact Hhigh|exact Hlow].
  intros j row_high row_low _ Hrh Hrl.
  eapply (for_yield_sublist fst fst); [|exact Hrh|exact Hrl].
  intros i ys zs _ Hys Hzs.
  destruct (search_at_cases (Tileset.cv2 self) (Single.cv2 single) high j i)
    as (raw & Hraw & _ & Hat).
  destruct (search_at_cases (Tileset.cv2 self) (Single.cv2 single) low j i)
    as (raw' & Hraw' & _ & Hat').
  assert (raw' = raw) as -> by congruence.
  cbv beta in Hys, Hzs. rewrite Hat in Hys. rewrite Hat' in Hzs.
  injection Hys as <-. injection Hzs as <-.
  destruct (float_gt raw high) eqn:E; [|apply sublist_nil_l].
  apply float_gt_true in E.
  assert (Hl : float_gt raw low = true) by (apply float_gt_true; lra).
  rewrite Hl. done.
Qed.

Lemma search_threshold_monotone_witness :
  fst <$> ([] : list Tile) `sublist_of` fst <$> [found_tile].
Proof.
  apply (search_threshold_monotone (tileset_of atlas) (single_of sprite)
           SIMILARITY 1 TILE_SIZE).
  - unfold SIMILARITY, Qle. simpl. lia.
  - vm_compute. reflexivity.
  - vm_compute. reflexivity.
Defined.

(** X4. The region pairs of the tiles of a search are candidates of the
    window enumeration, in the order of the enumeration, each window at most
    once: a search never reports more tiles than there are candidates. *)
Theorem search_tiles_among_candidates
    (self : Tileset.t) (single : Single.t) (threshold : Q) (size : Z)
    (tiles : list Tile) :
  Tileset.search self single threshold size = Ok tiles ->
  exists cs,
    Tileset.candidates (Tileset.cv2 self) (Single.cv2 single) size = Ok cs /\
    fst <$> tiles `sublist_of` cs /\
    (length tiles <= length cs)%nat.
Proof.
  intros Hs.
  assert (Hsize : size <> 0).
  { intros ->. by rewrite search_zero in Hs. }
  unfold Tileset.candidates. rewrite origins_eq by done. simpl.
  eexists. split; [done|].
  assert (Hsub : fst <$> tiles `sublist_of`
            Tileset.regions_at (Tileset.cv2 self) (Single.cv2 single) <$>
              (j ← range_items (size - height (Single.cv2 single))
                               (height (Tileset.cv2 self)) size;
               i ← range_items (size - width (Single.cv2 single))
                               (width (Tileset.cv2 self)) size;
               [(j, i)])).
  { rewrite search_eq in Hs by done.
    eapply (for_yield_sublist fst
              (Tileset.regions_at (Tileset.cv2 self) (Single.cv2 single)));
      [|exact Hs|apply for_yield_pure].
    intros j row cells _ Hrow [= <-].
    eapply (for_yield_sublist fst
              (Tileset.regions_at (Tileset.cv2 self) (Single.cv2 single)));
      [|exact Hrow|apply (for_yield_pure _ (fun i => [(j, i)]))].
    intros i ys zs _ Hys [= <-].
    destruct (search_at_cases (Tileset.cv2 self) (Single.cv2 single)
                threshold j i) as (raw & _ & _ & Hat).
    cbv beta in Hys. rewrite Hat in Hys. injection Hys as <-.
    destruct (float_gt raw threshold); [done|apply sublist_nil_l]. }
  split; [exact Hsub|].
  apply sublist_length in Hsub. rewrite !length_fmap in Hsub.
  by rewrite length_map.
Qed.

Lemma search_tiles_among_candidates_witness :
  exists cs,
    Tileset.candidates atlas sprite TILE_SIZE = Ok cs /\
    fst <$> [found_tile] `sublist_of` cs /\
    (length [found_tile] <= length cs)%nat.
Proof.
  apply (search_tiles_among_candidates (tileset_of atlas) (single_of sprite)
           SIMILARITY TILE_SIZE).
  vm_compute. reflexivity.
Defined.

End SearchBehaviour.

(** * Further properties of the windows *)

Section Windows.

Import Examples.

Lemma range_len_aligned (size m : Z) :
  0 < size -> 0 <= m -> range_len 0 (size * m) size = m.
Proof.
  intros Hsize Hm. unfold range_len.
  destruct (0 <? size) eqn:E; [|apply Z.ltb_ge in E; lia].
  destruct (0 <? size * m) eqn:E2.
  - replace (size * m - 0 + size - 1) with (m * size + (size - 1)) by lia.
    rewrite Z.div_add_l by lia. rewrite Z.div_small by lia. lia.
  - apply Z.ltb_ge in E2. nia.
Qed.

(** X5. When the single is one stride square and the tileset is [m] strides
    high and [n] strides wide, the candidates are exactly the [m * n] cells
    of the grid: each window is the cell at column [col] and row [row] of
    the tileset, set against the whole single. *)
Theorem aligned_candidates_are_grid_cells
    (self_cv2 single_cv2 : Img) (size m n : Z) :
  0 < size -> 0 <= m -> 0 <= n ->
  height single_cv2 = size -> width single_cv2 = size ->
  height self_cv2 = size * m -> width self_cv2 = size * n ->
  exists cs,
    Tileset.candidates self_cv2 single_cv2 size = Ok cs /\
    Z.of_nat (length cs) = m * n /\
    forall c,
      c ∈ cs <->
      exists row col,
        0 <= row < m /\ 0 <= col < n /\
        c = ((size * col, size * row, size, size), (0, 0, size, size)).
Proof.
  intros Hsize Hm Hn Hsh Hsw Hth Htw.
  destruct (length_origins self_cv2 single_cv2 size Hsize)
    as (os & Hos & Hlen).
  assert (Hcs : Tileset.candidates self_cv2 single_cv2 size =
                Ok (map (Tileset.regions_at self_cv2 single_cv2) os)).
  { unfold Tileset.candidates. by rewrite Hos. }
  eexists. split; [exact Hcs|]. split.
  - rewrite length_map, Hlen, Hsh, Hsw, Hth, Htw, Z.sub_diag.
    by rewrite !range_len_aligned.
  - intros c. rewrite (elem_of_candidates _ _ _ _ _ Hcs). split.
    + intros (j & i & Hv & ->).
      apply visited_grid in Hv as [[Hj Hjm] [Hi Him]]; [|done].
      rewrite Hsh, Hth, Z.sub_diag in Hj.
      rewrite Hsh, Z.sub_diag, Z.sub_0_r in Hjm.
      rewrite Hsw, Htw, Z.sub_diag in Hi.
      rewrite Hsw, Z.sub_diag, Z.sub_0_r in Him.
      apply Z.mod_divide in Hjm as [row ->]; [|lia].
      apply Z.mod_divide in Him as [col ->]; [|lia].
      exists row, col. split; [nia|]. split; [nia|].
      unfold Tileset.regions_at, Tileset.region_of, Tileset.t_bounds,
        Tileset.s_bounds. cbn [fst snd]. rewrite Hsh, Hsw, Hth, Htw.
      assert (row < m) by nia. assert (col < n) by nia.
      assert (0 <= row) by nia. assert (0 <= col) by nia.
      assert (row * size + size <= size * m) by nia.
      assert (col * size + size <= size * n) by nia.
      repeat f_equal; lia.
    + intros (row & col & Hrow & Hcol & ->). exists (size * row), (size * col).
      split.
      * apply visited_grid; [done|].
        rewrite Hsh, Hsw, Hth, Htw, !Z.sub_diag, !Z.sub_0_r.
        rewrite !(Z.mul_comm size), !Z.mod_mul by lia.
        repeat split; nia.
      * unfold Tileset.regions_at, Tileset.region_of, Tileset.t_bounds,
          Tileset.s_bounds. cbn [fst snd]. rewrite Hsh, Hsw, Hth, Htw.
        assert (size * row + size <= size * m) by nia.
        assert (size * col + size <= size * n) by nia.
        assert (0 <= size * row) by nia. assert (0 <= size * col) by nia.
        repeat f_equal; lia.
Qed.

Lemma aligned_candidates_are_grid_cells_witness :
  exists cs,
    Tileset.candidates atlas sprite 16 = Ok cs /\
    Z.of_nat (length cs) = 1 * 2 /\
    forall c,
      c ∈ cs <->
      exists row col,
        0 <= row < 1 /\ 0 <= col < 2 /\
        c = ((16 * col, 16 * row, 16, 16), (0, 0, 16, 16)).
Proof.
  apply (aligned_candidates_are_grid_cells atlas sprite 16 1 2);
    solve [lia | reflexivity].
Defined.

Lemma lookup_py_slice {A : Type} (lo hi : Z) (l : list A) (k : nat) :
  0 <= lo <= hi -> hi <= Z.of_nat (length l) ->
  Z.of_nat k < hi - lo ->
  py_slice lo hi l !! k = l !! (Z.to_nat lo + k)%nat.
Proof.
  intros Hlo Hhi Hk. unfold py_slice, slice_bound.
  destruct (lo <? 0) eqn:E1; [apply Z.ltb_lt in E1; lia|].
  destruct (hi <? 0) eqn:E2; [apply Z.ltb_lt in E2; lia|].
  rewrite !Z.min_l by lia.
  rewrite lookup_take_lt by lia. apply lookup_drop.
Qed.

(** A cell of a window cut inside a rectangular image is the pixel of the
    image at the cell's position, moved by the corner of the window. *)
Lemma pixel_at_crop (a : Img) (y0 y1 x0 x1 : Z) (y x : nat) :
  rectangular a ->
  0 <= y0 <= y1 -> y1 <= height a ->
  0 <= x0 <= x1 -> x1 <= width a ->
  Z.of_nat y < y1 - y0 -> Z.of_nat x < x1 - x0 ->
  pixel_at (crop y0 y1 x0 x1 a) y x =
  pixel_at a (Z.to_nat y0 + y) (Z.to_nat x0 + x) /\
  is_Some (pixel_at a (Z.to_nat y0 + y) (Z.to_nat x0 + x)).
Proof.
  intros Hrect Hy0 Hy1 Hx0 Hx1 Hy Hx. unfold pixel_at, crop, Img in *.
  change (map (py_slice x0 x1) (py_slice y0 y1 a))
    with (py_slice x0 x1 <$> py_slice y0 y1 a).
  rewrite list_lookup_fmap, lookup_py_slice by done.
  unfold height in Hy1.
  destruct (lookup_lt_is_Some_2 a (Z.to_nat y0 + y)) as [row Hrow]; [lia|].
  rewrite Hrow. simpl.
  assert (Hlen : Z.of_nat (length row) = width a).
  { unfold rectangular in Hrect. rewrite Forall_lookup in Hrect.
    by apply (Hrect _ _ Hrow). }
  rewrite lookup_py_slice by lia. split; [done|].
  apply lookup_lt_is_Some_2. lia.
Qed.

(** X6. A window lays the single over the tileset with the single's top
    left corner at the origin (i, j): the cell (y, x) of the two windows
    cut at a visited origin holds the tileset pixel at row [Y], column [X]
    and the single pixel at row [Y - j], column [X - i], where (Y, X) is
    the cell moved by the corner of the clipped tileset region; both pixels
    exist. *)
Theorem window_cells_are_aligned_pixels
    (self_cv2 single_cv2 : Img) (size j i : Z) (y x : nat) :
  rectangular self_cv2 -> rectangular single_cv2 ->
  0 < height self_cv2 -> 0 < width self_cv2 ->
  0 < height single_cv2 -> 0 < width single_cv2 ->
  Tileset.visited self_cv2 single_cv2 size j i ->
  let th := height self_cv2 in
  let tw := width self_cv2 in
  let sh := height single_cv2 in
  let sw := width single_cv2 in
  let t_region := Tileset.region_of (Tileset.t_bounds th tw sh sw j i) in
  let t := Tileset.crop_bounds (Tileset.t_bounds th tw sh sw j i) self_cv2 in
  let s := Tileset.crop_bounds (Tileset.s_bounds th tw sh sw j i) single_cv2 in
  let Y := region_y t_region + Z.of_nat y in
  let X := region_x t_region + Z.of_nat x in
  Z.of_nat y < region_height t_region ->
  Z.of_nat x < region_width t_region ->
  exists p q,
    pixel_at t y x = Some p /\
    pixel_at self_cv2 (Z.to_nat Y) (Z.to_nat X) = Some p /\
    pixel_at s y x = Some q /\
    pixel_at single_cv2 (Z.to_nat (Y - j)) (Z.to_nat (X - i)) = Some q.
Proof.
  intros Hrt Hrs Hth Htw Hsh Hsw Hv th tw sh sw t_region t s Y X Hy Hx.
  assert (Hsize : 0 < size).
  { pose proof (visited_nonzero _ _ _ _ _ Hv) as Hnz.
    destruct (Z.lt_trichotomy size 0) as [Hneg|[->|Hpos]]; [|done|done].
    destruct Hv as (os & Hos & Hin).
    rewrite origins_negative in Hos by done. injection Hos as <-.
    by apply elem_of_nil in Hin. }
  apply visited_grid in Hv as [[Hj _] [Hi _]]; [|done].
  fold th sh in Hj. fold tw sw in Hi.
  subst t_region t s Y X.
  unfold region_x, region_y, region_width, region_height,
    Tileset.region_of, Tileset.t_bounds, Tileset.s_bounds,
    Tileset.crop_bounds in *. cbn [fst snd] in *.
  destruct (pixel_at_crop self_cv2 (Z.max 0 j) (Z.min th (j + sh))
              (Z.max 0 i) (Z.min tw (i + sw)) y x) as [Ht [p Hp]];
    try done; try lia.
  destruct (pixel_at_crop single_cv2 (Z.max 0 (- j)) (Z.min sh (th - j))
              (Z.max 0 (- i)) (Z.min sw (tw - i)) y x) as [Hs [q Hq]];
    try done; try lia.
  exists p, q.
  replace (Z.to_nat (Z.max 0 j + Z.of_nat y))
    with (Z.to_nat (Z.max 0 j) + y)%nat by lia.
  replace (Z.to_nat (Z.max 0 i + Z.of_nat x))
    with (Z.to_nat (Z.max 0 i) + x)%nat by lia.
  replace (Z.to_nat (Z.max 0 j + Z.of_nat y - j))
    with (Z.to_nat (Z.max 0 (- j)) + y)%nat by lia.
  replace (Z.to_nat (Z.max 0 i + Z.of_nat x - i))
    with (Z.to_nat (Z.max 0 (- i)) + x)%nat by lia.
  rewrite Ht, Hs. done.
Qed.

Lemma window_cells_are_aligned_pixels_witness :
  exists p q,
    pixel_at (Tileset.crop_bounds (Tileset.t_bounds 16 32 16 16 0 16) atlas)
      0 0 = Some p /\
    pixel_at atlas 0 16 = Some p /\
    pixel_at (Tileset.crop_bounds (Tileset.s_bounds 16 32 16 16 0 16) sprite)
      0 0 = Some q /\
    pixel_at sprite 0 0 = Some q.
Proof.
  assert (Hra : rectangular atlas) by (vm_compute; repeat constructor).
  assert (Hrs : rectangular sprite) by (vm_compute; repeat constructor).
  assert (Hv : Tileset.visited atlas sprite TILE_SIZE 0 16).
  { eexists. split; [vm_compute; reflexivity|]. repeat constructor. }
  exact (window_cells_are_aligned_pixels atlas sprite TILE_SIZE 0 16 0 0
           Hra Hrs eq_refl eq_refl eq_refl eq_refl Hv eq_refl eq_refl).
Defined.

End Windows.

(** * Further properties of the scorer *)

Section ScorerBehaviour.

Import Examples.

Lemma sum_upto_le (n : nat) (f g : nat -> nat) :
  (forall k, (k < n)%nat -> (f k <= g k)%nat) ->
  (sum_upto n f <= sum_upto n g)%nat.
Proof.
  induction n as [|n IH]; intros Hfg; simpl; [done|].
  pose proof (Hfg n ltac:(lia)).
  assert (sum_upto n f <= sum_upto n g)%nat
    by (apply IH; intros k Hk; apply Hfg; lia).
  lia.
Qed.

(** Two sums, one below the other term by term, are equal only when the
    terms are. *)
Lemma sum_upto_eq_inv (n : nat) (f g : nat -> nat) :
  (forall k, (k < n)%nat -> (f k <= g k)%nat) ->
  sum_upto n f = sum_upto n g ->
  forall k, (k < n)%nat -> f k = g k.
Proof.
  induction n as [|n IH]; intros Hfg Heq k Hk; [lia|].
  simpl in Heq.
  pose proof (Hfg n ltac:(lia)).
  assert (sum_upto n f <= sum_upto n g)%nat
    by (apply sum_upto_le; intros k' Hk'; apply Hfg; lia).
  destruct (decide (k = n)) as [->|Hne]; [lia|].
  apply IH; [intros k' Hk'; apply Hfg; lia|lia|lia].
Qed.

Lemma agree_at_opaque (a b : Img) (y x : nat) :
  agree_at a b y x = true -> opaque_at a y x = true.
Proof.
  unfold agree_at, opaque_at. destruct (pixel_at a y x) as [p|]; [|done].
  destruct (pixel_at b y x) as [q|]; [|done].
  by intros [H _]%andb_true_iff.
Qed.

Lemma agree_at_iff (a b : Img) (y x : nat) :
  agree_at a b y x = true <->
  exists p, pixel_at a y x = Some p /\ px_a p = 255 /\
            pixel_at b y x = Some p.
Proof.
  unfold agree_at. destruct (pixel_at a y x) as [p|].
  - destruct (pixel_at b y x) as [q|].
    + rewrite andb_true_iff, !bool_decide_eq_true. split.
      * intros [Ha ->]. by exists q.
      * intros (p' & [= <-] & Ha & [= <-]). done.
    + split; [done|]. by intros (p' & _ & _ & [=]).
  - split; [done|]. by intros (p' & [=] & _).
Qed.

Lemma pixel_at_row_length (a : Img) (y x : nat) (p : Pixel) :
  pixel_at a y x = Some p ->
  (y < length a)%nat /\ (x < row_length a y)%nat.
Proof.
  unfold pixel_at, row_length. destruct (a !! y) as [row|] eqn:E; [|done].
  simpl. intros Hx. split.
  - by eapply lookup_lt_Some.
  - by eapply lookup_lt_Some.
Qed.

(** All opaque positions agree exactly when the two counts are equal. *)
Lemma agree_count_full (a b : Img) :
  agree_count a b = opaque_count a <->
  forall y x p, pixel_at a y x = Some p -> px_a p = 255 ->
                pixel_at b y x = Some p.
Proof.
  unfold agree_count, opaque_count, count_positions.
  rewrite Nat2Z.inj_iff.
  assert (Hle : forall y x, ((if agree_at a b y x then 1 else 0) <=
                             (if opaque_at a y x then 1 else 0))%nat).
  { intros y x. destruct (agree_at a b y x) eqn:E; [|lia].
    by rewrite (agree_at_opaque _ _ _ _ E). }
  split.
  - intros Heq y x p Hp Ha.
    apply pixel_at_row_length in Hp as Hlt. destruct Hlt as [Hy Hx].
    pose proof (sum_upto_eq_inv _ _ _
      (fun y' _ => sum_upto_le _ _ _ (fun x' _ => Hle y' x')) Heq y Hy)
      as Hrow.
    pose proof (sum_upto_eq_inv _ _ _ (fun x' _ => Hle y x') Hrow x Hx)
      as Hcell.
    assert (Ho : opaque_at a y x = true).
    { unfold opaque_at. rewrite Hp. by apply bool_decide_eq_true. }
    cbv beta in Hcell. rewrite Ho in Hcell.
    destruct (agree_at a b y x) eqn:E; [|done].
    apply agree_at_iff in E as (p' & Hp' & _ & Hb). congruence.
  - intros Hall. apply sum_upto_ext. intros y _. apply sum_upto_ext.
    intros x _. destruct (opaque_at a y x) eqn:Ho.
    + unfold opaque_at in Ho. destruct (pixel_at a y x) as [p|] eqn:Hp;
        [|done].
      apply bool_decide_eq_true in Ho.
      assert (E : agree_at a b y x = true).
      { apply agree_at_iff. exists p. eauto. }
      by rewrite E.
    + destruct (agree_at a b y x) eqn:E; [|done].
      apply agree_at_opaque in E. congruence.
Qed.

Lemma ratio_one (n d : Z) :
  d <> 0 -> Qred (inject_Z n / inject_Z d) = 1%Q -> n = d.
Proof.
  intros Hd Hq.
  assert (Hd' : ~ (inject_Z d == 0)%Q).
  { change 0%Q with (inject_Z 0). by rewrite inject_Z_injective. }
  assert (Heq : (inject_Z n / inject_Z d == 1)%Q).
  { rewrite <- (Qred_correct (inject_Z n / inject_Z d)), Hq. reflexivity. }
  apply inject_Z_injective.
  rewrite <- (Qmult_div_r (inject_Z n) (inject_Z d)) by done.
  rewrite Heq. apply Qmult_1_r.
Qed.

(** X7. For two images of one shape, [_compute_score(a, b)] is exactly 1.0
    if and only if [a] has at least one fully opaque pixel and [b] holds, at
    the position of every fully opaque pixel of [a], the same pixel in all
    four channels; what [b] holds elsewhere does not matter. *)
Theorem compute_score_one_iff (a b : Img) :
  rectangular a -> rectangular b ->
  height a = height b -> width a = width b ->
  Tileset._compute_score a b = Ok 1%Q <->
  0 < opaque_count a /\
  forall y x p, pixel_at a y x = Some p -> px_a p = 255 ->
                pixel_at b y x = Some p.
Proof.
  intros _ _ _ _.
  unfold Tileset._compute_score, Tileset.__compute_score.
  rewrite count_alpha_mask_positions, <- agree_count_full.
  pose proof (count_nonzero_nonneg (alpha_mask a)) as Hnn.
  rewrite count_alpha_mask_positions in Hnn.
  destruct (opaque_count a =? 0) eqn:E.
  - apply Z.eqb_eq in E. split; [done|]. lia.
  - apply Z.eqb_neq in E. rewrite int_truediv_ok by done.
    rewrite count_and_mask_positions. split.
    + intros [= Hq]. split; [lia|]. by apply ratio_one.
    + intros [_ ->]. by rewrite ratio_self.
Qed.

Lemma compute_score_one_iff_witness :
  Tileset._compute_score [[red; clear]] [[red; blue]] = Ok 1%Q.
Proof.
  apply (compute_score_one_iff [[red; clear]] [[red; blue]]);
    try (vm_compute; by repeat constructor).
  split; [done|].
  intros [|[|y]] [|[|[|x]]] p Hp Ha; try done.
  injection Hp as <-. discriminate Ha.
Defined.

(** X8. The score reads the second image only where the first is fully
    opaque: two images of the shape of [a] that hold the same pixels at the
    positions of the fully opaque pixels of [a] get the same score against
    [a]. *)
Theorem compute_score_reads_only_under_mask (a b b' : Img) :
  rectangular a -> rectangular b -> rectangular b' ->
  height a = height b -> width a = width b ->
  height a = height b' -> width a = width b' ->
  (forall y x p, pixel_at a y x = Some p -> px_a p = 255 ->
                 pixel_at b y x = pixel_at b' y x) ->
  Tileset._compute_score a b = Tileset._compute_score a b'.
Proof.
  intros _ _ _ _ _ _ _ Hsame.
  unfold Tileset._compute_score, Tileset.__compute_score.
  destruct (count_nonzero (alpha_mask a) =? 0); [done|].
  rewrite !count_and_mask_positions.
  replace (agree_count a b') with (agree_count a b); [done|].
  unfold agree_count, count_positions. f_equal.
  apply sum_upto_ext. intros y _. apply sum_upto_ext. intros x _.
  unfold agree_at. destruct (pixel_at a y x) as [p|] eqn:Hp; [|done].
  destruct (decide (px_a p = 255)) as [Ha|Ha].
  - by rewrite (Hsame y x p Hp Ha).
  - rewrite (bool_decide_eq_false_2 _ Ha). simpl.
    by destruct (pixel_at b y x), (pixel_at b' y x).
Qed.

Lemma compute_score_reads_only_under_mask_witness :
  Tileset._compute_score [[red; clear]] [[red; blue]] =
  Tileset._compute_score [[red; clear]] [[red; red]].
Proof.
  apply (compute_score_reads_only_under_mask
           [[red; clear]] [[red; blue]] [[red; red]]);
    try (vm_compute; by repeat constructor).
  intros [|[|y]] [|[|[|x]]] p Hp Ha; try done.
  injection Hp as <-. discriminate Ha.
Defined.

End ScorerBehaviour.

(** * Further properties of the aggregation *)

Section AggregationBehaviour.

Import Examples.

Lemma index_is_Some {V : Type} (key : V -> Id) (m0 : gmap Id V)
    (l : list V) (k : Id) :
  is_Some (foldl (fun m image => <[ key image := image ]> m) m0 l !! k) <->
  is_Some (m0 !! k) \/ k ∈ key <$> l.
Proof.
  revert m0. induction l as [|x l IH]; intros m0; simpl.
  - split; [by left|]. intros [H|H]; [done|]. by apply elem_of_nil in H.
  - rewrite IH. csimpl. rewrite elem_of_cons.
    destruct (decide (key x = k)) as [<-|Hne].
    + rewrite lookup_insert_eq. split; [|by left]. intros _. right. by left.
    + rewrite lookup_insert_ne by done. split.
      * intros [H|H]; [by left|]. right. by right.
      * intros [H|[H|H]]; [by left|congruence|by right].
Qed.

Lemma known_initial (self : BaseLoader.t) (r : BaseLoader.SearchResult) :
  known (BaseLoader.initial_indices self) r <->
  ~ (r.2 <> [] /\
     (r.1.1 ∉ Tileset.id <$> BaseLoader.tilesets self \/
      r.1.2 ∉ Single.id <$> BaseLoader.singles self)).
Proof.
  unfold known. cbn [BaseLoader.initial_indices BaseLoader.tileset_index
                     BaseLoader.single_index].
  unfold BaseLoader.index_tilesets, BaseLoader.index_singles.
  rewrite !index_is_Some, !lookup_empty, !is_Some_alt.
  destruct (r.2) as [|tile tiles].
  - split; [|by left]. intros _ [H _]. done.
  - destruct (decide (r.1.1 ∈ Tileset.id <$> BaseLoader.tilesets self));
      destruct (decide (r.1.2 ∈ Single.id <$> BaseLoader.singles self));
      split; try tauto; intros H; try (right; tauto);
      exfalso; apply H; split; try done; tauto.
Qed.

(** X9. The aggregation loop raises only [KeyError], and it raises it
    exactly when some result that carries tiles names a tileset or a single
    that the loader does not hold; a result without tiles is skipped before
    any lookup, whatever identifiers it names. *)
Theorem aggregation_raises_iff (self : BaseLoader.t)
    (results : list BaseLoader.SearchResult) :
  (BaseLoader.search self results = Raise KeyError <->
   Exists (fun r =>
             r.2 <> [] /\
             (r.1.1 ∉ Tileset.id <$> BaseLoader.tilesets self \/
              r.1.2 ∉ Single.id <$> BaseLoader.singles self)) results) /\
  (forall e, BaseLoader.search self results = Raise e -> e = KeyError).
Proof.
  split; [|intros e; apply aggregate_raises].
  pose proof (aggregate_ok _ results (initial_indices_well_keyed self)) as Hok.
  unfold BaseLoader.search.
  rewrite Exists_exists. rewrite Forall_forall in Hok. split.
  - intros Hraise.
    destruct (decide (Forall (fun r => ~ (r.2 <> [] /\
        (r.1.1 ∉ Tileset.id <$> BaseLoader.tilesets self \/
         r.1.2 ∉ Single.id <$> BaseLoader.singles self))) results))
      as [Hall|Hex].
    + destruct (proj2 Hok) as [st' Hst'].
      * intros r Hr. apply known_initial.
        rewrite Forall_forall in Hall. by apply Hall.
      * congruence.
    + apply not_Forall_Exists in Hex; [|apply _].
      apply Exists_exists in Hex as (r & Hr & Hbad).
      exists r. split; [done|]. by apply dec_stable.
  - intros (r & Hr & Hbad).
    destruct (BaseLoader.aggregate (BaseLoader.initial_indices self) results)
      as [st'|e] eqn:E.
    + exfalso. assert (Hk := proj1 Hok (ex_intro _ st' eq_refl) r Hr).
      by apply known_initial in Hk.
    + by apply aggregate_raises in E as ->.
Qed.

(** X10. An aggregation that returns neither adds nor removes an object of
    the indices and leaves every path, identifier and image as it was; the
    tile lists and the tileset sets only grow (each old list is the start
    of the new one), and the counter [found] ends at the number of tiles in
    the results. *)
Theorem aggregation_keeps_objects (self : BaseLoader.t)
    (results : list BaseLoader.SearchResult) (final : BaseLoader.Indices) :
  BaseLoader.search self results = Ok final ->
  let initial := BaseLoader.initial_indices self in
  dom (BaseLoader.tileset_index final) =
    dom (BaseLoader.tileset_index initial) /\
  dom (BaseLoader.single_index final) =
    dom (BaseLoader.single_index initial) /\
  (forall tid t t',
     BaseLoader.tileset_index initial !! tid = Some t ->
     BaseLoader.tileset_index final !! tid = Some t' ->
     Tileset.path t' = Tileset.path t /\ Tileset.id t' = Tileset.id t /\
     Tileset.cv2 t' = Tileset.cv2 t /\
     forall sid l, Tileset.tiles t !! sid = Some l ->
                   exists l', Tileset.tiles t' !! sid = Some (l ++ l')) /\
  (forall sid s s',
     BaseLoader.single_index initial !! sid = Some s ->
     BaseLoader.single_index final !! sid = Some s' ->
     Single.path s' = Single.path s /\ Single.id s' = Single.id s /\
     Single.cv2 s' = Single.cv2 s /\
     Single.tilesets s ⊆ Single.tilesets s') /\
  BaseLoader.found final =
    Z.of_nat (length (mjoin (snd <$> results))).
Proof.
  intros Hfinal initial.
  pose proof (aggregate_merged _ _ _ (initial_indices_well_keyed self) Hfinal)
    as (Ht & Hs & Hf).
  fold initial in Ht, Hs, Hf.
  split; [|split; [|split; [|split]]].
  - apply set_eq. intros tid. rewrite !elem_of_dom.
    destruct (Ht tid); split; intros [? ?]; by eauto.
  - apply set_eq. intros sid. rewrite !elem_of_dom.
    destruct (Hs sid); split; intros [? ?]; by eauto.
  - intros tid t t' Hi Hfin. specialize (Ht tid). rewrite Hi, Hfin in Ht.
    inversion Ht as [? ? (Hp & Hid & Hc & Hl)|]; subst.
    repeat split; try done.
    intros sid l Hsl. rewrite Hl, Hsl.
    destruct (tiles_for tid sid results) as [|tile tiles].
    + exists []. by rewrite app_nil_r.
    + by eexists.
  - intros sid s s' Hi Hfin. specialize (Hs sid). rewrite Hi, Hfin in Hs.
    inversion Hs as [? ? (Hp & Hid & Hc & Hl)|]; subst.
    repeat split; try done. rewrite Hl. apply union_subseteq_l.
  - rewrite Hf. unfold initial. cbn [BaseLoader.initial_indices
      BaseLoader.found]. unfold found_for. rewrite Z.add_0_l. do 2 f_equal.
    clear. induction results as [|r results IH]; [done|].
    csimpl. by rewrite IH.
Qed.

Lemma aggregation_keeps_objects_witness :
  exists final,
    BaseLoader.search loader run_arrival = Ok final /\
    BaseLoader.found final = 1.
Proof.
  destruct (BaseLoader.search loader run_arrival) as [final|e] eqn:E.
  - exists final. split; [done|].
    by destruct (aggregation_keeps_objects loader run_arrival final E)
      as (_ & _ & _ & _ & ->).
  - vm_compute in E. discriminate E.
Defined.

(** X11. Aggregating the same results a second time, over the objects as
    the first run left them and with the counter back at 0, is not a no-op:
    every tile list of a freshly loaded collection is appended to itself, so
    each tile is recorded twice, while the tileset sets of the singles stay
    as they were and the counter reports the same number. *)
Theorem second_aggregation_duplicates_tiles (self : BaseLoader.t)
    (results : list BaseLoader.SearchResult)
    (first second : BaseLoader.Indices) :
  Forall (fun t => Tileset.tiles t = ∅) (BaseLoader.tilesets self) ->
  BaseLoader.search self results = Ok first ->
  BaseLoader.aggregate
    (BaseLoader.mkIndices (BaseLoader.tileset_index first)
                          (BaseLoader.single_index first) 0)
    results = Ok second ->
  BaseLoader.single_index second = BaseLoader.single_index first /\
  BaseLoader.found second = BaseLoader.found first /\
  forall tid sid t1 l,
    BaseLoader.tileset_index first !! tid = Some t1 ->
    Tileset.tiles t1 !! sid = Some l ->
    exists t2,
      BaseLoader.tileset_index second !! tid = Some t2 /\
      Tileset.tiles t2 !! sid = Some (l ++ l).
Proof.
  intros Hfresh Hfirst Hsecond.
  pose proof (initial_indices_well_keyed self) as Hk0.
  pose proof (aggregate_merged _ _ _ Hk0 Hfirst) as Hm1.
  assert (Hk1 : well_keyed
            (BaseLoader.mkIndices (BaseLoader.tileset_index first)
                                  (BaseLoader.single_index first) 0)).
  { pose proof (well_keyed_merged _ _ _ Hk0 Hm1) as [H1 H2]. by split. }
  pose proof (aggregate_merged _ _ _ Hk1 Hsecond) as Hm2.
  destruct Hm1 as (Ht1 & Hs1 & Hf1), Hm2 as (Ht2 & Hs2 & Hf2).
  cbn [BaseLoader.tileset_index BaseLoader.single_index BaseLoader.found
       BaseLoader.initial_indices] in *.
  split; [|split].
  - apply map_eq. intros sid. specialize (Hs1 sid). specialize (Hs2 sid).
    destruct Hs1 as [s s1 (Hp1 & Hi1 & Hc1 & Hl1)|];
      inversion Hs2 as [s1' s2 (Hp2 & Hi2 & Hc2 & Hl2)|]; subst; [|done].
    f_equal. destruct s1, s2. simpl in *. f_equal; try congruence.
    rewrite Hl2, Hl1, <- (assoc_L (∪)). f_equal. apply (idemp_L (∪)).
  - lia.
  - intros tid sid t1 l Hl1 Hsl. specialize (Ht1 tid). specialize (Ht2 tid).
    rewrite Hl1 in Ht1, Ht2.
    inversion Ht1 as [t0 ? (_ & _ & _ & Hg1) Heq|]; subst.
    inversion Ht2 as [? t2 (_ & _ & _ & Hg2)|]; subst.
    exists t2. split; [done|].
    symmetry in Heq.
    apply tileset_index_inv in Heq as [Hin _].
    rewrite Forall_forall in Hfresh.
    rewrite Hg2, Hsl. rewrite Hg1, (Hfresh t0 Hin), lookup_empty in Hsl.
    destruct (tiles_for tid sid results) as [|tile tiles]; [done|].
    simpl in Hsl. injection Hsl as <-. done.
Qed.

Lemma second_aggregation_duplicates_tiles_witness :
  exists first second,
    BaseLoader.search loader run_arrival = Ok first /\
    BaseLoader.aggregate
      (BaseLoader.mkIndices (BaseLoader.tileset_index first)
                            (BaseLoader.single_index first) 0)
      run_arrival = Ok second /\
    BaseLoader.found second = BaseLoader.found first.
Proof.
  destruct (BaseLoader.search loader run_arrival) as [first|e] eqn:E1;
    [|vm_compute in E1; discriminate E1].
  destruct (BaseLoader.aggregate
              (BaseLoader.mkIndices (BaseLoader.tileset_index first)
                                    (BaseLoader.single_index first) 0)
              run_arrival) as [second|e] eqn:E2.
  - exists first, second. split; [done|]. split; [done|].
    assert (Hfresh : Forall (fun t => Tileset.tiles t = ∅)
                       (BaseLoader.tilesets loader))
      by (by repeat constructor).
    by destruct (second_aggregation_duplicates_tiles loader run_arrival
                   first second Hfresh E1 E2) as (_ & -> & _).
  - exfalso. vm_compute in E1. injection E1 as <-.
    vm_compute in E2. discriminate E2.
Defined.

(** X12. [add_tile] called for one single with the tiles of a list, one
    after the other, appends the list, in order, to what the tileset held
    for that single, creates the entry when there was none, and leaves the
    entries of every other single, the path, the identifier and the image
    as they were. *)
Theorem add_tile_sequence (ts : Tileset.t) (single_id : Id)
    (tile : Tile) (tiles : list Tile) :
  let ts' := foldl (fun ts tile => Tileset.add_tile ts single_id tile)
               ts (tile :: tiles) in
  Tileset.path ts' = Tileset.path ts /\ Tileset.id ts' = Tileset.id ts /\
  Tileset.cv2 ts' = Tileset.cv2 ts /\
  Tileset.tiles ts' !! single_id =
    Some (default [] (Tileset.tiles ts !! single_id) ++ tile :: tiles) /\
  forall other, other <> single_id ->
    Tileset.tiles ts' !! other = Tileset.tiles ts !! other.
Proof.
  intros ts'.
  destruct (foldl_add_tile ts single_id (tile :: tiles))
    as (Hp & Hi & Hc & Hl).
  fold ts' in Hp, Hi, Hc, Hl.
  split; [done|]. split; [done|]. split; [done|]. split.
  - rewrite Hl. by rewrite decide_True.
  - intros other Hne. rewrite Hl. by rewrite decide_False.
Qed.

(** X13. [_get_search_pairs] of [BaseLoader] yields the whole cross product:
    a pair for every tileset and every single of the loader and nothing
    else, as many pairs as tilesets times singles, and no pair twice when
    the objects are distinct; a loader that skips pairs yields a sublist
    of it, in the same order. *)
Theorem search_pairs_cross_product
    (keep : Tileset.t -> Single.t -> bool) (self : BaseLoader.t) :
  let every := fun (_ : Tileset.t) (_ : Single.t) => true in
  (forall tileset single,
     (tileset, single) ∈ BaseLoader._get_search_pairs every self <->
     tileset ∈ BaseLoader.tilesets self /\
     single ∈ BaseLoader.singles self) /\
  length (BaseLoader._get_search_pairs every self) =
    (length (BaseLoader.tilesets self) *
     length (BaseLoader.singles self))%nat /\
  (NoDup (BaseLoader.tilesets self) -> NoDup (BaseLoader.singles self) ->
   NoDup (BaseLoader._get_search_pairs every self)) /\
  BaseLoader._get_search_pairs keep self
    `sublist_of` BaseLoader._get_search_pairs every self.
Proof.
  intros every. split; [|split; [|split]].
  - intros tileset single. rewrite elem_of_search_pairs. unfold every. tauto.
  - unfold BaseLoader._get_search_pairs, every.
    apply length_bind_const. intros t.
    by rewrite (length_bind_const _ 1%nat), Nat.mul_1_r.
  - intros Hnt Hns. unfold BaseLoader._get_search_pairs, every.
    apply NoDup_bind; [| |done].
    + intros t1 t2 [t s] _ _ H1 H2.
      apply list_elem_of_bind in H1 as (s1 & H1 & _).
      apply list_elem_of_bind in H2 as (s2 & H2 & _).
      apply list_elem_of_singleton in H1, H2. congruence.
    + intros t _. apply NoDup_bind; [| |done].
      * intros s1 s2 [t' s] _ _ H1 H2.
        apply list_elem_of_singleton in H1, H2. congruence.
      * intros s _. apply NoDup_singleton.
  - unfold BaseLoader._get_search_pairs, every.
    induction (BaseLoader.tilesets self) as [|t ts IH]; [constructor|].
    rewrite !bind_cons. apply sublist_app; [|exact IH].
    clear IH. induction (BaseLoader.singles self) as [|s ss IH];
      [constructor|].
    rewrite !bind_cons. apply sublist_app; [|exact IH].
    destruct (keep t s); [done|apply sublist_nil_l].
Qed.

End AggregationBehaviour.

(** * Equality of images *)

Section ImageEquality.

Import Examples.







End ImageEquality.

(** * Loading *)

Section LoadingProperties.

Import Examples.

Lemma elem_of_set_add {A : Type} (eqb : A -> A -> bool) (x y : A)
    (l : list A) :
  y ∈ Loading.set_add eqb x l -> y ∈ l \/ y = x.
Proof.
  unfold Loading.set_add. destruct (existsb _ l); [by left|].
  rewrite elem_of_app, list_elem_of_singleton. tauto.
Qed.

Lemma set_add_cases {A : Type} (eqb : A -> A -> bool) (x : A) (l : list A) :
  Loading.set_add eqb x l = l \/
  (Loading.set_add eqb x l = l ++ [x] /\
   forall y, y ∈ l -> eqb y x = false).
Proof.
  unfold Loading.set_add. destruct (existsb _ l) eqn:E; [by left|].
  right. split; [done|]. intros y Hy.
  destruct (eqb y x) eqn:Eyx; [|done].
  assert (existsb (fun y => eqb y x) l = true); [|congruence].
  apply existsb_exists. exists y. split; [|done]. by apply list_elem_of_In.
Qed.

(** Adding to a set kept as a list keeps its elements pairwise distinct. *)
Lemma pairwise_distinct_set_add {A : Type} (eqb : A -> A -> bool) (x : A)
    (l : list A) :
  (forall a b, eqb a b = eqb b a) ->
  Loading.pairwise_distinct eqb l ->
  Loading.pairwise_distinct eqb (Loading.set_add eqb x l).
Proof.
  intros Hsym Hl.
  destruct (set_add_cases eqb x l) as [->|[-> Hnew]]; [done|].
  intros i j a b Hi Hj Hne.
  apply lookup_app_Some in Hi as [Hi|[Hi Hi']];
    apply lookup_app_Some in Hj as [Hj|[Hj Hj']].
  - by apply (Hl i j).
  - apply list_lookup_singleton_Some in Hj' as [_ <-].
    apply Hnew. by eapply list_elem_of_lookup_2.
  - apply list_lookup_singleton_Some in Hi' as [_ <-].
    rewrite Hsym. apply Hnew. by eapply list_elem_of_lookup_2.
  - apply list_lookup_singleton_Some in Hi' as [Hi' _].
    apply list_lookup_singleton_Some in Hj' as [Hj' _]. lia.
Qed.

Lemma channels_eq_sym (p q : Pixel) :
  BaseCV2Img.channels_eq p q = BaseCV2Img.channels_eq q p.
Proof.
  unfold BaseCV2Img.channels_eq.
  by rewrite (Z.eqb_sym (px_b p)), (Z.eqb_sym (px_g p)),
    (Z.eqb_sym (px_r p)), (Z.eqb_sym (px_a p)).
Qed.

Lemma image_eq_sym (a b : Img) :
  BaseCV2Img.__eq__ a b = BaseCV2Img.__eq__ b a.
Proof.
  unfold BaseCV2Img.__eq__. f_equal.
  - apply bool_decide_ext. split; congruence.
  - unfold BaseCV2Img.all_equal. f_equal.
    revert b. induction a as [|r1 a IH]; intros [|r2 b]; try done.
    cbn [zip_with]. rewrite IH. f_equal.
    clear. revert r2. induction r1 as [|p r1 IH]; intros [|q r2]; try done.
    cbn [zip_with]. by rewrite IH, channels_eq_sym.
Qed.

Lemma next_id_inj (k1 k2 : nat) :
  (BaseImg.next_id k1).1 = (BaseImg.next_id k2).1 -> k1 = k2.
Proof.
  unfold BaseImg.next_id. cbn [fst String.append]. intros [= H].
  exact (pretty_nat_inj _ _ H).
Qed.

Lemma Forall_set_add {A : Type} (eqb : A -> A -> bool) (P : A -> Prop)
    (x : A) (l : list A) :
  P x -> Forall P l -> Forall P (Loading.set_add eqb x l).
Proof.
  intros Hx Hl. apply Forall_forall. intros y Hy.
  apply elem_of_set_add in Hy as [Hy| ->]; [|done].
  rewrite Forall_forall in Hl. by apply Hl.
Qed.

Lemma fmap_set_add {A B : Type} (eqb : A -> A -> bool) (f : A -> B)
    (x : A) (l : list A) :
  f <$> Loading.set_add eqb x l = f <$> l \/
  f <$> Loading.set_add eqb x l = (f <$> l) ++ [f x].
Proof.
  destruct (set_add_cases eqb x l) as [->|[-> _]]; [by left|].
  right. by rewrite fmap_app.
Qed.

Section Step.

Variable imread : string -> option Img.
Variable _load_image_kind : string -> option BaseImg.Kind.

(** One file either leaves the identifiers and the counter as they are, or
    takes the next identifier, which then is the only one that can be new. *)
Lemma load_image_ids (st st' : Loading.State) (path : string) :
  Loading.load_image imread _load_image_kind st path = Some st' ->
  (Loading.id_counter st' = Loading.id_counter st /\
   Loading.all_ids st' = Loading.all_ids st) \/
  (Loading.id_counter st' = S (Loading.id_counter st) /\
   (Loading.all_ids st' = Loading.all_ids st \/
    Loading.all_ids st' ≡ₚ
      (BaseImg.next_id (Loading.id_counter st)).1 :: Loading.all_ids st)).
Proof.
  unfold Loading.load_image.
  destruct (_load_image_kind path) as [[| | |]|].
  - destruct (imread path) as [img|]; [|done]. simpl. intros [= <-].
    right. split; [done|]. unfold Loading.all_ids. simpl.
    destruct (fmap_set_add Loading.single_eq Single.id
                (Single.mk path ("#" +:+ pretty (Loading.id_counter st)) img ∅)
                (BaseLoader.singles (Loading.indices st))) as [->| ->];
      [by left|right]. simpl. solve_Permutation.
  - destruct (imread path) as [img|]; [|done]. simpl. intros [= <-].
    right. split; [done|]. unfold Loading.all_ids. simpl.
    destruct (fmap_set_add Loading.tileset_eq Tileset.id
                (Tileset.mk path ("#" +:+ pretty (Loading.id_counter st)) img ∅)
                (BaseLoader.tilesets (Loading.indices st))) as [->| ->];
      [by left|right]. simpl. solve_Permutation.
  - simpl. intros [= <-].
    right. split; [done|]. unfold Loading.all_ids. simpl.
    destruct (fmap_set_add BaseImg.__eq__ BaseImg.id
                (BaseImg.mk path ("#" +:+ pretty (Loading.id_counter st)))
                (Loading.characters st)) as [->| ->];
      [by left|right]. simpl. solve_Permutation.
  - simpl. intros [= <-].
    right. split; [done|]. unfold Loading.all_ids. simpl.
    destruct (fmap_set_add BaseImg.__eq__ BaseImg.id
                (BaseImg.mk path ("#" +:+ pretty (Loading.id_counter st)))
                (Loading.animations st)) as [->| ->];
      [by left|right]. simpl. solve_Permutation.
  - intros [= <-]. by left.
Qed.

(** One file leaves the tilesets and the singles as they are, or adds one
    single, or one tileset, built from the file. *)
Lemma load_image_indices (st st' : Loading.State) (path : string) :
  Loading.load_image imread _load_image_kind st path = Some st' ->
  let tilesets := BaseLoader.tilesets (Loading.indices st) in
  let singles := BaseLoader.singles (Loading.indices st) in
  let id := (BaseImg.next_id (Loading.id_counter st)).1 in
  (BaseLoader.tilesets (Loading.indices st') = tilesets /\
   BaseLoader.singles (Loading.indices st') = singles) \/
  (exists img,
     _load_image_kind path = Some BaseImg.KSingle /\
     imread path = Some img /\
     BaseLoader.tilesets (Loading.indices st') = tilesets /\
     BaseLoader.singles (Loading.indices st') =
       Loading.set_add Loading.single_eq (Single.mk path id img ∅) singles) \/
  (exists img,
     _load_image_kind path = Some BaseImg.KTileset /\
     imread path = Some img /\
     BaseLoader.singles (Loading.indices st') = singles /\
     BaseLoader.tilesets (Loading.indices st') =
       Loading.set_add Loading.tileset_eq (Tileset.mk path id img ∅) tilesets).
Proof.
  unfold Loading.load_image.
  destruct (_load_image_kind path) as [[| | |]|] eqn:Ek.
  - destruct (imread path) as [img|] eqn:Ei; [|done]. simpl.
    intros [= <-]. right. left. by exists img.
  - destruct (imread path) as [img|] eqn:Ei; [|done]. simpl.
    intros [= <-]. right. right. by exists img.
  - simpl. intros [= <-]. by left.
  - simpl. intros [= <-]. by left.
  - intros [= <-]. by left.
Qed.

(** The property [well_loaded] is kept by every file. *)
Lemma load_image_well_loaded (start : nat) (files : list string)
    (st st' : Loading.State) (path : string) :
  Loading.well_loaded imread _load_image_kind start files st ->
  Loading.load_image imread _load_image_kind st path = Some st' ->
  Loading.well_loaded imread _load_image_kind start (files ++ [path]) st'.
Proof.
  intros (Hc & Hids & Hnd & Ht & Hs & Hpt & Hps) Hstep.
  pose proof (load_image_ids st st' path Hstep) as Hi.
  pose proof (load_image_indices st st' path Hstep) as Hx.
  cbn zeta in Hx.
  assert (Ht' : Forall (fun t =>
            Tileset.tiles t = ∅ /\ Tileset.path t ∈ files ++ [path] /\
            _load_image_kind (Tileset.path t) = Some BaseImg.KTileset /\
            imread (Tileset.path t) = Some (Tileset.cv2 t))
            (BaseLoader.tilesets (Loading.indices st))).
  { eapply Forall_impl; [exact Ht|]. intros t (? & ? & ? & ?).
    repeat split; try done. apply elem_of_app. by left. }
  assert (Hs' : Forall (fun s =>
            Single.tilesets s = ∅ /\ Single.path s ∈ files ++ [path] /\
            _load_image_kind (Single.path s) = Some BaseImg.KSingle /\
            imread (Single.path s) = Some (Single.cv2 s))
            (BaseLoader.singles (Loading.indices st))).
  { eapply Forall_impl; [exact Hs|]. intros t (? & ? & ? & ?).
    repeat split; try done. apply elem_of_app. by left. }
  assert (Hin : path ∈ files ++ [path]).
  { apply elem_of_app. right. by apply list_elem_of_singleton. }
  unfold Loading.well_loaded.
  split; [|split; [|split; [|split; [|split; [|split]]]]].
  - destruct Hi as [[-> _]|[-> _]]; lia.
  - intros id Hid.
    destruct Hi as [[-> Heq]|[-> [Heq|Hperm]]].
    + rewrite Heq in Hid. by apply Hids.
    + rewrite Heq in Hid. destruct (Hids id Hid) as (k & Hk & ->).
      exists k. split; [lia|done].
    + rewrite Hperm in Hid. apply elem_of_cons in Hid as [->|Hid].
      * exists (Loading.id_counter st). split; [lia|done].
      * destruct (Hids id Hid) as (k & Hk & ->). exists k. split; [lia|done].
  - destruct Hi as [[_ ->]|[_ [->|Hperm]]]; [done|done|].
    rewrite Hperm. apply NoDup_cons. split; [|done].
    intros Hold. destruct (Hids _ Hold) as (k & Hk & Heq).
    apply next_id_inj in Heq. lia.
  - destruct Hx as [[-> _]|[(img & _ & _ & -> & _)|(img & Hk & Him & _ & ->)]];
      [done|done|].
    by apply Forall_set_add.
  - destruct Hx as [[_ ->]|[(img & Hk & Him & _ & ->)|(img & _ & _ & -> & _)]];
      [done| |done].
    by apply Forall_set_add.
  - destruct Hx as [[-> _]|[(img & _ & _ & -> & _)|(img & _ & _ & _ & ->)]];
      [done|done|].
    apply pairwise_distinct_set_add; [|done].
    intros a b. apply image_eq_sym.
  - destruct Hx as [[_ ->]|[(img & _ & _ & _ & ->)|(img & _ & _ & -> & _)]];
      [done| |done].
    apply pairwise_distinct_set_add; [|done].
    intros a b. apply image_eq_sym.
Qed.

Lemma load_well_loaded (start : nat) (seen files : list string)
    (st st' : Loading.State) :
  Loading.well_loaded imread _load_image_kind start seen st ->
  Loading.load imread _load_image_kind st files = Some st' ->
  Loading.well_loaded imread _load_image_kind start (seen ++ files) st'.
Proof.
  revert seen st. induction files as [|path files IH]; intros seen st Hw.
  - intros [= <-]. by rewrite app_nil_r.
  - simpl.
    destruct (Loading.load_image imread _load_image_kind st path)
      as [st1|] eqn:E; [|done].
    simpl. intros Hrest.
    replace (seen ++ path :: files) with ((seen ++ [path]) ++ files)
      by (by rewrite <- app_assoc).
    apply (IH _ st1); [|done]. by eapply load_image_well_loaded.
Qed.

Lemma empty_well_loaded (start : nat) :
  Loading.well_loaded imread _load_image_kind start [] (Loading.empty start).
Proof.
  unfold Loading.well_loaded, Loading.empty, Loading.all_ids. simpl.
  repeat split; try done; try apply NoDup_nil_2; try apply Forall_nil_2.
  intros id H. by apply elem_of_nil in H.
Qed.


End Step.

End LoadingProperties.

(** * Tags *)

Section TagsProperties.

Lemma re_sub_run_chars (in_run : bool) (s : string) :
  Forall (fun c => is_tag_char c = true \/ c = " "%char)
         (String.list_ascii_of_string (re_sub_run in_run s)).
Proof.
  revert in_run. induction s as [|c s IH]; intros in_run; simpl.
  - constructor.
  - destruct (is_tag_char c) eqn:E.
    + simpl. constructor; [by left|apply IH].
    + destruct in_run; [apply IH|]. simpl. constructor; [by right|apply IH].
Qed.

Lemma lstrip_chars (P : ascii -> Prop) (s : string) :
  Forall P (String.list_ascii_of_string s) -> Forall P (String.list_ascii_of_string (lstrip s)).
Proof.
  induction s as [|c s IH]; simpl; [done|]. intros H.
  apply Forall_cons in H as [Hc Hs]. destruct (is_space c); [by apply IH|].
  simpl. by constructor.
Qed.

Lemma rstrip_chars (P : ascii -> Prop) (s : string) :
  Forall P (String.list_ascii_of_string s) -> Forall P (String.list_ascii_of_string (rstrip s)).
Proof.
  induction s as [|c s IH]; simpl; [done|]. intros H.
  apply Forall_cons in H as [Hc Hs]. specialize (IH Hs).
  destruct (rstrip s) as [|c' r].
  - destruct (is_space c); simpl; [constructor|by constructor].
  - simpl. by constructor.
Qed.

(** The pieces hold characters of the string and no whitespace. *)
Lemma split_pieces_chars (P : ascii -> Prop) (s : string) :
  Forall P (String.list_ascii_of_string s) ->
  Forall (fun w => Forall (fun c => P c /\ is_space c = false) (String.list_ascii_of_string w))
         (split_pieces s).
Proof.
  induction s as [|c s IH]; simpl.
  - intros _. repeat constructor.
  - intros H. apply Forall_cons in H as [Hc Hs]. specialize (IH Hs).
    destruct (is_space c) eqn:E.
    + constructor; [constructor|done].
    + destruct (split_pieces s) as [|w ws].
      * repeat constructor; done.
      * apply Forall_cons in IH as [Hw Hws].
        constructor; [|done]. simpl. by constructor.
Qed.

Lemma is_space_space : is_space " "%char = true.
Proof. reflexivity. Qed.

Section ParseTags.

Variable lower : string -> string.
Variable splitext : string -> string * string.

(** Every word of a path is not empty and made of characters of [a-z0-9]. *)
Lemma words_chars (path word : string) :
  word ∈ Tags.words lower splitext path ->
  word <> EmptyString /\
  Forall (fun c => is_tag_char c = true) (String.list_ascii_of_string word).
Proof.
  unfold Tags.words, py_split. intros Hin.
  apply list_elem_of_In, filter_In in Hin as [Hin Hne].
  apply list_elem_of_In in Hin. split.
  - intros ->. done.
  - pose proof (split_pieces_chars _ _
      (lstrip_chars _ _ (rstrip_chars _ _
         (re_sub_run_chars false (lower (splitext path).1))))) as Hall.
    rewrite Forall_forall in Hall. specialize (Hall word Hin).
    eapply Forall_impl; [exact Hall|]. intros c [[Hc| ->] Hs]; [done|].
    by rewrite is_space_space in Hs.
Qed.

Lemma accepted_true (unique : list string) (word : string) :
  Tags.accepted unique word = true <->
  (2 < String.length word)%nat /\ isdigit word = false /\
  (word ∉ unique) /\ (word ∉ EXCLUDED_TAGS).
Proof.
  unfold Tags.accepted.
  rewrite !andb_true_iff, !negb_true_iff, !bool_decide_eq_false,
    Nat.ltb_lt. tauto.
Qed.

Lemma kept_step (kind : string) (seen unique : list string) (word : string) :
  Tags.kept kind seen unique ->
  Tags.kept kind (seen ++ [word])
       (if Tags.accepted unique word then unique ++ [word] else unique).
Proof.
  intros (Hh & Hnd & Hok & Hsub & Hall).
  destruct (Tags.accepted unique word) eqn:E.
  - apply accepted_true in E as (Hlen & Hdig & Hnew & Hex).
    split; [|split; [|split; [|split]]].
    + destruct unique; [done|]. done.
    + apply NoDup_app. split; [done|]. split; [|apply NoDup_singleton].
      intros x Hx ->%list_elem_of_singleton. done.
    + intros tag [Hin| ->%list_elem_of_singleton]%elem_of_app.
      * destruct (Hok tag Hin) as [->|(? & ? & ? & ?)]; [by left|].
        right. repeat split; try done. apply elem_of_app. by left.
      * right. repeat split; try done. apply elem_of_app. right.
        by apply list_elem_of_singleton.
    + change ((kind +:+ "s") :: seen ++ [word])
        with (((kind +:+ "s") :: seen) ++ [word]).
      by apply sublist_app.
    + intros w [Hin| ->%list_elem_of_singleton]%elem_of_app ? ? ?.
      * apply elem_of_app. left. by apply Hall.
      * apply elem_of_app. right. by apply list_elem_of_singleton.
  - split; [done|]. split; [done|]. split; [|split].
    + intros tag Hin.
      destruct (Hok tag Hin) as [->|(? & ? & ? & ?)]; [by left|].
      right. repeat split; try done. apply elem_of_app. by left.
    + change ((kind +:+ "s") :: seen ++ [word])
        with (((kind +:+ "s") :: seen) ++ [word]).
      by apply sublist_inserts_r.
    + intros w [Hin| ->%list_elem_of_singleton]%elem_of_app Hlen Hdig Hex.
      * by apply Hall.
      * destruct (decide (word ∈ unique)) as [Hw|Hw]; [done|].
        assert (Tags.accepted unique word = true); [|congruence].
        by apply accepted_true.
Qed.

Lemma kept_fold (kind : string) (words seen unique : list string) :
  Tags.kept kind seen unique ->
  Tags.kept kind (seen ++ words)
       (foldl (fun unique word =>
                 if Tags.accepted unique word then unique ++ [word]
                 else unique) unique words).
Proof.
  revert seen unique. induction words as [|w words IH]; intros seen unique Hk.
  - by rewrite app_nil_r.
  - simpl. replace (seen ++ w :: words) with ((seen ++ [w]) ++ words)
      by (by rewrite <- app_assoc).
    apply IH. by apply kept_step.
Qed.

Lemma kept_start (kind : string) : Tags.kept kind [] [kind +:+ "s"].
Proof.
  split; [done|]. split; [apply NoDup_singleton|]. split; [|split].
  - intros tag ->%list_elem_of_singleton. by left.
  - done.
  - intros w H. by apply elem_of_nil in H.
Qed.

(** X16. The tags of a path end with the plural of the kind and never
    repeat; every other tag is a word of the path (without its extension,
    lowercased) that is longer than two characters, not a number, made only
    of letters [a-z] and digits, and not one of the excluded tags. *)
Theorem parse_tags_are_clean (path kind : string) :
  let tags := Tags.__parse_tags lower splitext path kind in
  last tags = Some (kind +:+ "s") /\
  NoDup tags /\
  forall tag, tag ∈ tags ->
    tag = (kind +:+ "s") \/
    (tag ∈ Tags.words lower splitext path /\
     (2 < String.length tag)%nat /\ isdigit tag = false /\
     (tag ∉ EXCLUDED_TAGS) /\
     Forall (fun c => is_tag_char c = true) (String.list_ascii_of_string tag)).
Proof.
  intros tags. subst tags. unfold Tags.__parse_tags.
  pose proof (kept_fold kind (Tags.words lower splitext path) [] _
                (kept_start kind)) as (Hh & Hnd & Hok & _ & _).
  rewrite app_nil_l in Hok.
  split; [by rewrite last_reverse|].
  split; [by rewrite reverse_Permutation|].
  intros tag Hin. rewrite elem_of_reverse in Hin.
  destruct (Hok tag Hin) as [->|(? & ? & ? & Hw)]; [by left|].
  right. repeat split; try done. by apply (words_chars path).
Qed.

(** X17. No word of the path is lost and the order is kept: every word that
    is longer than two characters, not a number and not excluded is a tag,
    and the tags, read from the last to the first, follow the order of the
    words in the path, after the plural of the kind. *)
Theorem parse_tags_are_complete (path kind : string) :
  let tags := Tags.__parse_tags lower splitext path kind in
  reverse tags `sublist_of`
    ((kind +:+ "s") :: Tags.words lower splitext path) /\
  forall word, word ∈ Tags.words lower splitext path ->
    (2 < String.length word)%nat -> isdigit word = false ->
    word ∉ EXCLUDED_TAGS -> word ∈ tags.
Proof.
  intros tags. subst tags. unfold Tags.__parse_tags.
  pose proof (kept_fold kind (Tags.words lower splitext path) [] _
                (kept_start kind)) as (_ & _ & _ & Hsub & Hall).
  rewrite app_nil_l in Hsub, Hall.
  split; [by rewrite reverse_involutive|].
  intros word Hin Hlen Hdig Hex. apply elem_of_reverse. by apply Hall.
Qed.

End ParseTags.

End TagsProperties.

(** * Loading a pack *)

Section LoadedPaths.

Variable lower : string -> string.
Variable splitext : string -> string * string.
Variable imread : string -> option Img.

(** What [BaseLoader._load_image] has checked of a path it builds a single
    or a tileset for. *)
Lemma base_loader_kind (path : string) (k : BaseImg.Kind) :
  LoadImage.BaseLoader lower splitext path = Some k ->
  (splitext path).2 ∈ IMAGE_EXTENSIONS /\
  Forall (fun w => contains w (lower path) = false)
         ["palette"; "32x32"; "48x48"] /\
  (k = BaseImg.KSingle \/ k = BaseImg.KTileset ->
   Forall (fun w => contains w (lower path) = false)
          ["animated"; "animation"; "character"]) /\
  (k = BaseImg.KSingle -> contains "single" (lower path) = true) /\
  (k = BaseImg.KTileset -> contains "single" (lower path) = false).
Proof.
  unfold LoadImage.BaseLoader. cbv zeta.
  destruct (bool_decide ((splitext path).2 ∈ IMAGE_EXTENSIONS)) eqn:Eext;
    [|done].
  apply bool_decide_eq_true in Eext. cbn [negb].
  destruct (contains "palette" (lower path)) eqn:E1; [done|].
  destruct (contains "32x32" (lower path)) eqn:E2; [done|].
  destruct (contains "48x48" (lower path)) eqn:E3; [done|].
  cbn [orb].
  destruct (contains "animated" (lower path)) eqn:E4.
  { cbn [orb]. destruct (negb _); [done|]. intros [= <-].
    split_and!; try done; try (by repeat constructor); by intros [?|?]. }
  destruct (contains "animation" (lower path)) eqn:E5.
  { cbn [orb]. destruct (negb _); [done|]. intros [= <-].
    split_and!; try done; try (by repeat constructor); by intros [?|?]. }
  cbn [orb].
  destruct (contains "character" (lower path)) eqn:E6.
  { intros [= <-].
    split_and!; try done; try (by repeat constructor); by intros [?|?]. }
  destruct (contains "single" (lower path)) eqn:E7; intros [= <-];
    split_and!; try done; try (by repeat constructor);
    intros _; by repeat constructor.
Qed.

(** The loaders of the packs ignore more files than [BaseLoader], and
    decide like it on the others. *)
Lemma pack_loaders_restrict (path : string) (k : BaseImg.Kind) :
  (LoadImage.ModernExteriorsLoader lower splitext path = Some k ->
   LoadImage.BaseLoader lower splitext path = Some k /\
   Forall (fun w => contains w (lower path) = false)
          ["old_sorting"; "complete_singles"]) /\
  (LoadImage.ModernInteriorsLoader lower splitext path = Some k ->
   LoadImage.BaseLoader lower splitext path = Some k /\
   Forall (fun w => contains w (lower path) = false)
          ["old stuff"; "black_shadow"; "shadowless"; "user_interface";
           "home_designs"; "room_builder_subfiles"]).
Proof.
  unfold LoadImage.ModernExteriorsLoader, LoadImage.ModernInteriorsLoader.
  split.
  - destruct (contains "old_sorting" (lower path)) eqn:E1; [done|].
    destruct (contains "complete_singles" (lower path)) eqn:E2; [done|].
    intros H. split; [done|]. by repeat constructor.
  - destruct (contains "old stuff" (lower path)) eqn:E1; [done|].
    destruct (contains "black_shadow" (lower path)) eqn:E2; [done|].
    destruct (contains "shadowless" (lower path)) eqn:E3; [done|].
    destruct (contains "user_interface" (lower path)) eqn:E4; [done|].
    destruct (contains "home_designs" (lower path)) eqn:E5; [done|].
    destruct (contains "room_builder_subfiles" (lower path)) eqn:E6; [done|].
    intros H. split; [done|]. by repeat constructor.
Qed.

(** X18. Whichever of the three loaders loads a list of files, the singles
    and the tilesets it ends with come from files of the list that have an
    image extension and whose lowercased path names no palette, no 32x32 or
    48x48 copy, no animation and no character; the path of a single contains
    "single" and the path of a tileset does not.  The loader of Modern
    Exteriors moreover keeps no file of its two ignored folders, and the
    loader of Modern Interiors none of its six. *)
Theorem loaded_paths_are_wanted (kind_of : string -> option BaseImg.Kind)
    (start : nat) (files : list string) (st : Loading.State) :
  kind_of = LoadImage.BaseLoader lower splitext \/
  kind_of = LoadImage.ModernExteriorsLoader lower splitext \/
  kind_of = LoadImage.ModernInteriorsLoader lower splitext ->
  Loading.load imread kind_of (Loading.empty start) files = Some st ->
  let wanted := fun (single : bool) (path : string) =>
    path ∈ files /\
    (splitext path).2 ∈ IMAGE_EXTENSIONS /\
    Forall (fun w => contains w (lower path) = false)
           ["palette"; "32x32"; "48x48"; "animated"; "animation";
            "character"] /\
    contains "single" (lower path) = single /\
    (kind_of = LoadImage.ModernExteriorsLoader lower splitext ->
     Forall (fun w => contains w (lower path) = false)
            ["old_sorting"; "complete_singles"]) /\
    (kind_of = LoadImage.ModernInteriorsLoader lower splitext ->
     Forall (fun w => contains w (lower path) = false)
            ["old stuff"; "black_shadow"; "shadowless"; "user_interface";
             "home_designs"; "room_builder_subfiles"]) in
  Forall (fun s => wanted true (Single.path s))
         (BaseLoader.singles (Loading.indices st)) /\
  Forall (fun t => wanted false (Tileset.path t))
         (BaseLoader.tilesets (Loading.indices st)).
Proof.
  intros Hkind Hload wanted.
  pose proof (load_well_loaded imread kind_of start [] files _ st
                (empty_well_loaded imread kind_of start) Hload) as Hw.
  rewrite app_nil_l in Hw.
  destruct Hw as (_ & _ & _ & Ht & Hs & _ & _).
  assert (Hwanted : forall path k, path ∈ files ->
            kind_of path = Some k ->
            k = BaseImg.KSingle \/ k = BaseImg.KTileset ->
            wanted (match k with BaseImg.KSingle => true | _ => false end)
                   path).
  { intros path k Hin Hk Hst.
    assert (Hbase : LoadImage.BaseLoader lower splitext path = Some k).
    { destruct Hkind as [->|[->| ->]]; [done| |].
      - by apply (proj1 (pack_loaders_restrict path k)).
      - by apply (proj2 (pack_loaders_restrict path k)). }
    destruct (base_loader_kind path k Hbase)
      as (Hext & Hno & Hanim & Hsingle & Htileset).
    specialize (Hanim Hst).
    split; [done|]. split; [done|]. split.
    { apply Forall_cons in Hno as [? Hno], Hanim as [? Hanim].
      apply Forall_cons in Hno as [? Hno], Hanim as [? Hanim].
      apply Forall_cons in Hno as [? _], Hanim as [? _].
      by repeat constructor. }
    split.
    { destruct Hst as [->| ->]; [by rewrite Hsingle|by rewrite Htileset]. }
    split.
    - intros ->. by apply (proj1 (pack_loaders_restrict path k)).
    - intros ->. by apply (proj2 (pack_loaders_restrict path k)). }
  split.
  - eapply Forall_impl; [exact Hs|]. intros s (_ & Hin & Hk & _).
    apply (Hwanted _ BaseImg.KSingle); auto.
  - eapply Forall_impl; [exact Ht|]. intros t (_ & Hin & Hk & _).
    apply (Hwanted _ BaseImg.KTileset); auto.
Qed.

End LoadedPaths.


Lemma loaded_paths_are_wanted_witness :
  exists st,
    Loading.load Posix.imread
      (LoadImage.ModernInteriorsLoader Posix.lower Posix.splitext)
      (Loading.empty 0) Posix.pack = Some st /\
    Single.path <$> BaseLoader.singles (Loading.indices st) =
      ["Pack/Theme_Sorter_Singles/1_Generic_Singles/Single_Chair.png"] /\
    Forall (fun s => contains "single" (Posix.lower (Single.path s)) = true)
           (BaseLoader.singles (Loading.indices st)).
Proof.
  destruct (Loading.load Posix.imread
              (LoadImage.ModernInteriorsLoader Posix.lower Posix.splitext)
              (Loading.empty 0) Posix.pack) as [st|] eqn:Hload;
    [|by vm_compute in Hload].
  exists st. split; [done|]. split.
  - revert Hload. vm_compute. by intros [= <-].
  - pose proof (loaded_paths_are_wanted Posix.lower Posix.splitext
                  Posix.imread _ 0%nat Posix.pack st
                  (or_intror (or_intror eq_refl)) Hload) as [Hs _].
    eapply Forall_impl; [exact Hs|]. by intros s (_ & _ & _ & ? & _).
Defined.

(** * The pairs the loaders of the packs search *)

Section PackPairs.

Lemma split_on_nonempty (sep : ascii) (s : string) : split_on sep s <> [].
Proof.
  destruct s as [|c s]; simpl; [done|].
  destruct (Ascii.eqb c sep); [done|]. by destruct (split_on sep s).
Qed.

(** A name has one piece exactly when the separator does not occur in it. *)
Lemma split_on_one_piece (s : string) :
  (exists w, split_on "_" s = [w]) <-> contains "_" s = false.
Proof.
  induction s as [|c s IH].
  - simpl. split; [done|]. intros _. by eexists.
  - cbn [split_on contains String.prefix].
    destruct (ascii_dec "_" c) as [<-|Hne].
    + rewrite Ascii.eqb_refl.
      replace (String.prefix "" s) with true by (by destruct s).
      split; [|done]. intros [w Hw]. injection Hw as _ Hw.
      by apply split_on_nonempty in Hw.
    + replace (Ascii.eqb c "_") with false
        by (symmetry; apply Ascii.eqb_neq; congruence).
      cbn [orb]. rewrite <- IH. split.
      * intros [w Hw]. pose proof (split_on_nonempty "_" s).
        destruct (split_on "_" s) as [|w' [|? ?]]; [done|by eauto|done].
      * intros [w ->]. by eexists.
Qed.

(** The unpacking raises [ValueError], and only that, exactly on the names
    without an underscore. *)
Lemma unpack_theme_raises (name : string) (e : PyErr) :
  SearchPairs.unpack_theme name = Raise e <->
  e = ValueError /\ contains "_" name = false.
Proof.
  unfold SearchPairs.unpack_theme. rewrite <- split_on_one_piece.
  pose proof (split_on_nonempty "_" name).
  destruct (split_on "_" name) as [|w [|w' ws]]; [done| |].
  - split; [intros [= <-]; eauto|by intros [-> _]].
  - split; [done|]. by intros [_ [? ?]].
Qed.

Lemma for_yield_keeps_ok {A : Type} (xs ys : list A)
    (keeps : A -> result bool) :
  for_yield xs (fun x => b ← keeps x; mret (if b : bool then [x] else []))
    = Ok ys <->
  (forall x, x ∈ xs -> exists b, keeps x = Ok b) /\
  ys = List.filter
         (fun x => match keeps x with Ok b => b | Raise _ => false end) xs.
Proof.
  revert ys. induction xs as [|x xs IH]; intros ys.
  - simpl. split.
    + intros [= <-]. split; [|done]. intros x H. by apply elem_of_nil in H.
    + by intros [_ ->].
  - cbn [for_yield List.filter]. destruct (keeps x) as [b|e] eqn:Ex.
    + cbn. destruct (for_yield xs _) as [zs|e] eqn:Ezs.
      * cbn. destruct (IH zs) as [[Hall ->] _]; [done|]. split.
        -- intros [= <-]. split.
           ++ intros y [->|Hy]%elem_of_cons; [by eexists|by apply Hall].
           ++ by destruct b.
        -- intros [_ ->]. by destruct b.
      * cbn. split; [done|]. intros [Hall _]. exfalso.
        destruct (IH (List.filter
                        (fun x => match keeps x with
                                  | Ok b => b
                                  | Raise _ => false
                                  end) xs)) as [_ IH'].
        discriminate IH'. split; [|done].
        intros y Hy. apply Hall. by right.
    + cbn. split; [done|]. intros [Hall _].
      destruct (Hall x) as [b Hb]; [left|]. congruence.
Qed.

Lemma for_yield_keeps_raise_inv {A : Type} (xs : list A)
    (keeps : A -> result bool) (e : PyErr) :
  for_yield xs (fun x => b ← keeps x; mret (if b : bool then [x] else []))
    = Raise e ->
  exists x, x ∈ xs /\ keeps x = Raise e.
Proof.
  induction xs as [|x xs IH]; [done|].
  cbn [for_yield]. destruct (keeps x) as [b|e'] eqn:Ex.
  - cbn. destruct (for_yield xs _) as [zs|e''] eqn:Ezs; [done|].
    cbn. intros [= ->]. destruct IH as (y & Hy & Hr); [done|].
    exists y. split; [by right|done].
  - cbn. intros [= ->]. exists x. split; [left|done].
Qed.

Lemma for_yield_keeps_raise_intro {A : Type} (xs : list A)
    (keeps : A -> result bool) (x : A) (e1 : PyErr) :
  x ∈ xs -> keeps x = Raise e1 ->
  exists e,
    for_yield xs (fun x => b ← keeps x; mret (if b : bool then [x] else []))
    = Raise e.
Proof.
  intros Hin Hr. induction xs as [|y xs IH]; [by apply elem_of_nil in Hin|].
  cbn [for_yield]. destruct (keeps y) as [b|e'] eqn:Ey.
  - cbn. apply elem_of_cons in Hin as [->|Hin]; [congruence|].
    destruct (IH Hin) as [e ->]. cbn. by eexists.
  - cbn. by eexists.
Qed.

Section Filtered.

Variable keeps : Tileset.t -> Single.t -> result bool.

Lemma filter_row (t : Tileset.t) (ss : list Single.t) :
  List.filter (fun x : Tileset.t * Single.t =>
                 match keeps x.1 x.2 with Ok b => b | Raise _ => false end)
              (ss ≫= fun single => [(t, single)])
  = ss ≫= fun single =>
            if SearchPairs.test_of keeps t single then [(t, single)] else [].
Proof.
  induction ss as [|s ss IH]; [done|].
  rewrite !bind_cons, List.filter_app, IH. by f_equal.
Qed.

Lemma filter_search_pairs (self : BaseLoader.t) :
  List.filter (fun x : Tileset.t * Single.t =>
                 match keeps x.1 x.2 with Ok b => b | Raise _ => false end)
              (SearchPairs.base self)
  = BaseLoader._get_search_pairs (SearchPairs.test_of keeps) self.
Proof.
  unfold SearchPairs.base, BaseLoader._get_search_pairs.
  induction (BaseLoader.tilesets self) as [|t ts IH]; [done|].
  by rewrite !bind_cons, List.filter_app, IH, filter_row.
Qed.

Lemma filtered_body (self : BaseLoader.t) :
  SearchPairs.filtered keeps self =
  for_yield (SearchPairs.base self)
    (fun x => b ← keeps x.1 x.2; mret (if b : bool then [x] else [])).
Proof.
  unfold SearchPairs.filtered. apply for_yield_ext. by intros [t s] _.
Qed.

Lemma elem_of_base (self : BaseLoader.t) (x : Tileset.t * Single.t) :
  x ∈ SearchPairs.base self <->
  x.1 ∈ BaseLoader.tilesets self /\ x.2 ∈ BaseLoader.singles self.
Proof.
  destruct x as [t s]. unfold SearchPairs.base.
  rewrite elem_of_search_pairs. simpl. tauto.
Qed.

Lemma filtered_ok (self : BaseLoader.t)
    (pairs : list (Tileset.t * Single.t)) :
  SearchPairs.filtered keeps self = Ok pairs <->
  (forall tileset single,
     tileset ∈ BaseLoader.tilesets self ->
     single ∈ BaseLoader.singles self ->
     exists b, keeps tileset single = Ok b) /\
  pairs = BaseLoader._get_search_pairs (SearchPairs.test_of keeps) self.
Proof.
  rewrite filtered_body, for_yield_keeps_ok, filter_search_pairs.
  split; intros [Hall ->]; (split; [|done]).
  - intros t s Ht Hs. apply (Hall (t, s)). by apply elem_of_base.
  - intros [t s] [Ht Hs]%elem_of_base. by apply Hall.
Qed.

Lemma filtered_raises (self : BaseLoader.t) (e : PyErr) :
  (forall tileset single e', keeps tileset single = Raise e' ->
                             e' = ValueError) ->
  SearchPairs.filtered keeps self = Raise e <->
  e = ValueError /\
  exists tileset single,
    tileset ∈ BaseLoader.tilesets self /\
    single ∈ BaseLoader.singles self /\
    keeps tileset single = Raise ValueError.
Proof.
  intros Honly. rewrite filtered_body. split.
  - intros ([t s] & [Ht Hs]%elem_of_base & Hr)%for_yield_keeps_raise_inv.
    simpl in *. pose proof (Honly _ _ _ Hr) as ->. eauto 6.
  - intros [-> (t & s & Ht & Hs & Hr)].
    destruct (for_yield_keeps_raise_intro (SearchPairs.base self)
                (fun x => keeps x.1 x.2) (t, s) ValueError) as [e He];
      [by apply elem_of_base|done|].
    pose proof He as ([t' s'] & _ & Hr')%for_yield_keeps_raise_inv.
    simpl in Hr'. by rewrite He, (Honly _ _ _ Hr').
Qed.

End Filtered.

Variable lower : string -> string.
Variable dirname : string -> string.
Variable basename : string -> string.

(** When the body of a pack's loop raises: the names are unpacked only for
    a tileset and a single of the theme sorter, and the unpacking fails on
    a name without an underscore. *)
Lemma keeps_raises (second : string) (trim : bool)
    (tileset : Tileset.t) (single : Single.t) (e : PyErr) :
  (if contains "theme_sorter" (lower (Tileset.path tileset)) &&
      contains second (lower (Single.path single))
   then
     single_theme ←
       SearchPairs.unpack_theme (basename (dirname (Single.path single)));
     tileset_theme ←
       SearchPairs.unpack_theme (basename (Tileset.path tileset));
     if bool_decide ((if trim then py_slice 0 (-1) single_theme
                      else single_theme) <> tileset_theme)
     then mret false else mret true
   else mret true) = Raise e <->
  e = ValueError /\
  contains "theme_sorter" (lower (Tileset.path tileset)) = true /\
  contains second (lower (Single.path single)) = true /\
  (contains "_" (basename (dirname (Single.path single))) = false \/
   contains "_" (basename (Tileset.path tileset)) = false).
Proof.
  destruct (contains "theme_sorter" _); cbn [andb];
    [|split; [done|by intros (_ & ? & _)]].
  destruct (contains second _); cbn [andb];
    [|split; [done|by intros (_ & _ & ? & _)]].
  destruct (SearchPairs.unpack_theme (basename (dirname _)))
    as [st|e1] eqn:E1.
  - cbn. destruct (SearchPairs.unpack_theme (basename (Tileset.path _)))
      as [tt|e2] eqn:E2.
    + cbn. split.
      * by destruct (bool_decide _).
      * intros (_ & _ & _ & [H|H]).
        -- assert (SearchPairs.unpack_theme
                     (basename (dirname (Single.path single)))
                   = Raise ValueError) by (by apply unpack_theme_raises).
           congruence.
        -- assert (SearchPairs.unpack_theme
                     (basename (Tileset.path tileset))
                   = Raise ValueError) by (by apply unpack_theme_raises).
           congruence.
    + cbn. apply unpack_theme_raises in E2 as [-> E2]. split.
      * intros [= <-]. auto.
      * by intros [-> _].
  - cbn. apply unpack_theme_raises in E1 as [-> E1]. split.
    + intros [= <-]. auto.
    + by intros [-> _].
Qed.

(** X19. The generators of the two packs either raise or yield exactly the
    pairs of the base class that their test keeps, in the order of the base
    class: they return a list exactly when the test raises on no pair of a
    tileset and a single of the collection, and the list is then the one the
    dispatcher searches for that test. *)
Theorem pack_pairs_are_filtered_base_pairs (self : BaseLoader.t)
    (pairs : list (Tileset.t * Single.t)) :
  (SearchPairs.ModernExteriorsLoader lower dirname basename self = Ok pairs
   <->
   (forall tileset single,
      tileset ∈ BaseLoader.tilesets self ->
      single ∈ BaseLoader.singles self ->
      exists b, SearchPairs.ModernExteriorsLoader_keeps
                  lower dirname basename tileset single = Ok b) /\
   pairs = BaseLoader._get_search_pairs
             (SearchPairs.test_of
                (SearchPairs.ModernExteriorsLoader_keeps
                   lower dirname basename)) self) /\
  (SearchPairs.ModernInteriorsLoader lower dirname basename self = Ok pairs
   <->
   (forall tileset single,
      tileset ∈ BaseLoader.tilesets self ->
      single ∈ BaseLoader.singles self ->
      exists b, SearchPairs.ModernInteriorsLoader_keeps
                  lower dirname basename tileset single = Ok b) /\
   pairs = BaseLoader._get_search_pairs
             (SearchPairs.test_of
                (SearchPairs.ModernInteriorsLoader_keeps
                   lower dirname basename)) self).
Proof. split; apply filtered_ok. Qed.

(** X20. Listing the pairs of a pack raises, and then [ValueError], exactly
    when the collection holds a tileset whose lowercased path contains
    "theme_sorter" and a single whose lowercased path contains "singles"
    (Modern Exteriors) or "theme_sorter_singles" (Modern Interiors) such
    that the name of the single's folder or the file name of the tileset
    has no underscore. *)
Theorem pack_pairs_raise_iff (self : BaseLoader.t) (e : PyErr) :
  (SearchPairs.ModernExteriorsLoader lower dirname basename self = Raise e
   <->
   e = ValueError /\
   exists tileset single,
     tileset ∈ BaseLoader.tilesets self /\
     single ∈ BaseLoader.singles self /\
     contains "theme_sorter" (lower (Tileset.path tileset)) = true /\
     contains "singles" (lower (Single.path single)) = true /\
     (contains "_" (basename (dirname (Single.path single))) = false \/
      contains "_" (basename (Tileset.path tileset)) = false)) /\
  (SearchPairs.ModernInteriorsLoader lower dirname basename self = Raise e
   <->
   e = ValueError /\
   exists tileset single,
     tileset ∈ BaseLoader.tilesets self /\
     single ∈ BaseLoader.singles self /\
     contains "theme_sorter" (lower (Tileset.path tileset)) = true /\
     contains "theme_sorter_singles" (lower (Single.path single)) = true /\
     (contains "_" (basename (dirname (Single.path single))) = false \/
      contains "_" (basename (Tileset.path tileset)) = false)).
Proof.
  split.
  - unfold SearchPairs.ModernExteriorsLoader. rewrite filtered_raises.
    + split.
      * intros [-> (t & s & Ht & Hs & Hr)]. split; [done|].
        exists t, s. split; [done|]. split; [done|].
        by apply (keeps_raises "singles" true t s ValueError) in Hr
          as (_ & ? & ? & ?).
      * intros [-> (t & s & Ht & Hs & H1 & H2 & H3)]. split; [done|].
        exists t, s. split; [done|]. split; [done|].
        by apply (keeps_raises "singles" true t s ValueError).
    + intros t s e' Hr.
      by apply (keeps_raises "singles" true t s e') in Hr as [-> _].
  - unfold SearchPairs.ModernInteriorsLoader. rewrite filtered_raises.
    + split.
      * intros [-> (t & s & Ht & Hs & Hr)]. split; [done|].
        exists t, s. split; [done|]. split; [done|].
        by apply (keeps_raises "theme_sorter_singles" false t s ValueError)
          in Hr as (_ & ? & ? & ?).
      * intros [-> (t & s & Ht & Hs & H1 & H2 & H3)]. split; [done|].
        exists t, s. split; [done|]. split; [done|].
        by apply (keeps_raises "theme_sorter_singles" false t s ValueError).
    + intros t s e' Hr.
      by apply (keeps_raises "theme_sorter_singles" false t s e')
        in Hr as [-> _].
Qed.

End PackPairs.

(** * A whole run: load, list the pairs, search, aggregate *)

Section WholeRun.

Variable imread : string -> option Img.
Variable _load_image_kind : string -> option BaseImg.Kind.
Variable keeps : Tileset.t -> Single.t -> result bool.



End WholeRun.

